(** * pytranscoder.media: a shallow embedding of [media.py]

    The module turns the text printed by [ffmpeg -i] into a [MediaInfo]
    object, derives the [-map] arguments for a profile, and evaluates the
    numeric predicates of profile rules.

    Conventions of the embedding.
    - A Python [str] is a Rocq [string]; a character is a code point below
      256 (the Latin-1 range), with the Unicode classes [\d], [\w], [\s] and
      [str.isnumeric] written out for that range.
    - An [int] is a [Z]: integers are unbounded, and [int] and [str] convert
      them whatever their length.
    - A value that may be [None] is an [option].
    - A call that may raise or print runs in the monad [M]: the lines printed
      so far together with either a returned value or the raised exception.
    - A [dict] is a [gmap] with string keys. *)

From Stdlib Require Import ZArith QArith Ascii String.
From stdpp Require Import base option list gmap strings pretty numbers.

Open Scope Z_scope.
Open Scope string_scope.
Open Scope list_scope.

(** ** Exceptions and printing *)

Inductive exn :=
| ValueError (arg : string)
| IndexError
| KeyError (key : string)
| AttributeError (name : string)
| RecursionError
| OSError (filename : string)
| InvalidLiteral (text : string)   (* the ValueError of int() *)
| TypeError.

Inductive result (A : Type) :=
| Ret (a : A)
| Raise (e : exn).
Arguments Ret {A} a.
Arguments Raise {A} e.

(** [(lines, r)]: the lines written by [print], in order, and how the call
    ended. *)
Definition M (A : Type) : Type := list string * result A.

Definition ret {A} (a : A) : M A := ([], Ret a).
Definition raise {A} (e : exn) : M A := ([], Raise e).
Definition print (line : string) : M unit := ([line], Ret tt).
Definition bind {A B} (m : M A) (f : A → M B) : M B :=
  match m with
  | (lines, Ret a) => let '(lines', r) := f a in (lines ++ lines', r)
  | (lines, Raise e) => (lines, Raise e)
  end.

Notation "x ←' m ; k" := (bind m (λ x, k))
  (at level 20, m at level 100, k at level 200, right associativity,
   format "x  ←'  m ; '/' k").
Notation "m ;;' k" := (bind m (λ _, k))
  (at level 100, k at level 200, right associativity).

Definition outcome {A} (m : M A) : result A := m.2.

(** [str(x)] and the [{x}] of an f-string for a value that is a [str] or
    [None]. *)
(** The double quote, for the messages that show one. *)
Definition dq : string := String "034"%char EmptyString.

Definition str_opt (x : option string) : string := default "None" x.

(** ** Characters and strings as the interpreter sees them *)

Module Char.

Definition code (c : ascii) : N := N_of_ascii c.

Definition between (lo hi : N) (c : ascii) : bool :=
  ((lo <=? code c) && (code c <=? hi))%N.

(** [\d]: the decimal digits; below 256 these are [0]-[9]. *)
Definition is_decimal (c : ascii) : bool := between 48 57 c.

(** [str.isnumeric] for one character: the digits, the superscripts
    one to three and the vulgar fractions. *)
Definition is_numeric (c : ascii) : bool :=
  is_decimal c || between 178 179 c || between 185 185 c || between 188 190 c.

Definition is_alpha (c : ascii) : bool :=
  between 65 90 c || between 97 122 c || between 170 170 c || between 181 181 c
  || between 186 186 c || between 192 214 c || between 216 246 c || between 248 255 c.

(** [\w]: alphanumeric or the underscore. *)
Definition is_word (c : ascii) : bool :=
  is_alpha c || is_numeric c || between 95 95 c.

(** [\s] and [str.isspace]. *)
Definition is_space (c : ascii) : bool :=
  between 9 13 c || between 28 32 c || between 133 133 c || between 160 160 c.

(** The blanks [int()] strips: the C locale's in an ASCII string, the
    Unicode ones above it. *)
Definition is_int_space (c : ascii) : bool :=
  between 9 13 c || between 32 32 c || between 133 133 c || between 160 160 c.

Definition digit_value (c : ascii) : option Z :=
  if is_decimal c then Some (Z.of_N (code c) - 48) else None.

End Char.

Module Str.

(** [c in s] for a one-character [c]. *)
Fixpoint contains (c : ascii) (s : string) : bool :=
  match s with
  | EmptyString => false
  | String d s' => if decide (c = d) then true else contains c s'
  end.

(** [s.split(sep)] for a one-character separator: [cur] is the part being
    read, reversed. *)
Fixpoint split_go (sep : ascii) (cur : string) (s : string) : list string :=
  match s with
  | EmptyString => [String.rev cur]
  | String c s' =>
      if decide (c = sep) then String.rev cur :: split_go sep EmptyString s'
      else split_go sep (String c cur) s'
  end.
Definition split (sep : ascii) (s : string) : list string :=
  split_go sep EmptyString s.

Fixpoint all (p : ascii → bool) (s : string) : bool :=
  match s with
  | EmptyString => true
  | String c s' => p c && all p s'
  end.

(** [s.isnumeric()]: at least one character and all of them numeric. *)
Definition isnumeric (s : string) : bool :=
  match s with
  | EmptyString => false
  | _ => all Char.is_numeric s
  end.

Fixpoint lstrip (p : ascii → bool) (s : string) : string :=
  match s with
  | EmptyString => EmptyString
  | String c s' => if p c then lstrip p s' else s
  end.
Definition strip (p : ascii → bool) (s : string) : string :=
  String.rev (lstrip p (String.rev (lstrip p s))).

(** Digits with single underscores between them.  [digit_seen] is false
    where a digit has to come next: at the start and after an underscore. *)
Fixpoint digits (s : string) (acc : Z) (digit_seen : bool) : option Z :=
  match s with
  | EmptyString => if digit_seen then Some acc else None
  | String c s' =>
      match Char.digit_value c with
      | Some d => digits s' (10 * acc + d) true
      | None =>
          if decide (c = "_"%char) then
            if digit_seen then digits s' acc false else None
          else None
      end
  end.

(** [int(s)]: blanks stripped, an optional sign, then the digits.  [None]
    is the [ValueError] for an invalid literal. *)
Definition int (s : string) : option Z :=
  match strip Char.is_int_space s with
  | String c r =>
      if decide (c = "+"%char) then digits r 0 false
      else if decide (c = "-"%char) then Z.opp <$> digits r 0 false
      else digits (String c r) 0 false
  | EmptyString => None
  end.

(** A decimal integer literal of the expression grammar: as for [int]
    without blanks or sign, and a leading zero only when every digit is
    zero. *)
Definition literal (s : string) : option Z :=
  match s with
  | String c _ =>
      if decide (c = "0"%char) then
        match digits s 0 false with
        | Some v => if decide (v = 0) then Some 0 else None
        | None => None
        end
      else digits s 0 false
  | EmptyString => None
  end.

(** An operand: a literal, or a literal under a unary minus. *)
Definition operand (s : string) : option Z :=
  match s with
  | String c r => if decide (c = "-"%char) then Z.opp <$> literal r else literal s
  | EmptyString => None
  end.

(** The comparisons [eval] is given by [eval_numeric] when attribute and
    bounds are integers: [a == b], [a < b], [a > b] and [a <= b <= c],
    one blank between the tokens.  [None]: not such an expression. *)
Definition comparison (expr : string) : option bool :=
  match split " " expr with
  | [a; op; b] =>
      match operand a, operand b with
      | Some x, Some y =>
          if decide (op = "==") then Some (bool_decide (x = y))
          else if decide (op = "<") then Some (bool_decide (x < y)%Z)
          else if decide (op = ">") then Some (bool_decide (x > y)%Z)
          else None
      | _, _ => None
      end
  | [a; op1; b; op2; c] =>
      match operand a, operand b, operand c with
      | Some x, Some y, Some z =>
          if bool_decide (op1 = "<=") && bool_decide (op2 = "<=")
          then Some (bool_decide (x ≤ y)%Z && bool_decide (y ≤ z)%Z)
          else None
      | _, _, _ => None
      end
  | _ => None
  end.

End Str.

(** ** Regular expressions

    The part of [re] the four patterns of the module use: literal text,
    the classes [.], [\d], [\w], [\s] and a bracketed set, the greedy [*]
    and [+] and the lazy [*?] on one character, the greedy [?] on a group,
    capture groups, [^] and [$], under the flags [DOTALL] and [MULTILINE].
    Matching backtracks in the order of [re]: the first way to match, in
    the order of the alternatives, is the one returned. *)

Module re.

Record flags := Flags { DOTALL : bool; MULTILINE : bool }.

Inductive atom :=
| Any                       (* .  *)
| Digit                     (* \d *)
| Word                      (* \w *)
| Space                     (* \s *)
| OneOf (set : string).     (* [...] *)

Inductive regex :=
| Empty
| Text (s : string)                                 (* literal characters *)
| One (a : atom)                                    (* a    *)
| Star (a : atom)                                   (* a*   *)
| Plus (a : atom)                                   (* a+   *)
| LazyStar (a : atom)                               (* a*?  *)
| Opt (r : regex)                                   (* (?:r)? *)
| Group (n : nat) (name : option string) (r : regex) (* (r), (?P<name>r) *)
| Seq (r1 r2 : regex)
| Bol                                               (* ^ *)
| Eol.                                              (* $ *)

Definition seq (rs : list regex) : regex := foldr Seq Empty rs.

Definition newline : ascii := "010"%char.

Definition accepts (f : flags) (a : atom) (c : ascii) : bool :=
  match a with
  | Any => DOTALL f || negb (bool_decide (c = newline))
  | Digit => Char.is_decimal c
  | Word => Char.is_word c
  | Space => Char.is_space c
  | OneOf set => Str.contains c set
  end.

(** Where the matcher stands: the character before the position ([None]
    at the start of the text), the text from the position on, and the
    groups captured so far. *)
Definition captures := gmap nat string.
Definition cont (R : Type) := option ascii → list ascii → captures → option R.

Fixpoint strip_prefix (t : list ascii) (prev : option ascii) (s : list ascii)
    : option (option ascii * list ascii) :=
  match t with
  | [] => Some (prev, s)
  | c :: t' =>
      match s with
      | d :: s' => if decide (c = d) then strip_prefix t' (Some d) s' else None
      | [] => None
      end
  end.

(** Greedy repetition: as many characters as possible first, one fewer on
    each failure of what follows. *)
Fixpoint star {R} (ok : ascii → bool) (prev : option ascii) (s : list ascii)
    (k : option ascii → list ascii → option R) : option R :=
  match s with
  | c :: s' =>
      if ok c then
        match star ok (Some c) s' k with
        | Some r => Some r
        | None => k prev s
        end
      else k prev s
  | [] => k prev s
  end.

(** Lazy repetition: as few characters as possible first. *)
Fixpoint lazy_star {R} (ok : ascii → bool) (prev : option ascii) (s : list ascii)
    (k : option ascii → list ascii → option R) : option R :=
  match k prev s with
  | Some r => Some r
  | None =>
      match s with
      | c :: s' => if ok c then lazy_star ok (Some c) s' k else None
      | [] => None
      end
  end.

Definition at_bol (f : flags) (prev : option ascii) : bool :=
  match prev with
  | None => true
  | Some c => MULTILINE f && bool_decide (c = newline)
  end.

Definition at_eol (f : flags) (s : list ascii) : bool :=
  match s with
  | [] => true
  | c :: s' =>
      bool_decide (c = newline) && (MULTILINE f || bool_decide (s' = []))
  end.

(** The text a group took: from [s] up to [s']. *)
Definition taken (s s' : list ascii) : string :=
  string_of_list_ascii (take (length s - length s') s).

Fixpoint run {R} (f : flags) (r : regex) (prev : option ascii) (s : list ascii)
    (caps : captures) (k : cont R) : option R :=
  match r with
  | Empty => k prev s caps
  | Text t =>
      match strip_prefix (list_ascii_of_string t) prev s with
      | Some (prev', s') => k prev' s' caps
      | None => None
      end
  | One a =>
      match s with
      | c :: s' => if accepts f a c then k (Some c) s' caps else None
      | [] => None
      end
  | Star a => star (accepts f a) prev s (λ prev' s', k prev' s' caps)
  | Plus a =>
      match s with
      | c :: s' =>
          if accepts f a c
          then star (accepts f a) (Some c) s' (λ prev' s', k prev' s' caps)
          else None
      | [] => None
      end
  | LazyStar a => lazy_star (accepts f a) prev s (λ prev' s', k prev' s' caps)
  | Opt r' =>
      match run f r' prev s caps k with
      | Some x => Some x
      | None => k prev s caps
      end
  | Group n _ r' =>
      run f r' prev s caps (λ prev' s' caps', k prev' s' (<[n := taken s s']> caps'))
  | Seq r1 r2 =>
      run f r1 prev s caps (λ prev' s' caps', run f r2 prev' s' caps' k)
  | Bol => if at_bol f prev then k prev s caps else None
  | Eol => if at_eol f s then k prev s caps else None
  end.

(** The groups of a pattern, in the order of their numbers, with their
    names. *)
Fixpoint groups_of (r : regex) : list (nat * option string) :=
  match r with
  | Opt r' => groups_of r'
  | Group n name r' => (n, name) :: groups_of r'
  | Seq r1 r2 => groups_of r1 ++ groups_of r2
  | _ => []
  end.

Record pattern := Pattern { rx : regex; fl : flags }.

(** A match object: what [groups()] and [groupdict()] return. *)
Record Match := MkMatch {
  groups : list (option string);
  groupdict : gmap string (option string)
}.

Definition group (m : Match) (i : nat) : option string :=
  match i with
  | O => None
  | S j => mjoin (groups m !! j)
  end.

Definition named (caps : captures) (g : nat * option string)
    : option (string * option string) :=
  match g.2 with
  | Some name => Some (name, caps !! g.1)
  | None => None
  end.

Definition mk_match (p : pattern) (caps : captures) : Match :=
  MkMatch ((λ g, caps !! g.1) <$> groups_of (rx p))
          (list_to_map (omap (named caps) (groups_of (rx p)))).

(** One attempt at a position: the match and the text after it. *)
Definition attempt (p : pattern) (prev : option ascii) (s : list ascii)
    : option (Match * list ascii) :=
  run (fl p) (rx p) prev s ∅ (λ _ s' caps, Some (mk_match p caps, s')).

(** [p.match(text)]: an attempt at the start of the text only. *)
Definition match_ (p : pattern) (text : string) : option Match :=
  fst <$> attempt p None (list_ascii_of_string text).

(** [p.finditer(text)]: the attempts from left to right, each search
    resuming where the last match ended.  [skip] counts the characters of
    the last match still to pass.  (None of the patterns here matches the
    empty text; after an empty match the scan moves on by one
    character.) *)
Fixpoint scan (p : pattern) (skip : nat) (prev : option ascii) (s : list ascii)
    : list Match :=
  match skip with
  | S n =>
      match s with
      | c :: s' => scan p n (Some c) s'
      | [] => []
      end
  | O =>
      match attempt p prev s with
      | Some (m, s1) =>
          m :: match s with
               | c :: s' => scan p (length s - length s1 - 1) (Some c) s'
               | [] => []
               end
      | None =>
          match s with
          | c :: s' => scan p 0 (Some c) s'
          | [] => []
          end
      end
  end.

Definition finditer (p : pattern) (text : string) : list Match :=
  scan p 0 None (list_ascii_of_string text).

End re.

(** ** The patterns of the module *)

Import re.

(** [.*Duration: (\d+):(\d+):(\d+)], [re.DOTALL] *)
Definition video_dur : pattern :=
  Pattern
    (seq [Star Any; Text "Duration: "; Group 1 None (Plus Digit); Text ":";
          Group 2 None (Plus Digit); Text ":"; Group 3 None (Plus Digit)])
    (Flags true false).

(** [.*Stream #0:(\d+)(?:\(\w+\))?: Video: (\w+).*, (yuv\w+)[(,].* (\d+)x(\d+).* (\d+)(\.\d.)? fps],
    [re.DOTALL] *)
Definition video_info : pattern :=
  Pattern
    (seq [Star Any; Text "Stream #0:"; Group 1 None (Plus Digit);
          Opt (seq [Text "("; Plus Word; Text ")"]); Text ": Video: ";
          Group 2 None (Plus Word); Star Any; Text ", ";
          Group 3 None (seq [Text "yuv"; Plus Word]); One (OneOf "(,");
          Star Any; Text " "; Group 4 None (Plus Digit); Text "x";
          Group 5 None (Plus Digit); Star Any; Text " ";
          Group 6 None (Plus Digit);
          Opt (Group 7 None (seq [Text "."; One Digit; One Any])); Text " fps"])
    (Flags true false).

(** [^\s+Stream #0:(?P<stream>\d+)(\((?P<lang>\w+)\))?: Audio: (?P<format>\w+).*?(?P<default>\(default\))?$],
    [re.MULTILINE] *)
Definition audio_info : pattern :=
  Pattern
    (seq [Bol; Plus Space; Text "Stream #0:"; Group 1 (Some "stream") (Plus Digit);
          Opt (Group 2 None (seq [Text "("; Group 3 (Some "lang") (Plus Word); Text ")"]));
          Text ": Audio: "; Group 4 (Some "format") (Plus Word); LazyStar Any;
          Opt (Group 5 (Some "default") (Text "(default)")); Eol])
    (Flags false true).

(** [^\s+Stream #0:(?P<stream>\d+)(\((?P<lang>\w+)\))?: Subtitle:],
    [re.MULTILINE] *)
Definition subtitle_info : pattern :=
  Pattern
    (seq [Bol; Plus Space; Text "Stream #0:"; Group 1 (Some "stream") (Plus Digit);
          Opt (Group 2 None (seq [Text "("; Group 3 (Some "lang") (Plus Word); Text ")"]));
          Text ": Subtitle:"])
    (Flags false true).

(** ** Track descriptors *)

Module AudioTrack.

(** The four attributes are whatever the constructor's dictionary holds:
    a matched group's text, or [None]. *)
Record t := Build {
  track : option string;
  lang : option string;
  format : option string;
  default : option string
}.

Definition __init__ (adict : gmap string (option string)) : M t :=
  match adict !! "stream", adict !! "lang", adict !! "format", adict !! "default" with
  | None, _, _, _ => raise (KeyError "stream")
  | _, None, _, _ => raise (KeyError "lang")
  | _, _, None, _ => raise (KeyError "format")
  | _, _, _, None => raise (KeyError "default")
  | Some s, Some l, Some f, Some d => ret (Build s l f d)
  end.

Definition track_id (self : t) : option string := track self.
Definition language (self : t) : option string := lang self.

(** [codec] returns [self.codec]: the property calls itself.  [depth] is
    the number of frames left before the interpreter's recursion limit. *)
Fixpoint codec (depth : nat) (self : t) : M string :=
  match depth with
  | O => raise RecursionError
  | S d => codec d self
  end.

Definition is_default (self : t) : bool :=
  bool_decide (default self = Some "default").

Definition __str__ (self : t) : string :=
  str_opt (track self) +:+ ":" +:+ str_opt (lang self) +:+ ":" +:+
  str_opt (format self) +:+ ":" +:+ str_opt (default self).

End AudioTrack.

Module SubtitleTrack.

Record t := Build {
  track : option string;
  lang : option string
}.

Definition __init__ (sdict : gmap string (option string)) : M t :=
  match sdict !! "stream", sdict !! "lang" with
  | None, _ => raise (KeyError "stream")
  | _, None => raise (KeyError "lang")
  | Some s, Some l => ret (Build s l)
  end.

Definition track_id (self : t) : option string := track self.
Definition language (self : t) : option string := lang self.

Definition __str__ (self : t) : string :=
  str_opt (track self) +:+ ":" +:+ str_opt (lang self).

End SubtitleTrack.

(** ** Profile *)

Module Profile.

(** Modelled from the spec: [pytranscoder.profile.Profile] is imported by
    [media.py] but defined elsewhere.  Its six read operations are taken as
    the values they return: the two exclusion lists may be [None] (the
    code tests for it), the two inclusion lists are sequences of language
    codes, and the two default languages are optional. *)
Record t := Build {
  excluded_audio : option (list string);
  excluded_subtitles : option (list string);
  included_audio : list string;
  included_subtitles : list string;
  default_audio : option string;
  default_subtitle : option string
}.

End Profile.

(** [x in xs] for a language attribute and a list of language codes: [None]
    equals no string. *)
Definition lang_in (x : option string) (xs : list string) : bool :=
  match x with
  | Some s => bool_decide (s ∈ xs)
  | None => false
  end.

(** ** MediaInfo *)

(** The values an instance attribute of [MediaInfo] can hold. *)
Inductive PyVal :=
| PyNone
| PyBool (b : bool)
| PyInt (z : Z)
| PyFloat (q : Q)
| PyStr (s : string)
| PyAudio (l : list AudioTrack.t)
| PySubtitle (l : list SubtitleTrack.t).

Module MediaInfo.

(** The dictionary [parse_details] hands to the constructor.
    [filesize_mb] is a float in the source; here it is the exact quotient
    that float rounds. *)
Record info := Info {
  path : string;
  vcodec : option string;
  stream : option string;
  res_height : Z;
  res_width : Z;
  runtime : Z;
  filesize_mb : Q;
  fps : Z;
  colorspace : option string;
  audio : list AudioTrack.t;
  subtitle : list SubtitleTrack.t
}.

(** An instance: [valid] alone when built from [None], all attributes
    otherwise. *)
Inductive t :=
| Invalid
| Valid (i : info).

Definition __init__ (i : option info) : t :=
  match i with
  | None => Invalid
  | Some i => Valid i
  end.

Definition valid (self : t) : bool :=
  match self with
  | Invalid => false
  | Valid _ => true
  end.

Definition str_or_none (x : option string) : PyVal :=
  match x with
  | Some s => PyStr s
  | None => PyNone
  end.

(** [self.__dict__] *)
Definition __dict__ (self : t) : gmap string PyVal :=
  match self with
  | Invalid => {[ "valid" := PyBool false ]}
  | Valid i =>
      <[ "subtitle" := PySubtitle (subtitle i) ]>
      (<[ "audio" := PyAudio (audio i) ]>
      (<[ "colorspace" := str_or_none (colorspace i) ]>
      (<[ "fps" := PyInt (fps i) ]>
      (<[ "filesize_mb" := PyFloat (filesize_mb i) ]>
      (<[ "runtime" := PyInt (runtime i) ]>
      (<[ "res_width" := PyInt (res_width i) ]>
      (<[ "res_height" := PyInt (res_height i) ]>
      (<[ "stream" := str_or_none (stream i) ]>
      (<[ "vcodec" := str_or_none (vcodec i) ]>
      (<[ "path" := PyStr (path i) ]>
      {[ "valid" := PyBool true ]}))))))))))
  end.

(** [self.<name>] *)
Definition getattr (self : t) (name : string) : M PyVal :=
  match __dict__ self !! name with
  | Some v => ret v
  | None => raise (AttributeError name)
  end.

(** Typed reads of the attributes the methods use. *)
Definition get_stream (self : t) : M (option string) :=
  match self with
  | Valid i => ret (stream i)
  | Invalid => raise (AttributeError "stream")
  end.
Definition get_audio (self : t) : M (list AudioTrack.t) :=
  match self with
  | Valid i => ret (audio i)
  | Invalid => raise (AttributeError "audio")
  end.
Definition get_subtitle (self : t) : M (list SubtitleTrack.t) :=
  match self with
  | Valid i => ret (subtitle i)
  | Invalid => raise (AttributeError "subtitle")
  end.

Definition is_multistream (self : t) : M bool :=
  a ←' get_audio self;
  if bool_decide (1 < length a)%nat then ret true
  else s ←' get_subtitle self; ret (bool_decide (1 < length s)%nat).

(** *** Stream mapper *)

(** The loop state of [_map_audio_streams]:
    [seq_list], [mapped], [default_reassign]. *)
Record audio_loop := AudioLoop {
  a_seq_list : list string;
  a_mapped : list AudioTrack.t;
  a_default_reassign : bool
}.

Definition audio_step (excludes : list string) (includes : option (list string))
    (st : audio_loop) (s : AudioTrack.t) : audio_loop :=
  let stream_lang := AudioTrack.lang s in
  if match includes with
     | Some incl => negb (lang_in stream_lang incl)
     | None => false
     end
  then
    (* continue *)
    AudioLoop (a_seq_list st) (a_mapped st)
      (if AudioTrack.is_default s then true else a_default_reassign st)
  else if lang_in stream_lang excludes then
    AudioLoop (a_seq_list st) (a_mapped st)
      (if AudioTrack.is_default s then true else a_default_reassign st)
  else
    AudioLoop (a_seq_list st ++ ["-map"; "0:" +:+ str_opt (AudioTrack.track_id s)])
      (a_mapped st ++ [s]) (a_default_reassign st).

(** [for i, s in enumerate(mapped)]: one disposition pair for every mapped
    stream whose language equals [defl]. *)
Definition disposition_step (defl : string) (seq_list : list string)
    (e : nat * AudioTrack.t) : list string :=
  if bool_decide (AudioTrack.lang e.2 = Some defl)
  then seq_list ++ ["-disposition:a:" +:+ pretty e.1; "default"]
  else seq_list.

Definition _map_audio_streams (streams : list AudioTrack.t)
    (excludes : option (list string)) (includes : option (list string))
    (defl : option string) : M (list string) :=
  let excludes := match excludes with None => [] | Some e => e end in
  let includes := match includes with
                  | None | Some [] => None
                  | Some i => Some i
                  end in
  let st := foldl (audio_step excludes includes) (AudioLoop [] [] false) streams in
  if a_default_reassign st then
    match defl with
    | None =>
        print "Warning: A default stream will be removed but no default language specified to replace it";;'
        ret (a_seq_list st)
    | Some defl =>
        ret (foldl (disposition_step defl) (a_seq_list st)
               (imap pair (a_mapped st)))
    end
  else ret (a_seq_list st).

Record subtitle_loop := SubtitleLoop {
  s_seq_list : list string;
  s_mapped : list SubtitleTrack.t
}.

Definition subtitle_step (excludes : list string) (includes : option (list string))
    (st : subtitle_loop) (s : SubtitleTrack.t) : subtitle_loop :=
  let stream_lang := SubtitleTrack.lang s in
  if match includes with
     | Some incl => negb (lang_in stream_lang incl)
     | None => false
     end
  then st
  else if lang_in stream_lang excludes then st
  else
    SubtitleLoop
      (s_seq_list st ++ ["-map"; "0:" +:+ str_opt (SubtitleTrack.track_id s)])
      (s_mapped st ++ [s]).

Definition _map_subtitle_streams (streams : list SubtitleTrack.t)
    (excludes : option (list string)) (includes : option (list string))
    (defl : option string) : M (list string) :=
  let excludes := match excludes with None => [] | Some e => e end in
  let includes := match includes with
                  | None | Some [] => None
                  | Some i => Some i
                  end in
  let st := foldl (subtitle_step excludes includes) (SubtitleLoop [] []) streams in
  ret (s_seq_list st).

Definition ffmpeg_streams (self : t) (profile : Profile.t) : M (list string) :=
  let excl_audio := Profile.excluded_audio profile in
  let excl_subtitle := Profile.excluded_subtitles profile in
  let incl_audio := Profile.included_audio profile in
  let incl_subtitle := Profile.included_subtitles profile in
  let defl_audio := Profile.default_audio profile in
  let defl_subtitle := Profile.default_subtitle profile in
  let excl_audio := match excl_audio with None => [] | Some e => e end in
  let excl_subtitle := match excl_subtitle with None => [] | Some e => e end in
  if bool_decide (length incl_audio = 0%nat) && bool_decide (length excl_audio = 0%nat)
     && bool_decide (length incl_subtitle = 0%nat)
     && bool_decide (length excl_subtitle = 0%nat)
  then ret ["-map"; "0"]
  else
    stream ←' get_stream self;
    let seq_list := ["-map"; "0:" +:+ str_opt stream] in
    audio ←' get_audio self;
    audio_streams ←' _map_audio_streams audio (Some excl_audio) (Some incl_audio) defl_audio;
    subtitle ←' get_subtitle self;
    subtitle_streams ←'
      _map_subtitle_streams subtitle (Some excl_subtitle) (Some incl_subtitle) defl_subtitle;
    ret (seq_list ++ audio_streams ++ subtitle_streams).

(** *** Predicate evaluator *)

Section Interpreter.

(** The flag [verbose] of the package. *)
Variable verbose : bool.
(** [str(x)] for the attribute values whose text depends on the
    interpreter: floats and lists of objects. *)
Variable str_other : PyVal → string.
(** [eval] on every expression that is not one of [Str.comparison]: the
    truth value of its result, or what it raises. *)
Variable eval_other : string → M bool.

(** The [{attr}] of an f-string. *)
Definition format_attr (attr : PyVal) : string :=
  match attr with
  | PyBool b => if b then "True" else "False"
  | PyInt z => pretty z
  | PyNone => "None"
  | PyStr s => s
  | _ => str_other attr
  end.

(** [str(int(s) * 60)] *)
Definition minutes_to_seconds (s : string) : M string :=
  match Str.int s with
  | Some n => ret (pretty (n * 60))
  | None => raise (InvalidLiteral s)
  end.

(** [eval(expr)] where it is tested by [if not ...]. *)
Definition eval (expr : string) : M bool :=
  match Str.comparison expr with
  | Some b => ret b
  | None => eval_other expr
  end.

(** The branch on the syntax of [value]: the expression to evaluate and
    the [value] the last diagnostic shows, or [None] where the method
    returns [False] at once. *)
Definition build_expr (rulename pred value : string) (attr : PyVal)
    : M (option (string * string)) :=
  if Str.contains "-" value then
    match Str.split "-" value with
    | [rangelow; rangehigh] =>
        bounds ←' (if decide (pred = "runtime") then
                     lo ←' minutes_to_seconds rangelow;
                     hi ←' minutes_to_seconds rangehigh;
                     ret (lo, hi)
                   else ret (rangelow, rangehigh));
        ret (Some (bounds.1 +:+ " <= " +:+ format_attr attr +:+ " <= " +:+ bounds.2,
                   value))
    | _ =>
        print ("Error: Rule " +:+ dq +:+ rulename +:+ dq +:+ " bad range expression: "
               +:+ value +:+ " ");;'
        raise (ValueError value)
    end
  else if Str.isnumeric value then
    value ←' (if decide (pred = "runtime") then minutes_to_seconds value
              else ret value);
    ret (Some (format_attr attr +:+ " == " +:+ value, value))
  else
    match value with
    | EmptyString => raise IndexError
    | String c rest =>
        if Str.contains c "<>" then
          let op := String c EmptyString in
          value ←' (if decide (pred = "runtime") then minutes_to_seconds rest
                    else ret rest);
          ret (Some (format_attr attr +:+ " " +:+ op +:+ " " +:+ value, value))
        else
          print ("Error: Rule " +:+ dq +:+ rulename +:+ dq +:+ " valid value: " +:+ value);;'
          ret None
    end.

Definition eval_numeric (self : t) (rulename pred value : string) : M bool :=
  match __dict__ self !! pred with
  | None | Some PyNone =>
      print ("Error: Rule " +:+ dq +:+ rulename +:+ dq +:+ " unknown attribute: "
             +:+ pred +:+ " ");;'
      raise (ValueError value)
  | Some attr =>
      e ←' build_expr rulename pred value attr;
      match e with
      | None => ret false
      | Some (expr, value) =>
          b ←' eval expr;
          if negb b then
            (if verbose then
               print ("  >> predicate " +:+ pred +:+ " (" +:+ dq +:+ value
                      +:+ dq +:+ ") did not match " +:+ format_attr attr)
             else ret tt);;'
            ret false
          else ret true
      end
  end.

End Interpreter.


(** *** Probe parser *)

(** [int(g)] for a matched group. *)
Definition int_group (g : option string) : M Z :=
  match g with
  | Some s =>
      match Str.int s with
      | Some n => ret n
      | None => raise (InvalidLiteral s)
      end
  | None => raise TypeError
  end.

(** [for ... in audio_info.finditer(output)] *)
Definition audio_track (audio_match : re.Match) : M AudioTrack.t :=
  let ainfo := re.groupdict audio_match in
  match ainfo !! "lang" with
  | None => raise (KeyError "lang")
  | Some None => AudioTrack.__init__ (<["lang" := Some "und"]> ainfo)
  | Some (Some _) => AudioTrack.__init__ ainfo
  end.

Definition subtitle_track (subt_match : re.Match) : M SubtitleTrack.t :=
  let sinfo := re.groupdict subt_match in
  match sinfo !! "lang" with
  | None => raise (KeyError "lang")
  | Some None => SubtitleTrack.__init__ (<["lang" := Some "und"]> sinfo)
  | Some (Some _) => SubtitleTrack.__init__ sinfo
  end.

(** A loop that appends one object per match. *)
Fixpoint collect {A B} (f : A → M B) (l : list A) : M (list B) :=
  match l with
  | [] => ret []
  | x :: l' => y ←' f x; ys ←' collect f l'; ret (y :: ys)
  end.

Definition failed : string → string := λ _path,
  ">>>> regex match on video stream data failed: ffmpeg -i " +:+ _path.

Section Parser.

(** The four extractions, [video_dur.match], [video_info.match],
    [audio_info.finditer] and [subtitle_info.finditer], and the size of
    a file in bytes, [os.path.getsize] ([None]: it raises [OSError]). *)
Variables dur_match info_match : string → option re.Match.
Variables audio_finditer subtitle_finditer : string → list re.Match.
Variable getsize : string → option N.

Definition parse_details_with (_path output : string) : M t :=
  match dur_match output with
  | None => print (failed _path);;' ret (__init__ None)
  | Some match1 =>
  if bool_decide (length (re.groups match1) < 3)%nat then
    print (failed _path);;' ret (__init__ None)
  else
  match info_match output with
  | None => print (failed _path);;' ret (__init__ None)
  | Some match2 =>
  if bool_decide (length (re.groups match2) < 5)%nat then
    print (failed _path);;' ret (__init__ None)
  else
    audio_tracks ←' collect audio_track (audio_finditer output);
    subtitle_tracks ←' collect subtitle_track (subtitle_finditer output);
    let _dur_hrs := re.group match1 1 in
    let _dur_mins := re.group match1 2 in
    let _dur_secs := re.group match1 3 in
    let _id := re.group match2 1 in
    let _codec := re.group match2 2 in
    let _colorspace := re.group match2 3 in
    let _res_width := re.group match2 4 in
    let _res_height := re.group match2 5 in
    let fps := re.group match2 6 in
    filesize ←' match getsize _path with
                | Some n => ret (Z.of_N n # 1048576)
                | None => raise (OSError _path)
                end;
    width ←' int_group _res_width;
    height ←' int_group _res_height;
    hrs ←' int_group _dur_hrs;
    mins ←' int_group _dur_mins;
    secs ←' int_group _dur_secs;
    fps ←' int_group fps;
    ret (__init__ (Some
      {| path := _path;
         vcodec := _codec;
         stream := _id;
         res_width := width;
         res_height := height;
         runtime := hrs * 3600 + mins * 60 + secs;
         filesize_mb := filesize;
         fps := fps;
         colorspace := _colorspace;
         audio := audio_tracks;
         subtitle := subtitle_tracks |}))
  end
  end.

End Parser.

Definition parse_details (getsize : string → option N) (_path output : string) : M t :=
  parse_details_with (re.match_ video_dur) (re.match_ video_info)
    (re.finditer audio_info) (re.finditer subtitle_info) getsize _path output.

End MediaInfo.


(** * The monad *)

Lemma bind_ret {A B} (a : A) (f : A → M B) : bind (ret a) f = f a.
Proof. unfold bind, ret. by destruct (f a). Qed.

Lemma bind_run {A B} (lines : list string) (a : A) (f : A → M B) :
  bind (lines, Ret a) f = (lines ++ (f a).1, (f a).2).
Proof. unfold bind. by destruct (f a). Qed.

Lemma bind_raise {A B} (lines : list string) (e : exn) (f : A → M B) :
  bind (lines, Raise e) f = (lines, Raise e).
Proof. done. Qed.

(** * Strings *)

Lemma append_nil_l (s : string) : "" +:+ s = s.
Proof. reflexivity. Qed.

Lemma append_cons (c : ascii) (s t : string) : String c s +:+ t = String c (s +:+ t).
Proof. reflexivity. Qed.

Lemma append_nil_r (s : string) : s +:+ "" = s.
Proof. induction s as [|c s IH]; [done|]. by rewrite append_cons, IH. Qed.

Lemma append_assoc (s t u : string) : (s +:+ t) +:+ u = s +:+ (t +:+ u).
Proof. induction s as [|c s IH]; [done|]. by rewrite !append_cons, IH. Qed.

Lemma rev_app_rev_app (a b c : string) :
  String.rev_app (String.rev_app a b) c = String.rev_app b (a +:+ c).
Proof.
  revert b c. induction a as [|x a IH]; intros b c; [done|]. simpl.
  by rewrite IH.
Qed.

Lemma rev_rev_app (a : string) : String.rev (String.rev_app a "") = a.
Proof. unfold String.rev. rewrite rev_app_rev_app. simpl. apply append_nil_r. Qed.

Lemma contains_app_cons (sep : ascii) (a b : string) :
  Str.contains sep (a +:+ String sep b) = true.
Proof.
  induction a as [|x a IH]; rewrite ?append_cons; simpl.
  - by rewrite decide_True.
  - rewrite IH. by destruct (decide (sep = x)).
Qed.

Lemma split_go_app (sep : ascii) (a rest : string) : ∀ cur,
  Str.contains sep a = false →
  Str.split_go sep cur (a +:+ rest) = Str.split_go sep (String.rev_app a cur) rest.
Proof.
  induction a as [|x a IH]; intros cur Ha; [done|].
  rewrite append_cons. simpl in *.
  destruct (decide (sep = x)) as [|Hx]; [done|].
  rewrite decide_False by done. by apply IH.
Qed.

(** [(a + sep + b).split(sep)] is [a] followed by [b.split(sep)] when [a]
    holds no separator. *)
Lemma split_app_cons (sep : ascii) (a b : string) :
  Str.contains sep a = false →
  Str.split sep (a +:+ String sep b) = a :: Str.split sep b.
Proof.
  intros Ha. unfold Str.split. rewrite split_go_app by done. simpl.
  by rewrite decide_True, rev_rev_app.
Qed.

Lemma split_none (sep : ascii) (a : string) :
  Str.contains sep a = false → Str.split sep a = [a].
Proof.
  intros Ha. unfold Str.split.
  rewrite <- (append_nil_r a) at 1. rewrite split_go_app by done. simpl.
  by rewrite rev_rev_app.
Qed.

(** ** The decimal text of an integer *)

Lemma digit_value_char (d : N) :
  (d < 10)%N → Char.digit_value (pretty_N_char d) = Some (Z.of_N d).
Proof.
  intros Hd.
  assert (d = 0 ∨ d = 1 ∨ d = 2 ∨ d = 3 ∨ d = 4 ∨ d = 5 ∨ d = 6 ∨ d = 7
          ∨ d = 8 ∨ d = 9)%N as H by lia.
  repeat (destruct H as [-> | H]; [reflexivity|]). by subst.
Qed.

Lemma char_not (d : N) (c : ascii) :
  Char.is_decimal c = false → pretty_N_char d ≠ c.
Proof.
  intros Hc <-. unfold pretty_N_char in Hc.
  by repeat case_match.
Qed.

Lemma digits_pretty_N_go (x : N) :
  (0 < x)%N →
  ∃ m, ∀ s acc b,
    Str.digits (pretty_N_go x s) acc b = Str.digits s (acc * m + Z.of_N x) true.
Proof.
  induction (N.lt_wf_0 x) as [x _ IH]. intros Hx.
  destruct (N.eq_0_gt_0_cases (x `div` 10)%N) as [H0 | Hpos].
  - exists 10. intros s acc b. rewrite pretty_N_go_step, H0, pretty_N_go_0 by done.
    assert (x < 10)%N as Hlt by (by apply N.div_small_iff).
    simpl. rewrite N.mod_small, digit_value_char by done.
    f_equal. lia.
  - destruct (IH (x `div` 10)%N) as [m Hm]; [by apply N.div_lt | done |].
    exists (m * 10). intros s acc b. rewrite pretty_N_go_step, Hm by done.
    simpl. rewrite digit_value_char by (by apply N.mod_lt).
    f_equal. pose proof (N.div_mod x 10). lia.
Qed.

Lemma head_pretty_N_go (x : N) (s : string) :
  (0 < x)%N →
  ∃ c s', pretty_N_go x s = String c s' ∧ c ≠ "0"%char ∧ c ≠ "-"%char.
Proof.
  revert s. induction (N.lt_wf_0 x) as [x _ IH]. intros s Hx.
  rewrite pretty_N_go_step by done.
  destruct (N.eq_0_gt_0_cases (x `div` 10)%N) as [H0 | Hpos].
  - rewrite H0, pretty_N_go_0. eexists _, _. split; [done|].
    assert (x < 10)%N as Hlt by (by apply N.div_small_iff).
    rewrite N.mod_small by done.
    assert (x = 1 ∨ x = 2 ∨ x = 3 ∨ x = 4 ∨ x = 5 ∨ x = 6 ∨ x = 7
            ∨ x = 8 ∨ x = 9)%N as H by lia.
    repeat (destruct H as [-> | H]; [done|]). by subst.
  - apply IH; [by apply N.div_lt | done].
Qed.

Lemma contains_pretty_N_go (c : ascii) (x : N) : ∀ s,
  Char.is_decimal c = false →
  Str.contains c (pretty_N_go x s) = Str.contains c s.
Proof.
  induction (N.lt_wf_0 x) as [x _ IH]. intros s Hc.
  assert (x = 0 ∨ 0 < x)%N as [-> | Hx] by lia.
  - by rewrite pretty_N_go_0.
  - rewrite pretty_N_go_step, IH by (done || by apply N.div_lt).
    simpl. rewrite decide_False; [done|]. intros ->. by eapply char_not.
Qed.

Lemma pretty_pos_unfold (p : positive) :
  pretty (Z.pos p) = pretty_N_go (N.pos p) "".
Proof. reflexivity. Qed.

(** [str(z)] read back by the expression grammar gives [z]. *)
Lemma operand_pretty (z : Z) : Str.operand (pretty z) = Some z.
Proof.
  assert (∀ p, Str.literal (pretty_N_go (N.pos p) "") = Some (Z.pos p)) as Hlit.
  { intros p.
    destruct (head_pretty_N_go (N.pos p) "") as (c & s' & Hs & Hc & _); [done|].
    destruct (digits_pretty_N_go (N.pos p)) as [m Hm]; [done|].
    unfold Str.literal. rewrite Hs, decide_False, <- Hs, Hm by done.
    simpl. f_equal. }
  destruct z as [|p|p].
  - reflexivity.
  - rewrite pretty_pos_unfold.
    destruct (head_pretty_N_go (N.pos p) "") as (c & s' & Hs & _ & Hc); [done|].
    unfold Str.operand. rewrite Hs, decide_False, <- Hs by done. apply Hlit.
  - change (pretty (Z.neg p)) with (String "-" (pretty_N_go (N.pos p) "")).
    unfold Str.operand. rewrite decide_True by done. by rewrite Hlit.
Qed.

Lemma contains_pretty (c : ascii) (z : Z) :
  Char.is_decimal c = false → c ≠ "-"%char →
  Str.contains c (pretty z) = false.
Proof.
  intros Hc Hdash. destruct z as [|p|p].
  - simpl. rewrite decide_False; [done|]. by intros ->.
  - rewrite pretty_pos_unfold. by rewrite contains_pretty_N_go.
  - change (pretty (Z.neg p)) with (String "-" (pretty_N_go (N.pos p) "")).
    simpl. rewrite decide_False by done. by rewrite contains_pretty_N_go.
Qed.

(** ** The comparisons [eval] is given *)

Lemma comparison_range (a b c : Z) :
  Str.comparison (pretty a +:+ " <= " +:+ pretty b +:+ " <= " +:+ pretty c)
  = Some (bool_decide (a ≤ b)%Z && bool_decide (b ≤ c)%Z).
Proof.
  unfold Str.comparison.
  change (" <= " +:+ pretty b +:+ " <= " +:+ pretty c)
    with (String " " ("<=" +:+ String " " (pretty b +:+ String " "
            ("<=" +:+ String " " (pretty c))))).
  rewrite split_app_cons by (by apply contains_pretty).
  rewrite split_app_cons by done.
  rewrite split_app_cons by (by apply contains_pretty).
  rewrite split_app_cons by done.
  rewrite split_none by (by apply contains_pretty).
  by rewrite !operand_pretty.
Qed.

Lemma comparison_binary (op : string) (a b : Z) :
  Str.contains " " op = false →
  Str.comparison (pretty a +:+ " " +:+ op +:+ " " +:+ pretty b)
  = if decide (op = "==") then Some (bool_decide (a = b))
    else if decide (op = "<") then Some (bool_decide (a < b)%Z)
    else if decide (op = ">") then Some (bool_decide (a > b)%Z)
    else None.
Proof.
  intros Hop. unfold Str.comparison.
  change (" " +:+ op +:+ " " +:+ pretty b)
    with (String " " (op +:+ String " " (pretty b))).
  rewrite split_app_cons by (by apply contains_pretty).
  rewrite split_app_cons by done.
  rewrite split_none by (by apply contains_pretty).
  by rewrite !operand_pretty.
Qed.

(** * Matching as a list of successes

    [outs f r prev s caps] lists every way [r] can match at a position, in
    the order in which the matcher tries them; the matcher returns the first
    of them its continuation accepts. *)

Module Outs.

Import re.

Definition state : Type := option ascii * list ascii * captures.

Definition with_caps (caps : captures) (ps : option ascii * list ascii) : state :=
  (ps.1, ps.2, caps).

Fixpoint star_outs (ok : ascii → bool) (prev : option ascii) (s : list ascii)
    : list (option ascii * list ascii) :=
  match s with
  | c :: s' =>
      if ok c then star_outs ok (Some c) s' ++ [(prev, s)] else [(prev, s)]
  | [] => [(prev, [])]
  end.

Fixpoint lazy_outs (ok : ascii → bool) (prev : option ascii) (s : list ascii)
    : list (option ascii * list ascii) :=
  (prev, s) ::
  match s with
  | c :: s' => if ok c then lazy_outs ok (Some c) s' else []
  | [] => []
  end.

Fixpoint outs (f : flags) (r : regex) (prev : option ascii) (s : list ascii)
    (caps : captures) : list state :=
  match r with
  | Empty => [(prev, s, caps)]
  | Text t =>
      match strip_prefix (list_ascii_of_string t) prev s with
      | Some ps => [with_caps caps ps]
      | None => []
      end
  | One a =>
      match s with
      | c :: s' => if accepts f a c then [(Some c, s', caps)] else []
      | [] => []
      end
  | Star a => with_caps caps <$> star_outs (accepts f a) prev s
  | Plus a =>
      match s with
      | c :: s' =>
          if accepts f a c
          then with_caps caps <$> star_outs (accepts f a) (Some c) s'
          else []
      | [] => []
      end
  | LazyStar a => with_caps caps <$> lazy_outs (accepts f a) prev s
  | Opt r' => outs f r' prev s caps ++ [(prev, s, caps)]
  | Group n _ r' =>
      (λ st : state, (st.1.1, st.1.2, <[n := taken s st.1.2]> st.2))
        <$> outs f r' prev s caps
  | Seq r1 r2 =>
      outs f r1 prev s caps ≫= λ st : state, outs f r2 st.1.1 st.1.2 st.2
  | Bol => if at_bol f prev then [(prev, s, caps)] else []
  | Eol => if at_eol f s then [(prev, s, caps)] else []
  end.

(** The first element of [l] that [k] accepts. *)
Fixpoint first {A R} (k : A → option R) (l : list A) : option R :=
  match l with
  | [] => None
  | x :: l' =>
      match k x with
      | Some r => Some r
      | None => first k l'
      end
  end.

Lemma first_app {A R} (k : A → option R) (l1 l2 : list A) :
  first k (l1 ++ l2) = match first k l1 with
                       | Some r => Some r
                       | None => first k l2
                       end.
Proof.
  induction l1 as [|x l1 IH]; [done|]. simpl. by destruct (k x).
Qed.

Lemma first_fmap {A B R} (k : B → option R) (g : A → B) (l : list A) :
  first k (g <$> l) = first (k ∘ g) l.
Proof.
  induction l as [|x l IH]; [done|]. rewrite fmap_cons. simpl. by rewrite IH.
Qed.

Lemma first_bind {A B R} (k : B → option R) (g : A → list B) (l : list A) :
  first k (l ≫= g) = first (λ x, first k (g x)) l.
Proof.
  induction l as [|x l IH]; [done|]. rewrite bind_cons, first_app, IH. done.
Qed.

Lemma first_ext {A R} (k k' : A → option R) (l : list A) :
  (∀ x, k x = k' x) → first k l = first k' l.
Proof.
  intros H. induction l as [|x l IH]; [done|]. simpl. by rewrite H, IH.
Qed.

Lemma first_total {A R} (k : A → R) (l : list A) :
  first (λ x, Some (k x)) l = k <$> head l.
Proof. by destruct l. Qed.

Lemma star_first {R} (ok : ascii → bool) (k : option ascii → list ascii → option R)
    (s : list ascii) : ∀ prev,
  star ok prev s k = first (λ ps, k ps.1 ps.2) (star_outs ok prev s).
Proof.
  induction s as [|c s IH]; intros prev; simpl.
  - by destruct (k prev []).
  - destruct (ok c); simpl.
    + rewrite first_app, IH. simpl.
      destruct (first _ _); [done|]. by destruct (k prev (c :: s)).
    + by destruct (k prev (c :: s)).
Qed.

Lemma lazy_star_first {R} (ok : ascii → bool)
    (k : option ascii → list ascii → option R) (s : list ascii) : ∀ prev,
  lazy_star ok prev s k = first (λ ps, k ps.1 ps.2) (lazy_outs ok prev s).
Proof.
  induction s as [|c s IH]; intros prev; simpl.
  - by destruct (k prev []).
  - destruct (k prev (c :: s)); [done|]. destruct (ok c); [apply IH | done].
Qed.

(** The matcher returns the first success of the list. *)
Theorem run_first {R} (f : flags) (r : regex) : ∀ prev s caps (k : cont R),
  run f r prev s caps k
  = first (λ st : state, k st.1.1 st.1.2 st.2) (outs f r prev s caps).
Proof.
  induction r as [|t|a|a|a|a|r IH|n name r IH|r1 IH1 r2 IH2| |];
    intros prev s caps k; simpl.
  - by destruct (k prev s caps).
  - destruct (strip_prefix _ prev s) as [[p' s']|]; simpl; [|done].
    by destruct (k p' s' caps).
  - destruct s as [|c s]; [done|]. destruct (accepts f a c); simpl; [|done].
    by destruct (k (Some c) s caps).
  - by rewrite star_first, first_fmap.
  - destruct s as [|c s]; [done|]. destruct (accepts f a c); [|done].
    by rewrite star_first, first_fmap.
  - by rewrite lazy_star_first, first_fmap.
  - rewrite first_app, IH. simpl.
    destruct (first _ _); [done|]. by destruct (k prev s caps).
  - by rewrite IH, first_fmap.
  - rewrite IH1, first_bind. apply first_ext. intros st. apply IH2.
  - destruct (at_bol f prev); simpl; [|done]. by destruct (k prev s caps).
  - destruct (at_eol f s); simpl; [|done]. by destruct (k prev s caps).
Qed.

(** One attempt returns the head of the list. *)
Lemma attempt_head (p : pattern) (prev : option ascii) (s : list ascii) :
  attempt p prev s
  = (λ st : state, (mk_match p st.2, st.1.2))
      <$> head (outs (fl p) (rx p) prev s ∅).
Proof. unfold attempt. by rewrite run_first, first_total. Qed.

(** ** What the list holds

    The elements of [outs], construct by construct: the text consumed [u],
    the text left, the character before it, and the groups. *)

(** The character before the position once [u] has been passed. *)
Definition after (prev : option ascii) (u : list ascii) : option ascii :=
  match list.last u with
  | Some c => Some c
  | None => prev
  end.

Lemma after_nil prev : after prev [] = prev.
Proof. done. Qed.

Lemma after_cons prev c u : after prev (c :: u) = after (Some c) u.
Proof.
  unfold after. destruct u as [|d u]; [done|].
  rewrite last_cons. by destruct (list.last (d :: u)).
Qed.

Lemma after_app prev u v : after prev (u ++ v) = after (after prev u) v.
Proof.
  revert prev. induction u as [|c u IH]; intros prev; [done|].
  by rewrite <- app_comm_cons, !after_cons, IH.
Qed.

Definition all_ok (ok : ascii → bool) (u : list ascii) : Prop :=
  Forall (λ c, ok c = true) u.

Lemma all_ok_nil (ok : ascii → bool) : all_ok ok [].
Proof. constructor. Qed.

Lemma all_ok_cons (ok : ascii → bool) (c : ascii) (u : list ascii) :
  all_ok ok (c :: u) ↔ ok c = true ∧ all_ok ok u.
Proof. unfold all_ok. by rewrite list.Forall_cons. Qed.

Lemma all_ok_app (ok : ascii → bool) (u v : list ascii) :
  all_ok ok (u ++ v) ↔ all_ok ok u ∧ all_ok ok v.
Proof. unfold all_ok. by rewrite list.Forall_app. Qed.

Lemma all_ok_impl (p q : ascii → bool) (u : list ascii) :
  (∀ c, p c = true → q c = true) → all_ok p u → all_ok q u.
Proof.
  intros H. induction u as [|c u IH]; [by constructor|].
  rewrite !all_ok_cons. intros [? ?]. auto.
Qed.

#[local] Hint Resolve all_ok_nil : core.

Lemma taken_app (u s : list ascii) : taken (u ++ s) s = string_of_list_ascii u.
Proof.
  unfold taken. rewrite length_app.
  replace (length u + length s - length s)%nat with (length u) by lia.
  by rewrite take_app_length.
Qed.

Lemma strip_prefix_Some (t : list ascii) : ∀ prev s ps,
  strip_prefix t prev s = Some ps ↔ s = t ++ ps.2 ∧ ps.1 = after prev t.
Proof.
  induction t as [|c t IH]; intros prev s [p' s']; simpl.
  - split; [by intros [= -> ->] | by intros [-> ->]].
  - destruct s as [|d s]; [by split; [|intros [? _]]|].
    rewrite after_cons. destruct (decide (c = d)) as [->|Hcd].
    + rewrite IH. simpl. split; [by intros [-> ->] | by intros [[= ->] ->]].
    + split; [done | by intros [[= ?] _]].
Qed.

Lemma elem_of_star_outs (ok : ascii → bool) (s : list ascii) : ∀ prev ps,
  ps ∈ star_outs ok prev s ↔
  ∃ u, s = u ++ ps.2 ∧ all_ok ok u ∧ ps.1 = after prev u.
Proof.
  induction s as [|c s IH]; intros prev [p' s']; simpl.
  - rewrite list_elem_of_singleton. split.
    + intros [= -> ->]. by exists [].
    + intros (u & Hu & _ & Hp). symmetry in Hu.
      apply app_eq_nil in Hu as [-> ->]. by rewrite Hp.
  - assert ((p', s') ∈ star_outs ok (Some c) s ++ [(prev, c :: s)] ↔
            (∃ u, s = u ++ s' ∧ all_ok ok u ∧ p' = after (Some c) u)
            ∨ (p' = prev ∧ s' = c :: s)) as Hin.
    { rewrite elem_of_app, list_elem_of_singleton, IH. simpl.
      split; (intros [H|H]; [by left | right]); [by injection H | by destruct H as [-> ->]]. }
    destruct (ok c) eqn:Hc.
    + rewrite Hin. split.
      * intros [(u & -> & Hu & ->) | [-> ->]].
        -- exists (c :: u). rewrite after_cons, all_ok_cons. done.
        -- by exists [].
      * intros ([|d u] & Hs & Hu & ->).
        -- right. simpl in Hs. by subst.
        -- left. injection Hs as <- ->. apply all_ok_cons in Hu as [_ Hu].
           exists u. by rewrite after_cons.
    + rewrite list_elem_of_singleton. split.
      * intros [= -> ->]. by exists [].
      * intros ([|d u] & Hs & Hu & ->); [simpl in Hs; by subst|].
        injection Hs as <- ->. apply all_ok_cons in Hu as [Hd _]. congruence.
Qed.

Lemma elem_of_lazy_outs (ok : ascii → bool) (s : list ascii) : ∀ prev ps,
  ps ∈ lazy_outs ok prev s ↔
  ∃ u, s = u ++ ps.2 ∧ all_ok ok u ∧ ps.1 = after prev u.
Proof.
  induction s as [|c s IH]; intros prev [p' s']; simpl.
  - rewrite list_elem_of_singleton. split.
    + intros [= -> ->]. by exists [].
    + intros (u & Hu & _ & Hp). symmetry in Hu.
      apply app_eq_nil in Hu as [-> ->]. by rewrite Hp.
  - rewrite elem_of_cons. split.
    + intros [[= -> ->] | H]; [by exists []|].
      destruct (ok c) eqn:Hc; [|by apply elem_of_nil in H].
      apply IH in H as (u & Hs & Hu & Hp). simpl in *. subst.
      exists (c :: u). rewrite after_cons, all_ok_cons. done.
    + intros ([|d u] & Hs & Hu & ->); simpl in Hs.
      * left. by subst.
      * right. injection Hs as <- ->. apply all_ok_cons in Hu as [Hc Hu].
        rewrite Hc. apply IH. exists u. by rewrite after_cons.
Qed.

Section Elements.

Variable f : flags.

Implicit Types (st : state) (r : regex).

Lemma elem_of_outs_empty prev s caps st :
  st ∈ outs f Empty prev s caps ↔ st = (prev, s, caps).
Proof. apply list_elem_of_singleton. Qed.

Lemma elem_of_outs_text t prev s caps st :
  st ∈ outs f (Text t) prev s caps ↔
  s = list_ascii_of_string t ++ st.1.2
  ∧ st.1.1 = after prev (list_ascii_of_string t) ∧ st.2 = caps.
Proof.
  simpl. destruct st as [[p' s'] caps'].
  destruct (strip_prefix _ prev s) as [ps|] eqn:H.
  - rewrite list_elem_of_singleton. apply strip_prefix_Some in H as [-> Hp].
    destruct ps as [p1 s1]. simpl in *. subst. split.
    + by intros [= -> -> ->].
    + by intros (->%app_inv_head & -> & ->).
  - split; [by intros ?%elem_of_nil|]. intros (Hs & Hp & _). simpl in *.
    assert (strip_prefix (list_ascii_of_string t) prev s = Some (p', s')) as H'
      by (by apply strip_prefix_Some).
    congruence.
Qed.

Lemma elem_of_outs_one a prev s caps st :
  st ∈ outs f (One a) prev s caps ↔
  ∃ c, s = c :: st.1.2 ∧ accepts f a c = true ∧ st.1.1 = Some c ∧ st.2 = caps.
Proof.
  simpl. destruct st as [[p' s'] caps']. simpl.
  destruct s as [|c s].
  - split; [by intros ?%elem_of_nil | by intros (? & ? & _)].
  - destruct (accepts f a c) eqn:Hc.
    + rewrite list_elem_of_singleton. split.
      * intros [= -> -> ->]. by exists c.
      * by intros (d & [= -> ->] & _ & -> & ->).
    + split; [by intros ?%elem_of_nil|].
      intros (d & [= -> ->] & ? & _). congruence.
Qed.

Lemma elem_of_with_caps caps st (l : list (option ascii * list ascii)) :
  st ∈ with_caps caps <$> l ↔ (st.1.1, st.1.2) ∈ l ∧ st.2 = caps.
Proof.
  rewrite list_elem_of_fmap. destruct st as [[p' s'] caps']. simpl. split.
  - by intros ([p s] & [= -> -> ->] & H).
  - intros [H ->]. by exists (p', s').
Qed.

Lemma elem_of_outs_star a prev s caps st :
  st ∈ outs f (Star a) prev s caps ↔
  ∃ u, s = u ++ st.1.2 ∧ all_ok (accepts f a) u
       ∧ st.1.1 = after prev u ∧ st.2 = caps.
Proof.
  simpl. rewrite elem_of_with_caps, elem_of_star_outs. simpl. naive_solver.
Qed.

Lemma elem_of_outs_lazy a prev s caps st :
  st ∈ outs f (LazyStar a) prev s caps ↔
  ∃ u, s = u ++ st.1.2 ∧ all_ok (accepts f a) u
       ∧ st.1.1 = after prev u ∧ st.2 = caps.
Proof.
  simpl. rewrite elem_of_with_caps, elem_of_lazy_outs. simpl. naive_solver.
Qed.

Lemma elem_of_outs_plus a prev s caps st :
  st ∈ outs f (Plus a) prev s caps ↔
  ∃ u, u ≠ [] ∧ s = u ++ st.1.2 ∧ all_ok (accepts f a) u
       ∧ st.1.1 = after prev u ∧ st.2 = caps.
Proof.
  simpl. destruct s as [|c s].
  - split; [by intros ?%elem_of_nil|].
    intros (u & Hu & Hs & _). symmetry in Hs. by apply app_eq_nil in Hs as [-> _].
  - destruct (accepts f a c) eqn:Hc.
    + rewrite elem_of_with_caps, elem_of_star_outs. simpl. split.
      * intros [(u & -> & Hu & ->) ->]. exists (c :: u).
        rewrite after_cons. repeat split; [done|]. by constructor.
      * intros ([|d u] & Hne & Hs & Hu & -> & ->); [done|].
        injection Hs as <- ->. inversion Hu; subst. split; [|done].
        exists u. by rewrite after_cons.
    + split; [by intros ?%elem_of_nil|].
      intros ([|d u] & Hne & Hs & Hu & _); [done|].
      injection Hs as <- ->. inversion Hu; congruence.
Qed.

Lemma elem_of_outs_opt r prev s caps st :
  st ∈ outs f (Opt r) prev s caps ↔
  st ∈ outs f r prev s caps ∨ st = (prev, s, caps).
Proof. simpl. by rewrite elem_of_app, list_elem_of_singleton. Qed.

Lemma elem_of_outs_group n name r prev s caps st :
  st ∈ outs f (Group n name r) prev s caps ↔
  ∃ st0, st0 ∈ outs f r prev s caps
         ∧ st = (st0.1.1, st0.1.2, <[n := taken s st0.1.2]> st0.2).
Proof. simpl. rewrite list_elem_of_fmap. naive_solver. Qed.

Lemma elem_of_outs_seq r1 r2 prev s caps st :
  st ∈ outs f (Seq r1 r2) prev s caps ↔
  ∃ mid, mid ∈ outs f r1 prev s caps ∧ st ∈ outs f r2 mid.1.1 mid.1.2 mid.2.
Proof. simpl. rewrite list_elem_of_bind. naive_solver. Qed.

Lemma elem_of_outs_bol prev s caps st :
  st ∈ outs f Bol prev s caps ↔ at_bol f prev = true ∧ st = (prev, s, caps).
Proof.
  simpl. destruct (at_bol f prev).
  - rewrite list_elem_of_singleton. naive_solver.
  - split; [by intros ?%elem_of_nil | by intros [? _]].
Qed.

Lemma elem_of_outs_eol prev s caps st :
  st ∈ outs f Eol prev s caps ↔ at_eol f s = true ∧ st = (prev, s, caps).
Proof.
  simpl. destruct (at_eol f s).
  - rewrite list_elem_of_singleton. naive_solver.
  - split; [by intros ?%elem_of_nil | by intros [? _]].
Qed.

End Elements.

(** Every element leaves a suffix of the text. *)
Lemma outs_suffix (f : flags) (r : regex) : ∀ prev s caps st,
  st ∈ outs f r prev s caps → ∃ u, s = u ++ st.1.2.
Proof.
  induction r as [|t|a|a|a|a|r IH|n name r IH|r1 IH1 r2 IH2| |];
    intros prev s caps st.
  - intros ->%elem_of_outs_empty. by exists [].
  - intros (-> & _)%elem_of_outs_text. by eexists.
  - intros (c & -> & _)%elem_of_outs_one. by exists [c].
  - intros (u & -> & _)%elem_of_outs_star. by exists u.
  - intros (u & _ & -> & _)%elem_of_outs_plus. by exists u.
  - intros (u & -> & _)%elem_of_outs_lazy. by exists u.
  - intros [H | ->]%elem_of_outs_opt; [by eapply IH | by exists []].
  - intros (st0 & H & ->)%elem_of_outs_group. simpl. by eapply IH.
  - intros (mid & H1 & H2)%elem_of_outs_seq.
    apply IH1 in H1 as [u1 ->]. apply IH2 in H2 as [u2 ->].
    exists (u1 ++ u2). by rewrite app_assoc.
  - intros [_ ->]%elem_of_outs_bol. by exists [].
  - intros [_ ->]%elem_of_outs_eol. by exists [].
Qed.

(** ** Building an element

    [consumes f r prev u caps caps']: at a position after [prev], [r] can
    match exactly the text [u], whatever follows, and turn the groups [caps]
    into [caps']. *)
Definition consumes (f : flags) (r : regex) (prev : option ascii) (u : list ascii)
    (caps caps' : captures) : Prop :=
  ∀ rest, (after prev u, rest, caps') ∈ outs f r prev (u ++ rest) caps.

Section Consumes.

Variable f : flags.

Lemma consumes_empty prev caps : consumes f Empty prev [] caps caps.
Proof. intros rest. by apply elem_of_outs_empty. Qed.

Lemma consumes_text t prev caps :
  consumes f (Text t) prev (list_ascii_of_string t) caps caps.
Proof. intros rest. by apply elem_of_outs_text. Qed.

Lemma consumes_one a c prev caps :
  accepts f a c = true → consumes f (One a) prev [c] caps caps.
Proof. intros Hc rest. apply elem_of_outs_one. by exists c. Qed.

Lemma consumes_star a u prev caps :
  all_ok (accepts f a) u → consumes f (Star a) prev u caps caps.
Proof. intros Hu rest. apply elem_of_outs_star. by exists u. Qed.

Lemma consumes_lazy a u prev caps :
  all_ok (accepts f a) u → consumes f (LazyStar a) prev u caps caps.
Proof. intros Hu rest. apply elem_of_outs_lazy. by exists u. Qed.

Lemma consumes_plus a u prev caps :
  u ≠ [] → all_ok (accepts f a) u → consumes f (Plus a) prev u caps caps.
Proof. intros Hne Hu rest. apply elem_of_outs_plus. by exists u. Qed.

Lemma consumes_opt_skip r prev caps : consumes f (Opt r) prev [] caps caps.
Proof. intros rest. apply elem_of_outs_opt. by right. Qed.

Lemma consumes_opt r u prev caps caps' :
  consumes f r prev u caps caps' → consumes f (Opt r) prev u caps caps'.
Proof. intros H rest. apply elem_of_outs_opt. left. apply H. Qed.

Lemma consumes_group n name r u prev caps caps' :
  consumes f r prev u caps caps' →
  consumes f (Group n name r) prev u caps (<[n := string_of_list_ascii u]> caps').
Proof.
  intros H rest. apply elem_of_outs_group.
  exists (after prev u, rest, caps'). split; [apply H|].
  simpl. by rewrite taken_app.
Qed.

Lemma consumes_seq r1 r2 u1 u2 prev caps caps1 caps2 :
  consumes f r1 prev u1 caps caps1 →
  consumes f r2 (after prev u1) u2 caps1 caps2 →
  consumes f (Seq r1 r2) prev (u1 ++ u2) caps caps2.
Proof.
  intros H1 H2 rest. apply elem_of_outs_seq.
  exists (after prev u1, u2 ++ rest, caps1). split.
  - rewrite <- app_assoc. apply H1.
  - simpl. rewrite after_app. apply H2.
Qed.

Lemma consumes_bol prev caps :
  at_bol f prev = true → consumes f Bol prev [] caps caps.
Proof. intros H rest. by apply elem_of_outs_bol. Qed.

End Consumes.

(** A sequence split in two. *)
Lemma elem_of_outs_seq_app (f : flags) (l1 l2 : list regex) : ∀ prev s caps st,
  st ∈ outs f (seq (l1 ++ l2)) prev s caps ↔
  ∃ mid, mid ∈ outs f (seq l1) prev s caps
         ∧ st ∈ outs f (seq l2) mid.1.1 mid.1.2 mid.2.
Proof.
  induction l1 as [|r l1 IH]; intros prev s caps st.
  - simpl. split.
    + intros H. exists (prev, s, caps). split; [by apply list_elem_of_singleton | done].
    + by intros (mid & ->%list_elem_of_singleton & H).
  - change (seq ((r :: l1) ++ l2)) with (Seq r (seq (l1 ++ l2))).
    change (seq (r :: l1)) with (Seq r (seq l1)).
    rewrite elem_of_outs_seq. setoid_rewrite elem_of_outs_seq.
    setoid_rewrite IH. naive_solver.
Qed.

(** ** Taking a membership apart *)

Ltac outs_step :=
  match goal with
  | H : _ ∈ outs _ (seq _) _ _ _ |- _ =>
      progress (unfold seq in H; cbn [foldr] in H)
  | H : _ ∈ outs _ (Seq _ _) _ _ _ |- _ =>
      apply elem_of_outs_seq in H as ([[? ?] ?] & ? & ?)
  | H : _ ∈ outs _ Empty _ _ _ |- _ => apply elem_of_outs_empty in H
  | H : _ ∈ outs _ (Text _) _ _ _ |- _ =>
      apply elem_of_outs_text in H as (? & ? & ?)
  | H : _ ∈ outs _ (One _) _ _ _ |- _ =>
      apply elem_of_outs_one in H as (? & ? & ? & ? & ?)
  | H : _ ∈ outs _ (Star _) _ _ _ |- _ =>
      apply elem_of_outs_star in H as (? & ? & ? & ? & ?)
  | H : _ ∈ outs _ (LazyStar _) _ _ _ |- _ =>
      apply elem_of_outs_lazy in H as (? & ? & ? & ? & ?)
  | H : _ ∈ outs _ (Plus _) _ _ _ |- _ =>
      apply elem_of_outs_plus in H as (? & ? & ? & ? & ? & ?)
  | H : _ ∈ outs _ (Group _ _ _) _ _ _ |- _ =>
      apply elem_of_outs_group in H as ([[? ?] ?] & ? & ?)
  | H : _ ∈ outs _ Bol _ _ _ |- _ => apply elem_of_outs_bol in H as (? & ?)
  | H : _ ∈ outs _ Eol _ _ _ |- _ => apply elem_of_outs_eol in H as (? & ?)
  | H : (_, _, _) = (_, _, _) |- _ => injection H as ? ? ?
  end; cbn [fst snd] in *.

Ltac outs_inv := repeat outs_step.

(** Two texts equal up to the bracketing of their pieces. *)
Ltac same_text :=
  repeat first [progress simpl | rewrite <- app_assoc | rewrite app_nil_r];
  reflexivity.

(** ** Runs of a class *)

(** [v] does not go on with a character of the class. *)
Definition stops (ok : ascii → bool) (v : list ascii) : Prop :=
  match v with
  | [] => True
  | c :: _ => ok c = false
  end.

Lemma span_unique (ok : ascii → bool) (u : list ascii) : ∀ u' v v',
  all_ok ok u → all_ok ok u' → stops ok v → stops ok v' →
  u ++ v = u' ++ v' → u = u' ∧ v = v'.
Proof.
  induction u as [|c u IH]; intros [|c' u'] v v' Hu Hu' Hv Hv' Heq;
    simpl in Heq.
  - done.
  - subst v. apply all_ok_cons in Hu' as [Hc _]. simpl in Hv. congruence.
  - subst v'. apply all_ok_cons in Hu as [Hc _]. simpl in Hv'. congruence.
  - injection Heq as <- Heq.
    apply all_ok_cons in Hu as [_ Hu]. apply all_ok_cons in Hu' as [_ Hu'].
    by destruct (IH u' v v') as [-> ->].
Qed.

(** ** The start of a stream line

    What [audio_info] and [subtitle_info] share:
    [^\s+Stream #0:(?P<stream>\d+)(\((?P<lang>\w+)\))?]. *)

Definition stream_head : list regex :=
  [Bol; Plus Space; Text "Stream #0:"; Group 1 (Some "stream") (Plus Digit);
   Opt (Group 2 None (seq [Text "("; Group 3 (Some "lang") (Plus Word); Text ")"]))].

Definition tag_chars (tag : option (list ascii)) : list ascii :=
  match tag with
  | Some w => "("%char :: w ++ [")"%char]
  | None => []
  end.

Definition head_caps (idx : list ascii) (tag : option (list ascii)) : captures :=
  match tag with
  | Some w =>
      <[2%nat := string_of_list_ascii (tag_chars tag)]>
        (<[3%nat := string_of_list_ascii w]>
           (<[1%nat := string_of_list_ascii idx]> ∅))
  | None => <[1%nat := string_of_list_ascii idx]> ∅
  end.

(** The pieces of a start of a stream line. *)
Record head_ok (ws idx : list ascii) (tag : option (list ascii)) : Prop := {
  ws_ne : ws ≠ [];
  ws_space : all_ok Char.is_space ws;
  idx_ne : idx ≠ [];
  idx_digits : all_ok Char.is_decimal idx;
  tag_word : ∀ w, tag = Some w → w ≠ [] ∧ all_ok Char.is_word w
}.

Definition stream_text (ws idx : list ascii) (tag : option (list ascii)) : list ascii :=
  ws ++ list_ascii_of_string "Stream #0:" ++ idx ++ tag_chars tag.

Lemma taken_tag (w r : list ascii) :
  taken (list_ascii_of_string "(" ++ w ++ list_ascii_of_string ")" ++ r) r
  = string_of_list_ascii (tag_chars (Some w)).
Proof.
  replace (list_ascii_of_string "(" ++ w ++ list_ascii_of_string ")" ++ r)
    with (tag_chars (Some w) ++ r) by same_text.
  apply taken_app.
Qed.

Lemma stream_head_sound (f : flags) prev s st :
  st ∈ outs f (seq stream_head) prev s ∅ →
  ∃ ws idx tag,
    s = stream_text ws idx tag ++ st.1.2
    ∧ at_bol f prev = true ∧ head_ok ws idx tag ∧ st.2 = head_caps idx tag.
Proof.
  intros H. unfold stream_head in H. destruct st as [[p' s'] caps'].
  outs_inv. subst.
  match goal with H : _ ∈ outs _ (Opt _) _ _ _ |- _ =>
    apply elem_of_outs_opt in H as [H | H] end.
  - outs_inv. subst.
    match goal with
    | Hws : all_ok (accepts f Space) ?ws, Hidx : all_ok (accepts f Digit) ?idx,
      Hw : all_ok (accepts f Word) ?w |- _ =>
        exists ws, idx, (Some w)
    end.
    split; [|split; [done|split]].
    + unfold stream_text, tag_chars. same_text.
    + split; try done. by intros ? [= <-].
    + cbn [fst snd head_caps]. by rewrite !taken_app, taken_tag.
  - outs_inv. subst.
    match goal with
    | Hws : all_ok (accepts f Space) ?ws, Hidx : all_ok (accepts f Digit) ?idx |- _ =>
        exists ws, idx, None
    end.
    split; [|split; [done|split]].
    + unfold stream_text, tag_chars. same_text.
    + by split.
    + cbn [fst snd head_caps]. by rewrite !taken_app.
Qed.

Lemma stream_head_complete (f : flags) prev ws idx tag :
  at_bol f prev = true → head_ok ws idx tag →
  consumes f (seq stream_head) prev (stream_text ws idx tag) ∅ (head_caps idx tag).
Proof.
  intros Hbol [Hws1 Hws2 Hidx1 Hidx2 Htag].
  replace (stream_text ws idx tag)
    with ([] ++ ws ++ list_ascii_of_string "Stream #0:" ++ idx ++ tag_chars tag ++ [])
    by (unfold stream_text; same_text).
  unfold stream_head, seq. cbn [foldr].
  eapply consumes_seq; [by apply consumes_bol|].
  eapply consumes_seq; [by apply consumes_plus|].
  eapply consumes_seq; [by apply consumes_text|].
  eapply consumes_seq; [by apply consumes_group, consumes_plus|].
  eapply consumes_seq; [|apply consumes_empty].
  destruct tag as [w|]; cbn [tag_chars head_caps].
  - destruct (Htag w eq_refl) as [Hw1 Hw2].
    apply consumes_opt.
    replace ("("%char :: w ++ [")"%char])
      with (list_ascii_of_string "(" ++ w ++ list_ascii_of_string ")" ++ [])
      by same_text.
    replace (string_of_list_ascii ("("%char :: w ++ [")"%char]))
      with (string_of_list_ascii
              (list_ascii_of_string "(" ++ w ++ list_ascii_of_string ")" ++ []))
      by (f_equal; same_text).
    apply consumes_group.
    eapply consumes_seq; [by apply consumes_text|].
    eapply consumes_seq; [by apply consumes_group, consumes_plus|].
    eapply consumes_seq; [by apply consumes_text | apply consumes_empty].
  - apply consumes_opt_skip.
Qed.

Definition starts_with (c : ascii) (v : list ascii) : Prop := ∃ v', v = c :: v'.

Lemma stream_text_inj ws idx tag X ws' idx' tag' Y :
  head_ok ws idx tag → head_ok ws' idx' tag' →
  starts_with ":" X → starts_with ":" Y →
  stream_text ws idx tag ++ X = stream_text ws' idx' tag' ++ Y →
  ws = ws' ∧ idx = idx' ∧ tag = tag' ∧ X = Y.
Proof.
  intros [Hws1 Hws2 Hidx1 Hidx2 Htag] [Hws1' Hws2' Hidx1' Hidx2' Htag']
    [X' ->] [Y' ->].
  unfold stream_text. rewrite <- !app_assoc. intros Heq.
  apply (span_unique Char.is_space) in Heq as [-> Heq]; [|done..].
  apply app_inv_head in Heq.
  apply (span_unique Char.is_decimal) in Heq as [-> Heq]; [|done| done|..].
  2,3: by destruct tag, tag'.
  destruct tag as [w|], tag' as [w'|]; simpl in Heq; try done.
  injection Heq as Heq. rewrite <- !app_assoc in Heq.
  destruct (Htag w eq_refl) as [_ Hw].
  destruct (Htag' w' eq_refl) as [_ Hw'].
  apply (span_unique Char.is_word) in Heq as [-> Heq]; [|done..].
  by injection Heq as ->.
Qed.

(** ** The patterns for audio and subtitle streams *)

Definition audio_tail : list regex :=
  [Text ": Audio: "; Group 4 (Some "format") (Plus Word); LazyStar Any;
   Opt (Group 5 (Some "default") (Text "(default)")); Eol].

Definition subtitle_tail : list regex := [Text ": Subtitle:"].

Lemma audio_info_split : rx audio_info = seq (stream_head ++ audio_tail).
Proof. reflexivity. Qed.

Lemma subtitle_info_split : rx subtitle_info = seq (stream_head ++ subtitle_tail).
Proof. reflexivity. Qed.

(** Not the newline. *)
Definition inline (c : ascii) : bool := negb (bool_decide (c = newline)).

Lemma word_char_inline (c : ascii) : Char.is_word c = true → inline c = true.
Proof.
  intros Hc. unfold inline. rewrite bool_decide_eq_false_2; [done|]. by intros ->.
Qed.

Lemma word_inline (u : list ascii) : all_ok Char.is_word u → all_ok inline u.
Proof. apply all_ok_impl, word_char_inline. Qed.

Definition multiline : flags := Flags false true.

(** The groups an audio match adds to those of the start of the line. *)
Definition audio_caps (fmt : list ascii) (dflt : bool) (caps : captures) : captures :=
  let caps := <[4%nat := string_of_list_ascii fmt]> caps in
  if dflt then <[5%nat := "(default)"]> caps else caps.

Lemma audio_tail_sound prev s caps st :
  st ∈ outs multiline (seq audio_tail) prev s caps →
  ∃ c u fmt dflt,
    s = list_ascii_of_string ": Audio: " ++ (c :: u) ++ st.1.2
    ∧ Char.is_word c = true ∧ all_ok inline (c :: u)
    ∧ at_eol multiline st.1.2 = true
    ∧ st.2 = audio_caps fmt dflt caps.
Proof.
  intros H. unfold audio_tail in H. destruct st as [[p' s'] caps'].
  outs_inv. subst.
  match goal with H : _ ∈ outs _ (Opt _) _ _ _ |- _ =>
    apply elem_of_outs_opt in H as [H | H] end; outs_inv; subst.
  - match goal with
    | Hne : ?w ≠ [], Hw : all_ok (accepts _ Word) ?w,
      Hany : all_ok (accepts _ Any) ?any |- _ =>
        destruct w as [|c w]; [done|];
        exists c, (w ++ any ++ list_ascii_of_string "(default)"), (c :: w), true;
        apply all_ok_cons in Hw as [Hc Hw]
    end.
    repeat split; try done.
    + same_text.
    + rewrite app_comm_cons, !all_ok_app. repeat split.
      * apply word_inline. by apply all_ok_cons.
      * done.
      * by repeat constructor.
    + unfold audio_caps. by rewrite !taken_app.
  - match goal with
    | Hne : ?w ≠ [], Hw : all_ok (accepts _ Word) ?w,
      Hany : all_ok (accepts _ Any) ?any |- _ =>
        destruct w as [|c w]; [done|];
        exists c, (w ++ any), (c :: w), false;
        apply all_ok_cons in Hw as [Hc Hw]
    end.
    repeat split; try done.
    + same_text.
    + rewrite app_comm_cons, !all_ok_app. split; [|done].
      apply word_inline. by apply all_ok_cons.
    + unfold audio_caps. by rewrite !taken_app.
Qed.

Lemma audio_tail_complete prev c u rest caps :
  Char.is_word c = true → all_ok inline u → at_eol multiline rest = true →
  ∃ st, st ∈ outs multiline (seq audio_tail) prev
               (list_ascii_of_string ": Audio: " ++ (c :: u) ++ rest) caps
        ∧ st.1.2 = rest.
Proof.
  intros Hc Hu Hrest.
  assert (consumes multiline
            (seq [Text ": Audio: "; Group 4 (Some "format") (Plus Word);
                  LazyStar Any; Opt (Group 5 (Some "default") (Text "(default)"))])
            prev (list_ascii_of_string ": Audio: " ++ [c] ++ u ++ [] ++ [])
            caps (<[4%nat := string_of_list_ascii [c]]> caps)) as Hcons.
  { unfold seq. cbn [foldr].
    eapply consumes_seq; [by apply consumes_text|].
    eapply consumes_seq.
    { apply consumes_group, consumes_plus; [done|]. by apply all_ok_cons. }
    eapply consumes_seq; [by apply consumes_lazy|].
    eapply consumes_seq; [apply consumes_opt_skip | apply consumes_empty]. }
  eexists. split.
  - apply (elem_of_outs_seq_app multiline
             [Text ": Audio: "; Group 4 (Some "format") (Plus Word); LazyStar Any;
              Opt (Group 5 (Some "default") (Text "(default)"))] [Eol]).
    eexists. split.
    + replace (list_ascii_of_string ": Audio: " ++ (c :: u) ++ rest)
        with ((list_ascii_of_string ": Audio: " ++ [c] ++ u ++ [] ++ []) ++ rest)
        by same_text.
      apply Hcons.
    + cbn [fst snd]. unfold seq. cbn [foldr].
      apply elem_of_outs_seq. eexists. split.
      * by apply elem_of_outs_eol.
      * by apply elem_of_outs_empty.
  - done.
Qed.

Lemma subtitle_tail_sound prev s caps st :
  st ∈ outs multiline (seq subtitle_tail) prev s caps →
  s = list_ascii_of_string ": Subtitle:" ++ st.1.2 ∧ st.2 = caps.
Proof.
  intros H. unfold subtitle_tail in H. destruct st as [[p' s'] caps'].
  outs_inv. by subst.
Qed.

Lemma subtitle_tail_complete prev caps :
  consumes multiline (seq subtitle_tail) prev
    (list_ascii_of_string ": Subtitle:") caps caps.
Proof.
  replace (list_ascii_of_string ": Subtitle:")
    with (list_ascii_of_string ": Subtitle:" ++ []) by same_text.
  unfold subtitle_tail, seq. cbn [foldr].
  eapply consumes_seq; [apply consumes_text | apply consumes_empty].
Qed.

(** ** One attempt on one line *)

(** The end of a line: the end of the text, or a newline. *)
Definition eol (v : list ascii) : Prop := at_eol multiline v = true.

Lemma eol_stops v : eol v → stops inline v.
Proof.
  destruct v as [|c v]; [done|]. unfold eol, inline. simpl.
  rewrite andb_true_r. by intros ->.
Qed.

Lemma eol_newline v : eol (newline :: v).
Proof. done. Qed.

(** A text without newline that starts what is left of a line starts the
    line. *)
Lemma inline_prefix (t : list ascii) : ∀ r body following,
  all_ok inline t → eol following →
  t ++ r = body ++ following → ∃ body', body = t ++ body'.
Proof.
  induction t as [|c t IH]; intros r body following Ht Hf Heq.
  - by exists body.
  - apply all_ok_cons in Ht as [Hc Ht].
    destruct body as [|d body]; simpl in Heq.
    + subst following. apply eol_stops in Hf. simpl in Hf. congruence.
    + injection Heq as <- Heq.
      destruct (IH r body following) as [body' ->]; [done..|].
      by exists body'.
Qed.

Definition audio_body (body : list ascii) : Prop :=
  ∃ c u, body = list_ascii_of_string "Audio: " ++ c :: u ∧ Char.is_word c = true.

Definition subtitle_body (body : list ascii) : Prop :=
  ∃ u, body = list_ascii_of_string "Subtitle:" ++ u.

(** The text of a stream line: its start, a colon and a blank, its body. *)
Definition stream_line (ws idx : list ascii) (tag : option (list ascii))
    (body : list ascii) : list ascii :=
  stream_text ws idx tag ++ list_ascii_of_string ": " ++ body.

Lemma head_nonempty {A} (l : list A) (x : A) : x ∈ l → ∃ y, head l = Some y ∧ y ∈ l.
Proof.
  destruct l as [|y l]; [by intros ?%elem_of_nil|].
  intros _. exists y. split; [done | by left].
Qed.

Lemma head_empty {A} (l : list A) : (∀ x, x ∉ l) → head l = None.
Proof.
  destruct l as [|y l]; [done|]. intros H. destruct (H y). by left.
Qed.

Section OneLine.

Variables (prev : option ascii) (ws idx : list ascii) (tag : option (list ascii)).
Variables (body following : list ascii).
Hypothesis Hbol : at_bol multiline prev = true.
Hypothesis Hhead : head_ok ws idx tag.
Hypothesis Hbody : all_ok inline body.
Hypothesis Hfollowing : eol following.

Lemma audio_hit :
  audio_body body →
  ∃ st, head (outs multiline (rx audio_info) prev
                (stream_line ws idx tag body ++ following) ∅) = Some st
        ∧ st.1.2 = following
        ∧ ∃ fmt dflt, st.2 = audio_caps fmt dflt (head_caps idx tag).
Proof.
  intros (c & u & -> & Hc).
  assert (stream_line ws idx tag (list_ascii_of_string "Audio: " ++ c :: u)
          ++ following
          = stream_text ws idx tag
            ++ list_ascii_of_string ": Audio: " ++ (c :: u) ++ following) as Htext
    by (unfold stream_line; same_text).
  assert (all_ok inline u) as Hu.
  { apply all_ok_app in Hbody as [_ H]. by apply all_ok_cons in H as [_ H]. }
  rewrite Htext, audio_info_split.
  destruct (audio_tail_complete (after prev (stream_text ws idx tag)) c u
              following (head_caps idx tag)) as (st0 & Hst0 & _); [done..|].
  destruct (head_nonempty
              (outs multiline (seq (stream_head ++ audio_tail)) prev
                 (stream_text ws idx tag
                  ++ list_ascii_of_string ": Audio: " ++ (c :: u) ++ following) ∅)
              st0) as (st & Hst & Hin).
  { apply elem_of_outs_seq_app.
    exists (after prev (stream_text ws idx tag),
            list_ascii_of_string ": Audio: " ++ (c :: u) ++ following,
            head_caps idx tag).
    split; [by apply stream_head_complete | apply Hst0]. }
  exists st. split; [done|].
  apply elem_of_outs_seq_app in Hin as ([[p1 s1] caps1] & H1 & H2).
  apply stream_head_sound in H1 as (ws' & idx' & tag' & Hs & _ & Hok & Hcaps).
  apply audio_tail_sound in H2 as (c' & u' & fmt & dflt & Hs1 & Hc' & Hu' & Heol & Hcaps').
  cbn [fst snd] in *. subst s1 caps1.
  apply stream_text_inj in Hs as (-> & -> & -> & Hs); [|done|done|by eexists..].
  apply app_inv_head in Hs.
  apply (span_unique inline) in Hs as [_ Hs].
  - split; [done|]. by exists fmt, dflt.
  - apply all_ok_cons. split; [by apply word_char_inline | done].
  - done.
  - by apply eol_stops.
  - by apply eol_stops.
Qed.

Lemma audio_miss_stream :
  ¬ audio_body body →
  head (outs multiline (rx audio_info) prev
          (stream_line ws idx tag body ++ following) ∅) = None.
Proof.
  intros Hnot. apply head_empty. intros st Hin.
  rewrite audio_info_split in Hin.
  apply elem_of_outs_seq_app in Hin as ([[p1 s1] caps1] & H1 & H2).
  apply stream_head_sound in H1 as (ws' & idx' & tag' & Hs & _ & Hok & Hcaps).
  apply audio_tail_sound in H2 as (c' & u' & fmt & dflt & Hs1 & Hc' & Hu' & Heol & Hcaps').
  cbn [fst snd] in *. subst s1 caps1.
  unfold stream_line in Hs. rewrite <- !app_assoc in Hs.
  apply stream_text_inj in Hs as (_ & _ & _ & Hs); [|done|done|by eexists..].
  injection Hs as Hs.
  apply (inline_prefix (list_ascii_of_string "Audio: " ++ [c'])
           (u' ++ st.1.2) body following) in Hfollowing as [body' ->].
  - apply Hnot. exists c', body'. split; [same_text | done].
  - apply all_ok_app. split; [by repeat constructor|].
    apply all_ok_cons in Hu' as [? _]. by repeat constructor.
  - rewrite Hs. same_text.
Qed.

Lemma subtitle_hit :
  subtitle_body body →
  ∃ st u, head (outs multiline (rx subtitle_info) prev
                  (stream_line ws idx tag body ++ following) ∅) = Some st
          ∧ body = list_ascii_of_string "Subtitle:" ++ u
          ∧ st.1.2 = u ++ following
          ∧ st.2 = head_caps idx tag.
Proof.
  intros (u & ->).
  assert (stream_line ws idx tag (list_ascii_of_string "Subtitle:" ++ u)
          ++ following
          = stream_text ws idx tag
            ++ list_ascii_of_string ": Subtitle:" ++ u ++ following) as Htext
    by (unfold stream_line; same_text).
  rewrite Htext, subtitle_info_split.
  destruct (head_nonempty
              (outs multiline (seq (stream_head ++ subtitle_tail)) prev
                 (stream_text ws idx tag
                  ++ list_ascii_of_string ": Subtitle:" ++ u ++ following) ∅)
              (after (after prev (stream_text ws idx tag))
                 (list_ascii_of_string ": Subtitle:"),
               u ++ following, head_caps idx tag)) as (st & Hst & Hin).
  { apply elem_of_outs_seq_app.
    exists (after prev (stream_text ws idx tag),
            list_ascii_of_string ": Subtitle:" ++ u ++ following,
            head_caps idx tag).
    split; [by apply stream_head_complete | apply subtitle_tail_complete]. }
  exists st, u. split; [done|]. split; [done|].
  apply elem_of_outs_seq_app in Hin as ([[p1 s1] caps1] & H1 & H2).
  apply stream_head_sound in H1 as (ws' & idx' & tag' & Hs & _ & Hok & Hcaps).
  apply subtitle_tail_sound in H2 as [Hs1 Hcaps'].
  cbn [fst snd] in *. subst s1 caps1.
  apply stream_text_inj in Hs as (-> & -> & -> & Hs); [|done|done|by eexists..].
  apply app_inv_head in Hs. by split.
Qed.

Lemma subtitle_miss_stream :
  ¬ subtitle_body body →
  head (outs multiline (rx subtitle_info) prev
          (stream_line ws idx tag body ++ following) ∅) = None.
Proof.
  intros Hnot. apply head_empty. intros st Hin.
  rewrite subtitle_info_split in Hin.
  apply elem_of_outs_seq_app in Hin as ([[p1 s1] caps1] & H1 & H2).
  apply stream_head_sound in H1 as (ws' & idx' & tag' & Hs & _ & Hok & Hcaps).
  apply subtitle_tail_sound in H2 as [Hs1 Hcaps'].
  cbn [fst snd] in *. subst s1 caps1.
  unfold stream_line in Hs. rewrite <- !app_assoc in Hs.
  apply stream_text_inj in Hs as (_ & _ & _ & Hs); [|done|done|by eexists..].
  injection Hs as Hs.
  apply (inline_prefix (list_ascii_of_string "Subtitle:") st.1.2 body following)
    in Hfollowing as [body' ->]; [|by repeat constructor | done].
  apply Hnot. by exists body'.
Qed.

End OneLine.

(** A line that is not a stream line: after its blanks comes a character
    that does not start the text [Stream #0:]. *)
Lemma head_miss_other (f : flags) prev ws0 c more following l2 :
  all_ok Char.is_space ws0 → Char.is_space c = false →
  all_ok inline (c :: more) → eol following →
  ¬ (∃ more', c :: more = list_ascii_of_string "Stream #0:" ++ more') →
  head (outs f (seq (stream_head ++ l2)) prev (ws0 ++ (c :: more) ++ following) ∅)
  = None.
Proof.
  intros Hws0 Hc Hline Hf Hnot. apply head_empty. intros st Hin.
  apply elem_of_outs_seq_app in Hin as ([[p1 s1] caps1] & H1 & _).
  apply stream_head_sound in H1 as (ws & idx & tag & Hs & _ & [] & _).
  unfold stream_text in Hs. rewrite <- !app_assoc in Hs.
  apply (span_unique Char.is_space) in Hs as [_ Hs]; [|done..].
  symmetry in Hs.
  apply inline_prefix in Hs as [more' Hs]; [|by repeat constructor | done].
  apply Hnot. by exists more'.
Qed.

(** ** Scanning a text line by line *)

(** A pattern that starts with [^] and runs under [MULTILINE]. *)
Definition anchored (p : pattern) : Prop :=
  fl p = multiline ∧ ∃ r, rx p = Seq Bol r.

Lemma audio_anchored : anchored audio_info.
Proof. split; [done | by eexists]. Qed.

Lemma subtitle_anchored : anchored subtitle_info.
Proof. split; [done | by eexists]. Qed.

Lemma attempt_inside (p : pattern) (c : ascii) (s : list ascii) :
  anchored p → c ≠ newline → attempt p (Some c) s = None.
Proof.
  intros [Hfl [r Hr]] Hc. rewrite attempt_head, Hfl, Hr. simpl.
  by rewrite bool_decide_eq_false_2.
Qed.

Lemma scan_skip (p : pattern) (u : list ascii) : ∀ n prev v,
  length u = n → scan p n prev (u ++ v) = scan p 0 (after prev u) v.
Proof.
  induction u as [|c u IH]; intros n prev v <-; [done|].
  simpl. rewrite after_cons. by apply IH.
Qed.

Lemma scan_hit (p : pattern) prev (u s1 : list ascii) (m : Match) :
  u ≠ [] → attempt p prev (u ++ s1) = Some (m, s1) →
  scan p 0 prev (u ++ s1) = m :: scan p 0 (after prev u) s1.
Proof.
  intros Hu Hm. destruct u as [|c u]; [done|].
  rewrite <- app_comm_cons. cbn [scan]. rewrite app_comm_cons, Hm.
  f_equal. rewrite after_cons. apply scan_skip.
  rewrite <- app_comm_cons. simpl. rewrite length_app. lia.
Qed.

Lemma scan_inside (p : pattern) (u rest : list ascii) : ∀ c,
  anchored p → c ≠ newline → all_ok inline u →
  scan p 0 (Some c) (u ++ newline :: rest) = scan p 0 (Some newline) rest.
Proof.
  induction u as [|d u IH]; intros c Hp Hc Hu; simpl.
  - by rewrite attempt_inside.
  - rewrite attempt_inside by done.
    apply all_ok_cons in Hu as [Hd Hu]. apply IH; [done| |done].
    intros ->. by vm_compute in Hd.
Qed.

Lemma after_inline prev (u : list ascii) :
  u ≠ [] → all_ok inline u → ∃ c, after prev u = Some c ∧ c ≠ newline.
Proof.
  revert prev. induction u as [|d u IH]; intros prev Hne Hu; [done|].
  apply all_ok_cons in Hu as [Hd Hu]. rewrite after_cons.
  destruct u as [|e u].
  - exists d. split; [done|]. intros ->. by vm_compute in Hd.
  - by apply IH.
Qed.

(** A line on which the attempt at its start fails yields no match. *)
Lemma scan_line_miss (p : pattern) prev (line rest : list ascii) :
  anchored p → line ≠ [] → all_ok inline line →
  attempt p prev (line ++ newline :: rest) = None →
  scan p 0 prev (line ++ newline :: rest) = scan p 0 (Some newline) rest.
Proof.
  intros Hp Hne Hline Hmiss. destruct line as [|c u]; [done|].
  apply all_ok_cons in Hline as [Hc Hu].
  rewrite <- app_comm_cons in *. cbn [scan]. rewrite Hmiss.
  apply scan_inside; [done| |done]. intros ->. by vm_compute in Hc.
Qed.

(** A line on which the attempt at its start succeeds, leaving [v] of the
    line, yields that one match. *)
Lemma scan_line_hit (p : pattern) prev (u v rest : list ascii) (m : Match) :
  anchored p → u ≠ [] → all_ok inline u → all_ok inline v →
  attempt p prev (u ++ v ++ newline :: rest) = Some (m, v ++ newline :: rest) →
  scan p 0 prev (u ++ v ++ newline :: rest) = m :: scan p 0 (Some newline) rest.
Proof.
  intros Hp Hne Hu Hv Hm. rewrite (scan_hit p prev u _ m) by done. f_equal.
  destruct (after_inline prev u) as (c & -> & Hc); [done..|].
  by apply scan_inside.
Qed.

(** ** The patterns for the duration and the video stream *)

Definition dotall : flags := Flags true false.

Lemma any_dotall (u : list ascii) : all_ok (accepts dotall Any) u.
Proof. by apply Forall_true. Qed.

(** A run of digits with at least one digit. *)
Definition number (d : list ascii) : Prop := d ≠ [] ∧ all_ok Char.is_decimal d.

Ltac outs_opt :=
  match goal with
  | H : _ ∈ outs _ (Opt _) _ _ _ |- _ => apply elem_of_outs_opt in H as [H | H]
  end.

Lemma video_dur_sound prev s st :
  st ∈ outs (fl video_dur) (rx video_dur) prev s ∅ →
  ∃ h m sec,
    st.2 !! 1%nat = Some (string_of_list_ascii h)
    ∧ st.2 !! 2%nat = Some (string_of_list_ascii m)
    ∧ st.2 !! 3%nat = Some (string_of_list_ascii sec)
    ∧ number h ∧ number m ∧ number sec.
Proof.
  intros H. destruct st as [[p' s'] caps']. unfold video_dur in H.
  cbn [rx fl] in H. outs_inv. subst.
  eexists _, _, _. rewrite !taken_app.
  split; [by simplify_map_eq|]. split; [by simplify_map_eq|].
  split; [by simplify_map_eq|]. by repeat split.
Qed.

Lemma video_dur_complete prev pre h m sec post :
  number h → number m → number sec →
  ∃ st, st ∈ outs (fl video_dur) (rx video_dur) prev
               (pre ++ list_ascii_of_string "Duration: " ++ h
                ++ list_ascii_of_string ":" ++ m
                ++ list_ascii_of_string ":" ++ sec ++ post) ∅.
Proof.
  intros [] [] [].
  assert (∃ caps, consumes (fl video_dur) (rx video_dur) prev
            (pre ++ list_ascii_of_string "Duration: " ++ h
             ++ list_ascii_of_string ":" ++ m
             ++ list_ascii_of_string ":" ++ sec ++ []) ∅ caps) as [caps Hc].
  { eexists. unfold video_dur, seq. cbn [rx fl foldr].
    eapply consumes_seq; [apply consumes_star, any_dotall|].
    eapply consumes_seq; [apply consumes_text|].
    eapply consumes_seq; [by apply consumes_group, consumes_plus|].
    eapply consumes_seq; [apply consumes_text|].
    eapply consumes_seq; [by apply consumes_group, consumes_plus|].
    eapply consumes_seq; [apply consumes_text|].
    eapply consumes_seq; [by apply consumes_group, consumes_plus|].
    apply consumes_empty. }
  eexists.
  replace (pre ++ list_ascii_of_string "Duration: " ++ h
           ++ list_ascii_of_string ":" ++ m
           ++ list_ascii_of_string ":" ++ sec ++ post)
    with ((pre ++ list_ascii_of_string "Duration: " ++ h
           ++ list_ascii_of_string ":" ++ m
           ++ list_ascii_of_string ":" ++ sec ++ []) ++ post) by same_text.
  apply Hc.
Qed.

Lemma video_info_sound prev s st :
  st ∈ outs (fl video_info) (rx video_info) prev s ∅ →
  ∃ w h fps,
    st.2 !! 4%nat = Some (string_of_list_ascii w)
    ∧ st.2 !! 5%nat = Some (string_of_list_ascii h)
    ∧ st.2 !! 6%nat = Some (string_of_list_ascii fps)
    ∧ number w ∧ number h ∧ number fps.
Proof.
  intros H. destruct st as [[p' s'] caps']. unfold video_info in H.
  cbn [rx fl] in H. outs_inv. subst.
  outs_opt; outs_inv; subst; (outs_opt; outs_inv; subst);
    eexists _, _, _; rewrite ?taken_app;
    (split; [by simplify_map_eq|]); (split; [by simplify_map_eq|]);
    (split; [by simplify_map_eq|]); by repeat split.
Qed.

(** The fraction of a frame rate: a point, a digit and one more
    character. *)
Definition fraction_chars (frac : option (ascii * ascii)) : list ascii :=
  match frac with
  | Some (d, c) => ["."%char; d; c]
  | None => []
  end.

Definition fraction_ok (frac : option (ascii * ascii)) : Prop :=
  match frac with
  | Some (d, _) => Char.is_decimal d = true
  | None => True
  end.

Definition fraction_caps (frac : option (ascii * ascii)) (caps : captures) : captures :=
  match frac with
  | Some _ => <[7%nat := string_of_list_ascii (fraction_chars frac)]> caps
  | None => caps
  end.

Lemma consumes_fraction prev frac caps :
  fraction_ok frac →
  consumes dotall (Opt (Group 7 None (seq [Text "."; One Digit; One Any])))
    prev (fraction_chars frac) caps (fraction_caps frac caps).
Proof.
  intros Hfrac. destruct frac as [[d c]|]; [|apply consumes_opt_skip].
  apply consumes_opt. unfold fraction_caps.
  change (fraction_chars (Some (d, c)))
    with (list_ascii_of_string "." ++ [d] ++ [c] ++ []).
  apply consumes_group. unfold seq. cbn [foldr].
  eapply consumes_seq; [apply consumes_text|].
  eapply consumes_seq; [by apply consumes_one|].
  eapply consumes_seq; [by apply consumes_one | apply consumes_empty].
Qed.

Lemma consumes_language (f : flags) prev tag caps :
  (∀ l, tag = Some l → l ≠ [] ∧ all_ok Char.is_word l) →
  consumes f (Opt (seq [Text "("; Plus Word; Text ")"])) prev (tag_chars tag)
    caps caps.
Proof.
  intros Htag. destruct tag as [l|]; [|apply consumes_opt_skip].
  destruct (Htag l eq_refl). apply consumes_opt. cbn [tag_chars].
  replace ("("%char :: l ++ [")"%char])
    with (list_ascii_of_string "(" ++ l ++ list_ascii_of_string ")" ++ [])
    by same_text.
  unfold seq. cbn [foldr].
  eapply consumes_seq; [apply consumes_text|].
  eapply consumes_seq; [by apply consumes_plus|].
  eapply consumes_seq; [apply consumes_text | apply consumes_empty].
Qed.

Lemma video_info_complete prev pre idx tag codec mid1 pix sep mid2 w h mid3 fps frac post :
  number idx → (∀ l, tag = Some l → l ≠ [] ∧ all_ok Char.is_word l) →
  codec ≠ [] → all_ok Char.is_word codec →
  pix ≠ [] → all_ok Char.is_word pix → Str.contains sep "(," = true →
  number w → number h → number fps → fraction_ok frac →
  ∃ st, st ∈ outs (fl video_info) (rx video_info) prev
               (pre ++ list_ascii_of_string "Stream #0:" ++ idx ++ tag_chars tag
                ++ list_ascii_of_string ": Video: " ++ codec ++ mid1
                ++ list_ascii_of_string ", "
                ++ (list_ascii_of_string "yuv" ++ pix) ++ [sep] ++ mid2
                ++ list_ascii_of_string " " ++ w ++ list_ascii_of_string "x" ++ h
                ++ mid3 ++ list_ascii_of_string " " ++ fps ++ fraction_chars frac
                ++ list_ascii_of_string " fps" ++ post) ∅.
Proof.
  intros [] Htag ?? ?? ? [] [] [] Hfrac.
  assert (∃ caps, consumes (fl video_info) (rx video_info) prev
            (pre ++ list_ascii_of_string "Stream #0:" ++ idx ++ tag_chars tag
             ++ list_ascii_of_string ": Video: " ++ codec ++ mid1
             ++ list_ascii_of_string ", "
             ++ (list_ascii_of_string "yuv" ++ pix ++ []) ++ [sep] ++ mid2
             ++ list_ascii_of_string " " ++ w ++ list_ascii_of_string "x" ++ h
             ++ mid3 ++ list_ascii_of_string " " ++ fps ++ fraction_chars frac
             ++ list_ascii_of_string " fps" ++ []) ∅ caps) as [caps Hc].
  { unfold video_info. cbn [rx fl]. unfold seq at 1. cbn [foldr].
    eexists.
    eapply consumes_seq; [apply consumes_star, any_dotall|].
    eapply consumes_seq; [apply consumes_text|].
    eapply consumes_seq; [by apply consumes_group, consumes_plus|].
    eapply consumes_seq; [by apply consumes_language|].
    eapply consumes_seq; [apply consumes_text|].
    eapply consumes_seq; [by apply consumes_group, consumes_plus|].
    eapply consumes_seq; [apply consumes_star, any_dotall|].
    eapply consumes_seq; [apply consumes_text|].
    eapply consumes_seq.
    { apply consumes_group. unfold seq. cbn [foldr].
      eapply consumes_seq; [apply consumes_text|].
      eapply consumes_seq; [by apply consumes_plus | apply consumes_empty]. }
    eapply consumes_seq; [by apply consumes_one|].
    eapply consumes_seq; [apply consumes_star, any_dotall|].
    eapply consumes_seq; [apply consumes_text|].
    eapply consumes_seq; [by apply consumes_group, consumes_plus|].
    eapply consumes_seq; [apply consumes_text|].
    eapply consumes_seq; [by apply consumes_group, consumes_plus|].
    eapply consumes_seq; [apply consumes_star, any_dotall|].
    eapply consumes_seq; [apply consumes_text|].
    eapply consumes_seq; [by apply consumes_group, consumes_plus|].
    eapply consumes_seq; [by apply consumes_fraction|].
    eapply consumes_seq; [apply consumes_text | apply consumes_empty]. }
  eexists.
  match goal with |- _ ∈ outs _ _ _ ?t _ =>
    match type of Hc with consumes _ _ _ ?u _ _ =>
      replace t with (u ++ post) by same_text
    end
  end.
  apply Hc.
Qed.

End Outs.

(** * Probe text, line by line

    The text [ffmpeg -i] prints, as far as the parser depends on it: lines
    that end in a newline; a stream line holds blanks, [Stream #0:], the
    index, an optional language in parentheses, a colon and the description
    of the stream. *)

Module Probe.

Import re Outs.

Definition nl : string := String newline EmptyString.

Inductive line :=
| Stream (indent index : string) (language : option string) (body : string)
| Other (text : string).

Definition language_tag (language : option string) : string :=
  match language with
  | Some l => "(" +:+ l +:+ ")"
  | None => ""
  end.

Definition render_line (l : line) : string :=
  match l with
  | Stream indent index language body =>
      indent +:+ "Stream #0:" +:+ index +:+ language_tag language +:+ ": " +:+ body
  | Other text => text
  end.

Fixpoint render (lines : list line) : string :=
  match lines with
  | [] => ""
  | l :: lines' => render_line l +:+ nl +:+ render lines'
  end.

(** What is left of [s] after the text [t] it starts with. *)
Fixpoint after_prefix (t s : string) : option string :=
  match t with
  | EmptyString => Some s
  | String c t' =>
      match s with
      | String d s' => if decide (c = d) then after_prefix t' s' else None
      | EmptyString => None
      end
  end.

Definition nonempty (s : string) : bool :=
  match s with
  | EmptyString => false
  | String _ _ => true
  end.

(** A blank that is not the newline. *)
Definition blank (c : ascii) : bool := Char.is_space c && inline c.

Definition digits_ok (s : string) : bool := nonempty s && Str.all Char.is_decimal s.

Definition language_ok (language : option string) : bool :=
  match language with
  | Some l => nonempty l && Str.all Char.is_word l
  | None => true
  end.

(** A stream line has its pieces in the classes the layout gives them; any
    other line holds a character that is not a blank and does not start
    with [Stream #0:] after its blanks.  No line holds a newline. *)
Definition well_formed (l : line) : bool :=
  match l with
  | Stream indent index language body =>
      nonempty indent && Str.all blank indent && digits_ok index
      && language_ok language && Str.all inline body
  | Other text =>
      Str.all inline text
      && nonempty (Str.lstrip Char.is_space text)
      && negb (bool_decide (is_Some (after_prefix "Stream #0:"
                                       (Str.lstrip Char.is_space text))))
  end.

(** An audio stream line: the description is [Audio: ] and a codec name. *)
Definition is_audio (l : line) : bool :=
  match l with
  | Stream _ _ _ body =>
      match after_prefix "Audio: " body with
      | Some (String c _) => Char.is_word c
      | _ => false
      end
  | Other _ => false
  end.

Definition is_subtitle (l : line) : bool :=
  match l with
  | Stream _ _ _ body => bool_decide (is_Some (after_prefix "Subtitle:" body))
  | Other _ => false
  end.

Definition stream_index (l : line) : option string :=
  match l with
  | Stream _ index _ _ => Some index
  | Other _ => None
  end.

Definition stream_language (l : line) : option string :=
  match l with
  | Stream _ _ language _ => language
  | Other _ => None
  end.

(** The duration [HH:MM:SS] somewhere in the text. *)
Definition has_duration (text : string) : Prop :=
  ∃ pre h m s post,
    text = pre +:+ "Duration: " +:+ h +:+ ":" +:+ m +:+ ":" +:+ s +:+ post
    ∧ digits_ok h = true ∧ digits_ok m = true ∧ digits_ok s = true.

(** The description of a video stream: index, optional language, codec,
    pixel format [yuv...], width and height, frame rate. *)
Record video := Video {
  v_index : string;
  v_language : option string;
  v_codec : string;
  v_more1 : string;
  v_pixel : string;
  v_sep : ascii;
  v_more2 : string;
  v_width : string;
  v_height : string;
  v_more3 : string;
  v_fps : string;
  v_fraction : option (ascii * ascii)
}.

Definition fraction_text (frac : option (ascii * ascii)) : string :=
  match frac with
  | Some (d, c) => String "." (String d (String c EmptyString))
  | None => ""
  end.

Definition render_video (v : video) : string :=
  "Stream #0:" +:+ v_index v +:+ language_tag (v_language v) +:+ ": Video: "
  +:+ v_codec v +:+ v_more1 v +:+ ", " +:+ "yuv" +:+ v_pixel v
  +:+ String (v_sep v) (v_more2 v) +:+ " " +:+ v_width v +:+ "x" +:+ v_height v
  +:+ v_more3 v +:+ " " +:+ v_fps v +:+ fraction_text (v_fraction v) +:+ " fps".

Definition video_ok (v : video) : bool :=
  digits_ok (v_index v) && language_ok (v_language v)
  && nonempty (v_codec v) && Str.all Char.is_word (v_codec v)
  && nonempty (v_pixel v) && Str.all Char.is_word (v_pixel v)
  && Str.contains (v_sep v) "(,"
  && digits_ok (v_width v) && digits_ok (v_height v) && digits_ok (v_fps v)
  && match v_fraction v with
     | Some (d, _) => Char.is_decimal d
     | None => true
     end.

Definition has_video (text : string) : Prop :=
  ∃ pre v post, text = pre +:+ render_video v +:+ post ∧ video_ok v = true.

(** ** Strings and lists of characters *)

Abbreviation los := list_ascii_of_string.

#[local] Hint Resolve all_ok_nil : core.

Lemma los_app (a b : string) : los (a +:+ b) = los a ++ los b.
Proof.
  induction a as [|c a IH]; [done|]. rewrite append_cons. simpl. by rewrite IH.
Qed.

Lemma los_cons (c : ascii) (s : string) : los (String c s) = c :: los s.
Proof. done. Qed.

Lemma all_los (p : ascii → bool) (s : string) :
  Str.all p s = true ↔ all_ok p (los s).
Proof.
  induction s as [|c s IH]; simpl.
  - split; [by constructor | done].
  - rewrite andb_true_iff, all_ok_cons, IH. done.
Qed.

Lemma nonempty_los (s : string) : nonempty s = true ↔ los s ≠ [].
Proof. by destruct s. Qed.

Lemma digits_ok_number (s : string) : digits_ok s = true → number (los s).
Proof.
  unfold digits_ok. intros [H1 H2]%andb_true_iff.
  split; [by apply nonempty_los | by apply all_los].
Qed.

Lemma after_prefix_Some (t : string) : ∀ s r,
  after_prefix t s = Some r ↔ s = t +:+ r.
Proof.
  induction t as [|c t IH]; intros s r; simpl.
  - rewrite append_nil_l. split; [by intros [= ->] | by intros ->].
  - rewrite append_cons. destruct s as [|d s]; [done|].
    destruct (decide (c = d)) as [->|Hcd].
    + rewrite IH. split; [by intros -> | by intros [= ->]].
    + split; [done | by intros [= ? _]].
Qed.

Lemma language_chars (language : option string) :
  los (language_tag language) = tag_chars (los <$> language).
Proof.
  destruct language as [l|]; [|done]. unfold language_tag.
  rewrite !los_app. same_text.
Qed.

Lemma language_ok_word (language : option string) :
  language_ok language = true →
  ∀ w, los <$> language = Some w → w ≠ [] ∧ all_ok Char.is_word w.
Proof.
  destruct language as [l|]; [|done]. simpl.
  intros [H1 H2]%andb_true_iff w [= <-].
  split; [by apply nonempty_los | by apply all_los].
Qed.

(** ** Well-formed lines, as lists of characters *)

Lemma decimal_char_inline (c : ascii) : Char.is_decimal c = true → inline c = true.
Proof.
  intros Hc. unfold inline. rewrite bool_decide_eq_false_2; [done|]. by intros ->.
Qed.

Lemma blank_space (u : list ascii) : all_ok blank u → all_ok Char.is_space u.
Proof. apply all_ok_impl. by intros c [? _]%andb_true_iff. Qed.

Lemma blank_inline (u : list ascii) : all_ok blank u → all_ok inline u.
Proof. apply all_ok_impl. by intros c [_ ?]%andb_true_iff. Qed.

Lemma tag_inline (tag : option (list ascii)) :
  (∀ w, tag = Some w → w ≠ [] ∧ all_ok Char.is_word w) →
  all_ok inline (tag_chars tag).
Proof.
  destruct tag as [w|]; [|by constructor]. intros H.
  destruct (H w eq_refl) as [_ Hw]. simpl.
  apply all_ok_cons. split; [done|]. apply all_ok_app.
  split; [by apply word_inline | by repeat constructor].
Qed.

Lemma stream_line_inline ws idx tag body :
  all_ok blank ws → head_ok ws idx tag → all_ok inline body →
  all_ok inline (stream_line ws idx tag body) ∧ stream_line ws idx tag body ≠ [].
Proof.
  intros Hws [Hne _ _ Hidx Htag] Hbody. split.
  - unfold stream_line, stream_text. rewrite !all_ok_app.
    repeat split; try done.
    + by apply blank_inline.
    + by repeat constructor.
    + by apply (all_ok_impl Char.is_decimal), Hidx; apply decimal_char_inline.
    + by apply tag_inline.
    + by repeat constructor.
  - unfold stream_line, stream_text. by destruct ws.
Qed.

Section StreamLine.

Variables (indent index : string) (language : option string) (body : string).
Hypothesis Hwf : well_formed (Stream indent index language body) = true.

Lemma stream_chars :
  los (render_line (Stream indent index language body))
  = stream_line (los indent) (los index) (los <$> language) (los body).
Proof.
  unfold render_line, stream_line, stream_text.
  rewrite !los_app, language_chars. same_text.
Qed.

Lemma stream_parts :
  all_ok blank (los indent)
  ∧ head_ok (los indent) (los index) (los <$> language)
  ∧ all_ok inline (los body).
Proof.
  unfold well_formed in Hwf.
  apply andb_true_iff in Hwf as [[[[H1 H2]%andb_true_iff H3]%andb_true_iff
                                   H4]%andb_true_iff H5].
  apply digits_ok_number in H3 as [].
  apply all_los in H2. split; [done|]. split; [|by apply all_los].
  split; try done.
  - by apply nonempty_los.
  - by apply blank_space.
  - by apply language_ok_word.
Qed.

Lemma is_audio_body :
  is_audio (Stream indent index language body) = true ↔ audio_body (los body).
Proof.
  unfold is_audio, audio_body. split.
  - destruct (after_prefix "Audio: " body) as [[|c r]|] eqn:H; try done.
    apply after_prefix_Some in H as ->. intros Hc.
    exists c, (los r). by rewrite los_app.
  - intros (c & u & Hb & Hc).
    assert (body = "Audio: " +:+ String c (string_of_list_ascii u)) as ->.
    { rewrite <- (string_of_list_ascii_of_string body), Hb.
      by rewrite <- (list_ascii_of_string_of_list_ascii u),
        <- los_cons, <- los_app, !string_of_list_ascii_of_string. }
    by rewrite (proj2 (after_prefix_Some "Audio: " _ _) eq_refl).
Qed.

Lemma is_subtitle_body :
  is_subtitle (Stream indent index language body) = true ↔ subtitle_body (los body).
Proof.
  unfold is_subtitle, subtitle_body. rewrite bool_decide_eq_true. split.
  - intros [r ->%after_prefix_Some]. exists (los r). by rewrite los_app.
  - intros (u & Hb).
    assert (body = "Subtitle:" +:+ string_of_list_ascii u) as ->.
    { rewrite <- (string_of_list_ascii_of_string body), Hb.
      by rewrite <- (list_ascii_of_string_of_list_ascii u),
        <- los_app, !string_of_list_ascii_of_string. }
    eexists. by apply after_prefix_Some.
Qed.

End StreamLine.

Lemma lstrip_split (p : ascii → bool) (s : string) :
  ∃ ws, los s = ws ++ los (Str.lstrip p s) ∧ all_ok p ws.
Proof.
  induction s as [|c s (ws & IH & Hws)]; [by exists []|]. simpl.
  destruct (p c) eqn:Hc.
  - exists (c :: ws). rewrite IH. split; [done|]. by apply all_ok_cons.
  - by exists [].
Qed.

Lemma lstrip_stops (p : ascii → bool) (s : string) (c : ascii) (r : string) :
  Str.lstrip p s = String c r → p c = false.
Proof.
  induction s as [|d s IH]; [done|]. simpl.
  destruct (p d) eqn:Hd; [done|]. by intros [= <- _].
Qed.

Lemma other_parts (text : string) :
  well_formed (Other text) = true →
  ∃ ws c more,
    los text = ws ++ c :: more
    ∧ all_ok Char.is_space ws ∧ Char.is_space c = false
    ∧ all_ok inline (ws ++ c :: more)
    ∧ ¬ (∃ more', c :: more = los "Stream #0:" ++ more').
Proof.
  unfold well_formed.
  intros [[H1 H2]%andb_true_iff H3%negb_true_iff]%andb_true_iff.
  apply bool_decide_eq_false in H3.
  destruct (lstrip_split Char.is_space text) as (ws & Htext & Hws).
  destruct (Str.lstrip Char.is_space text) as [|c r] eqn:Hstrip; [done|].
  exists ws, c, (los r). split; [done|]. split; [done|].
  split; [by eapply lstrip_stops|]. split.
  - rewrite <- los_cons, <- Htext. by apply all_los.
  - intros (more' & Hmore). apply H3.
    exists (string_of_list_ascii more'). apply after_prefix_Some.
    rewrite <- (string_of_list_ascii_of_string (String c r)).
    rewrite los_cons, Hmore.
    by rewrite <- (list_ascii_of_string_of_list_ascii more'),
      <- los_app, !string_of_list_ascii_of_string.
Qed.

Lemma render_cons (l : line) (lines : list line) :
  los (render (l :: lines)) = los (render_line l) ++ newline :: los (render lines).
Proof. simpl. by rewrite !los_app. Qed.

(** ** The matches of [finditer] on a well-formed text *)

(** The match an audio line gives: the groups of the start of the line and
    those of the audio description. *)
Definition audio_match (l : line) (m : Match) : Prop :=
  ∃ index fmt dflt,
    stream_index l = Some index
    ∧ m = mk_match audio_info
            (audio_caps fmt dflt (head_caps (los index) (los <$> stream_language l))).

Definition subtitle_match (l : line) (m : Match) : Prop :=
  ∃ index,
    stream_index l = Some index
    ∧ m = mk_match subtitle_info (head_caps (los index) (los <$> stream_language l)).

Lemma head_miss_nil (f : flags) prev l2 :
  head (outs f (seq (stream_head ++ l2)) prev [] ∅) = None.
Proof.
  apply head_empty. intros st Hin.
  apply elem_of_outs_seq_app in Hin as ([[p1 s1] caps1] & H1 & _).
  apply stream_head_sound in H1 as (ws & idx & tag & Hs & _ & [Hne] & _).
  unfold stream_text in Hs. by destruct ws.
Qed.

Lemma newline_bol : at_bol multiline (Some newline) = true.
Proof. done. Qed.

Section Scan.

Variable p : pattern.
Variable l2 : list regex.
Variable hit : line → bool.
Variable matched : line → Match → Prop.

Hypothesis Hp : anchored p.
Hypothesis Hrx : rx p = seq (stream_head ++ l2).

(** On a stream line the attempt at the start of the line gives the match
    of the line and stops inside the line, or fails, as [hit] says. *)
Hypothesis Hstream : ∀ prev indent index language body following,
  at_bol multiline prev = true →
  well_formed (Stream indent index language body) = true →
  eol following →
  let l := Stream indent index language body in
  if hit l then
    ∃ m u v, los (render_line l) = u ++ v ∧ u ≠ []
             ∧ attempt p prev (los (render_line l) ++ following)
               = Some (m, v ++ following)
             ∧ matched l m
  else attempt p prev (los (render_line l) ++ following) = None.
Hypothesis Hother : ∀ text, hit (Other text) = false.

Lemma scan_lines (lines : list line) :
  Forall (λ l, well_formed l = true) lines →
  ∀ prev, at_bol multiline prev = true →
  Forall2 matched (List.filter hit lines) (scan p 0 prev (los (render lines))).
Proof.
  destruct Hp as [Hfl _].
  induction 1 as [|l lines Hl Hlines IH]; intros prev Hprev.
  - simpl. rewrite attempt_head, Hrx, head_miss_nil. constructor.
  - rewrite render_cons. cbn [List.filter].
    destruct l as [indent index language body | text].
    + pose proof (Hstream prev indent index language body
                    (newline :: los (render lines)) Hprev Hl (eol_newline _)) as H.
      cbn zeta in H.
      destruct (stream_parts _ _ _ _ Hl) as (Hindent & Hhead & Hbody).
      destruct (stream_line_inline _ _ _ _ Hindent Hhead Hbody) as [Hin Hne].
      rewrite <- stream_chars in Hin, Hne.
      destruct (hit (Stream indent index language body)).
      * destruct H as (m & u & v & Huv & Hu & Hm & Hmatched).
        rewrite Huv in Hin, Hm |- *. apply all_ok_app in Hin as [Hu' Hv'].
        rewrite <- app_assoc in Hm |- *.
        rewrite (scan_line_hit p prev u v _ m) by done.
        constructor; [done|]. by apply IH.
      * rewrite scan_line_miss by done. by apply IH.
    + rewrite Hother.
      destruct (other_parts text Hl) as (ws & c & more & Htext & Hws & Hc & Hin & Hnot).
      cbn [render_line]. rewrite Htext.
      rewrite scan_line_miss; [by apply IH|done|by destruct ws|done|].
      rewrite attempt_head, Hrx, Hfl, <- app_assoc.
      rewrite (head_miss_other multiline prev ws c more); try done.
      * by apply all_ok_app in Hin as [_ ?].
Qed.

End Scan.

Lemma finditer_audio (lines : list line) :
  Forall (λ l, well_formed l = true) lines →
  Forall2 audio_match (List.filter is_audio lines)
    (finditer audio_info (render lines)).
Proof.
  intros Hlines. unfold finditer.
  apply (scan_lines audio_info audio_tail is_audio audio_match audio_anchored
           audio_info_split); [|done|done|done].
  intros prev indent index language body following Hprev Hwf Hf l.
  destruct (stream_parts _ _ _ _ Hwf) as (Hindent & Hhead & Hbody).
  subst l. rewrite attempt_head, stream_chars.
  change (fl audio_info) with multiline.
  destruct (is_audio _) eqn:Haudio.
  - apply (is_audio_body _ _ _ _ Hwf) in Haudio.
    destruct (audio_hit prev _ _ _ _ following Hprev Hhead Hbody Hf Haudio)
      as (st & -> & Hrest & fmt & dflt & Hcaps).
    eexists _, _, []. rewrite app_nil_r. split; [done|]. split.
    { unfold stream_line, stream_text. destruct Hhead as [Hne]. by destruct (los indent). }
    split; [by rewrite <- Hrest|].
    exists index, fmt, dflt. split; [done|]. simpl. by rewrite Hcaps.
  - rewrite audio_miss_stream; try done.
    intros Hb. apply (is_audio_body _ _ _ _ Hwf) in Hb. congruence.
Qed.

Lemma finditer_subtitle (lines : list line) :
  Forall (λ l, well_formed l = true) lines →
  Forall2 subtitle_match (List.filter is_subtitle lines)
    (finditer subtitle_info (render lines)).
Proof.
  intros Hlines. unfold finditer.
  apply (scan_lines subtitle_info subtitle_tail is_subtitle subtitle_match
           subtitle_anchored subtitle_info_split); [|done|done|done].
  intros prev indent index language body following Hprev Hwf Hf l.
  destruct (stream_parts _ _ _ _ Hwf) as (Hindent & Hhead & Hbody).
  subst l. rewrite attempt_head, stream_chars.
  change (fl subtitle_info) with multiline.
  destruct (is_subtitle _) eqn:Hsub.
  - apply (is_subtitle_body _ _ _ _ Hwf) in Hsub.
    destruct (subtitle_hit prev _ _ _ _ following Hprev Hhead Hbody Hsub)
      as (st & u & -> & Hb & Hrest & Hcaps).
    exists (mk_match subtitle_info st.2),
      (stream_text (los indent) (los index) (los <$> language)
       ++ los ": Subtitle:"), u.
    split; [rewrite Hb; unfold stream_line; same_text|]. split.
    { unfold stream_text. destruct Hhead as [Hne]. by destruct (los indent). }
    split; [by rewrite <- Hrest|].
    exists index. split; [done|]. simpl. by rewrite Hcaps.
  - rewrite subtitle_miss_stream; try done.
    intros Hb. apply (is_subtitle_body _ _ _ _ Hwf) in Hb. congruence.
Qed.

(** ** Numbers read back by [int] *)

Lemma decimal_not_int_space (c : ascii) :
  Char.is_decimal c = true → Char.is_int_space c = false.
Proof.
  unfold Char.is_decimal, Char.is_int_space, Char.between.
  intros [H1 H2]%andb_true_iff. apply N.leb_le in H1, H2.
  repeat (apply orb_false_iff; split); apply andb_false_iff;
    rewrite !N.leb_gt; lia.
Qed.

Lemma all_rev_app (p : ascii → bool) (a : string) : ∀ b,
  Str.all p (String.rev_app a b) = Str.all p a && Str.all p b.
Proof.
  induction a as [|c a IH]; intros b; [done|]. simpl. rewrite IH. simpl.
  by destruct (p c), (Str.all p a).
Qed.

Lemma nonempty_rev_app (a : string) : ∀ b,
  nonempty b = true → nonempty (String.rev_app a b) = true.
Proof. induction a as [|c a IH]; intros b Hb; [done|]. by apply IH. Qed.

Lemma lstrip_decimal (s : string) :
  nonempty s = true → Str.all Char.is_decimal s = true →
  Str.lstrip Char.is_int_space s = s.
Proof.
  destruct s as [|c s]; [done|]. simpl. intros _ [Hc _]%andb_true_iff.
  by rewrite decimal_not_int_space.
Qed.

Lemma strip_decimal (s : string) :
  nonempty s = true → Str.all Char.is_decimal s = true →
  Str.strip Char.is_int_space s = s.
Proof.
  intros Hne Hs. unfold Str.strip. rewrite (lstrip_decimal s) by done.
  rewrite lstrip_decimal.
  - apply rev_rev_app.
  - destruct s as [|c s]; [done|]. unfold String.rev. simpl.
    by apply nonempty_rev_app.
  - unfold String.rev. by rewrite all_rev_app, Hs.
Qed.

Lemma digits_decimal (s : string) : ∀ acc b,
  Str.all Char.is_decimal s = true → nonempty s = true ∨ b = true →
  ∃ n, Str.digits s acc b = Some n.
Proof.
  induction s as [|c s IH]; intros acc b Hs Hb; simpl.
  - destruct Hb as [Hb | ->]; [done|]. by eexists.
  - simpl in Hs. apply andb_true_iff in Hs as [Hc Hs].
    unfold Char.digit_value. rewrite Hc. apply IH; [done | by right].
Qed.

Lemma int_decimal (s : string) :
  digits_ok s = true → ∃ n, Str.int s = Some n.
Proof.
  unfold digits_ok. intros [Hne Hs]%andb_true_iff.
  unfold Str.int. rewrite strip_decimal by done.
  destruct s as [|c s]; [done|].
  assert (Char.is_decimal c = true) as Hc
    by (simpl in Hs; by apply andb_true_iff in Hs as [? _]).
  rewrite !decide_False by (by intros ->).
  apply digits_decimal; [done | by left].
Qed.

Lemma number_digits_ok (d : list ascii) :
  number d → digits_ok (string_of_list_ascii d) = true.
Proof.
  intros [Hne Hd]. unfold digits_ok. apply andb_true_iff. split.
  - apply nonempty_los. by rewrite list_ascii_of_string_of_list_ascii.
  - apply all_los. by rewrite list_ascii_of_string_of_list_ascii.
Qed.

Lemma int_group_number (d : list ascii) :
  number d → ∃ n, MediaInfo.int_group (Some (string_of_list_ascii d)) = ret n.
Proof.
  intros Hd. destruct (int_decimal _ (number_digits_ok d Hd)) as [n Hn].
  exists n. unfold MediaInfo.int_group. by rewrite Hn.
Qed.

(** ** The two matches at the start of the text *)

Lemma match_video_dur (text : string) :
  has_duration text →
  ∃ m hrs mins secs,
    match_ video_dur text = Some m
    ∧ length (groups m) = 3%nat
    ∧ MediaInfo.int_group (group m 1) = ret hrs
    ∧ MediaInfo.int_group (group m 2) = ret mins
    ∧ MediaInfo.int_group (group m 3) = ret secs.
Proof.
  intros (pre & h & m & s & post & -> & Hh & Hm & Hs).
  apply digits_ok_number in Hh, Hm, Hs.
  destruct (video_dur_complete None (los pre) (los h) (los m) (los s) (los post))
    as [st0 Hst0]; [done..|].
  unfold match_. rewrite attempt_head, !los_app.
  destruct (head_nonempty _ _ Hst0) as (st & -> & Hst).
  apply video_dur_sound in Hst
    as (d1 & d2 & d3 & H1 & H2 & H3 & Hd1 & Hd2 & Hd3).
  destruct (int_group_number d1 Hd1) as [n1 Hn1].
  destruct (int_group_number d2 Hd2) as [n2 Hn2].
  destruct (int_group_number d3 Hd3) as [n3 Hn3].
  eexists _, n1, n2, n3. split; [done|]. split; [done|]. simpl.
  by rewrite H1, H2, H3.
Qed.

Lemma video_chars (v : video) :
  los (render_video v)
  = los "Stream #0:" ++ los (v_index v) ++ tag_chars (los <$> v_language v)
    ++ los ": Video: " ++ los (v_codec v) ++ los (v_more1 v) ++ los ", "
    ++ (los "yuv" ++ los (v_pixel v)) ++ [v_sep v] ++ los (v_more2 v)
    ++ los " " ++ los (v_width v) ++ los "x" ++ los (v_height v)
    ++ los (v_more3 v) ++ los " " ++ los (v_fps v)
    ++ fraction_chars (v_fraction v) ++ los " fps".
Proof.
  unfold render_video. rewrite !los_app, los_cons, language_chars.
  destruct (v_fraction v) as [[d c]|]; same_text.
Qed.

Lemma match_video_info (text : string) :
  has_video text →
  ∃ m width height fps,
    match_ video_info text = Some m
    ∧ length (groups m) = 7%nat
    ∧ MediaInfo.int_group (group m 4) = ret width
    ∧ MediaInfo.int_group (group m 5) = ret height
    ∧ MediaInfo.int_group (group m 6) = ret fps.
Proof.
  intros (pre & v & post & -> & Hv).
  unfold video_ok in Hv. repeat (apply andb_true_iff in Hv as [Hv ?]).
  destruct (video_info_complete None (los pre) (los (v_index v))
              (los <$> v_language v) (los (v_codec v)) (los (v_more1 v))
              (los (v_pixel v)) (v_sep v) (los (v_more2 v)) (los (v_width v))
              (los (v_height v)) (los (v_more3 v)) (los (v_fps v))
              (v_fraction v) (los post)) as [st0 Hst0].
  { split; [by apply nonempty_los | by apply all_los]. }
  { by apply language_ok_word. }
  { by apply nonempty_los. }
  { by apply all_los. }
  { by apply nonempty_los. }
  { by apply all_los. }
  { done. }
  { by apply digits_ok_number. }
  { by apply digits_ok_number. }
  { by apply digits_ok_number. }
  { by destruct (v_fraction v) as [[]|]. }
  unfold match_. rewrite attempt_head, !los_app, video_chars.
  match type of Hst0 with _ ∈ outs _ _ _ ?t _ =>
    match goal with |- context [outs _ _ _ ?u _] =>
      replace u with t by same_text
    end
  end.
  destruct (head_nonempty _ _ Hst0) as (st & -> & Hst).
  apply video_info_sound in Hst
    as (d1 & d2 & d3 & Hg1 & Hg2 & Hg3 & Hd1 & Hd2 & Hd3).
  destruct (int_group_number d1 Hd1) as [n1 Hn1].
  destruct (int_group_number d2 Hd2) as [n2 Hn2].
  destruct (int_group_number d3 Hd3) as [n3 Hn3].
  eexists _, n1, n2, n3. split; [done|]. split; [done|]. simpl.
  by rewrite Hg1, Hg2, Hg3.
Qed.

(** ** From matches to tracks *)

Lemma string_of_los (language : option string) :
  string_of_list_ascii <$> (los <$> language) = language.
Proof.
  destruct language as [l|]; [|done]. simpl.
  by rewrite string_of_list_ascii_of_string.
Qed.

(** The language of a track: that of the line, [und] when it has none. *)
Definition track_language (l : line) : option string :=
  Some (default "und" (stream_language l)).

Lemma audio_track_match (l : line) (m : Match) :
  audio_match l m →
  ∃ a, MediaInfo.audio_track m = ret a
       ∧ AudioTrack.track a = stream_index l
       ∧ AudioTrack.lang a = track_language l.
Proof.
  intros (index & fmt & dflt & Hindex & ->).
  unfold track_language. rewrite Hindex.
  destruct (stream_language l) as [lang|], dflt; eexists;
    (split; [reflexivity|]); simpl;
    by rewrite ?string_of_list_ascii_of_string.
Qed.

Lemma subtitle_track_match (l : line) (m : Match) :
  subtitle_match l m →
  ∃ a, MediaInfo.subtitle_track m = ret a
       ∧ SubtitleTrack.track a = stream_index l
       ∧ SubtitleTrack.lang a = track_language l.
Proof.
  intros (index & Hindex & ->).
  unfold track_language. rewrite Hindex.
  destruct (stream_language l) as [lang|]; eexists;
    (split; [reflexivity|]); simpl;
    by rewrite ?string_of_list_ascii_of_string.
Qed.

Lemma collect_matches {A B} (f : Match → M A) (g : A → B) (h : line → B)
    (matched : line → Match → Prop) (ls : list line) (ms : list Match) :
  (∀ l m, matched l m → ∃ a, f m = ret a ∧ g a = h l) →
  Forall2 matched ls ms →
  ∃ tracks, MediaInfo.collect f ms = ret tracks ∧ g <$> tracks = h <$> ls.
Proof.
  intros Hf. induction 1 as [|l m ls ms Hlm _ (tracks & IH & Heq)].
  - by exists [].
  - destruct (Hf l m Hlm) as (a & Ha & Hga).
    exists (a :: tracks). cbn [MediaInfo.collect].
    rewrite Ha, bind_ret, IH, bind_ret.
    split; [done|]. by rewrite !fmap_cons, Hga, Heq.
Qed.

(** ** The parser on a well-formed text *)

Theorem parse_details_lines (getsize : string → option N) (_path : string)
    (lines : list line) (size : N) :
  Forall (λ l, well_formed l = true) lines →
  has_duration (render lines) → has_video (render lines) →
  getsize _path = Some size →
  ∃ i, MediaInfo.parse_details getsize _path (render lines)
       = ([], Ret (MediaInfo.Valid i))
       ∧ AudioTrack.track <$> MediaInfo.audio i
         = stream_index <$> List.filter is_audio lines
       ∧ AudioTrack.lang <$> MediaInfo.audio i
         = track_language <$> List.filter is_audio lines
       ∧ SubtitleTrack.track <$> MediaInfo.subtitle i
         = stream_index <$> List.filter is_subtitle lines
       ∧ SubtitleTrack.lang <$> MediaInfo.subtitle i
         = track_language <$> List.filter is_subtitle lines.
Proof.
  intros Hlines Hdur Hvid Hsize.
  destruct (match_video_dur _ Hdur) as (m1 & hrs & mins & secs & Hm1 & Hl1 & Hh & Hm & Hs).
  destruct (match_video_info _ Hvid) as (m2 & width & height & fps & Hm2 & Hl2 & Hw & Hht & Hf).
  pose proof (finditer_audio lines Hlines) as Haudio.
  pose proof (finditer_subtitle lines Hlines) as Hsub.
  destruct (collect_matches MediaInfo.audio_track
              (λ a, (AudioTrack.track a, AudioTrack.lang a))
              (λ l, (stream_index l, track_language l)) _ _ _
              (λ l m H, match audio_track_match l m H with
                        | ex_intro _ a (conj Ha (conj Ht Hl)) =>
                            ex_intro _ a (conj Ha (f_equal2 pair Ht Hl))
                        end) Haudio)
    as (audio & Hca & Haudio').
  destruct (collect_matches MediaInfo.subtitle_track
              (λ a, (SubtitleTrack.track a, SubtitleTrack.lang a))
              (λ l, (stream_index l, track_language l)) _ _ _
              (λ l m H, match subtitle_track_match l m H with
                        | ex_intro _ a (conj Ha (conj Ht Hl)) =>
                            ex_intro _ a (conj Ha (f_equal2 pair Ht Hl))
                        end) Hsub)
    as (subtitle & Hcs & Hsub').
  eexists. split.
  - unfold MediaInfo.parse_details, MediaInfo.parse_details_with.
    rewrite Hm1, Hl1, Hm2, Hl2. simpl bool_decide. cbv iota.
    rewrite Hca, bind_ret, Hcs, bind_ret, Hsize, bind_ret.
    rewrite Hw, bind_ret, Hht, bind_ret, Hh, bind_ret, Hm, bind_ret.
    rewrite Hs, bind_ret, Hf, bind_ret. reflexivity.
  - simpl.
    assert (∀ {A B C} (g1 : A → B) (g2 : A → C) (l : list A),
              fst <$> ((λ a, (g1 a, g2 a)) <$> l) = g1 <$> l) as Hfst.
    { intros. rewrite <- list_fmap_compose. by apply list_fmap_ext. }
    assert (∀ {A B C} (g1 : A → B) (g2 : A → C) (l : list A),
              snd <$> ((λ a, (g1 a, g2 a)) <$> l) = g2 <$> l) as Hsnd.
    { intros. rewrite <- list_fmap_compose. by apply list_fmap_ext. }
    repeat split.
    + by rewrite <- (Hfst _ _ _ _ AudioTrack.lang), Haudio', Hfst.
    + by rewrite <- (Hsnd _ _ _ AudioTrack.track), Haudio', Hsnd.
    + by rewrite <- (Hfst _ _ _ _ SubtitleTrack.lang), Hsub', Hfst.
    + by rewrite <- (Hsnd _ _ _ SubtitleTrack.track), Hsub', Hsnd.
Qed.

(** ** The default marker of a parsed track

    Whatever the text, the [default] group of an audio match is either
    absent or the marker with its parentheses, which [is_default] does not
    take for the word it compares with. *)

Lemma scan_sound (p : pattern) (P : Match → Prop) :
  (∀ prev s m s', attempt p prev s = Some (m, s') → P m) →
  ∀ s skip prev, Forall P (scan p skip prev s).
Proof.
  intros Hp. induction s as [|c s IH]; intros skip prev.
  - destruct skip; simpl; [|done].
    destruct (attempt p prev []) as [[m s1]|] eqn:Hm; [|done].
    apply list.Forall_cons. split; [by eapply Hp|done].
  - destruct skip; simpl; [|apply IH].
    destruct (attempt p prev (c :: s)) as [[m s1]|] eqn:Hm; [|apply IH].
    apply list.Forall_cons. split; [by eapply Hp|apply IH].
Qed.

Lemma audio_attempt_caps prev s m s' :
  attempt audio_info prev s = Some (m, s') →
  ∃ fmt dflt idx tag,
    m = mk_match audio_info (audio_caps fmt dflt (head_caps idx tag)).
Proof.
  rewrite attempt_head. intros Hm.
  destruct (head (outs (fl audio_info) (rx audio_info) prev s ∅))
    as [st|] eqn:Hst; [|done].
  injection Hm as <- _. apply head_Some_elem_of in Hst.
  rewrite audio_info_split in Hst.
  apply elem_of_outs_seq_app in Hst as ([[p1 s1] caps1] & H1 & H2).
  apply stream_head_sound in H1 as (ws & idx & tag & _ & _ & _ & Hcaps).
  apply audio_tail_sound in H2 as (c & u & fmt & dflt & _ & _ & _ & _ & ->).
  simpl in Hcaps. subst caps1. by exists fmt, dflt, idx, tag.
Qed.

Lemma audio_track_caps fmt dflt idx tag :
  ∃ a, MediaInfo.audio_track
         (mk_match audio_info (audio_caps fmt dflt (head_caps idx tag))) = ret a
       ∧ AudioTrack.is_default a = false.
Proof. destruct tag, dflt; eexists; (split; [reflexivity|]); done. Qed.

Lemma collect_sound {A B} (f : A → M B) (P : A → Prop) (Q : B → Prop) (l : list A) :
  (∀ x, P x → ∃ y, f x = ret y ∧ Q y) →
  Forall P l → ∃ ys, MediaInfo.collect f l = ret ys ∧ Forall Q ys.
Proof.
  intros Hf. induction 1 as [|x l Hx _ (ys & IH & Hys)].
  - by exists [].
  - destruct (Hf x Hx) as (y & Hy & Hqy). exists (y :: ys).
    cbn [MediaInfo.collect]. rewrite Hy, bind_ret, IH, bind_ret.
    split; [done|]. by apply list.Forall_cons.
Qed.

Lemma bind_Ret {A B} (m : M A) (f : A → M B) lines b :
  bind m f = (lines, Ret b) →
  ∃ l1 a l2, m = (l1, Ret a) ∧ f a = (l2, Ret b).
Proof.
  destruct m as [l1 [a|e]]; [|done]. rewrite bind_run.
  destruct (f a) as [l2 r] eqn:Hf. simpl. intros [= _ ->].
  by exists l1, a, l2.
Qed.

(** X1: every audio track the parser returns, for any text, reports that
    it is not the default track: the pattern captures the marker with its
    parentheses, [(default)], and [is_default] compares the attribute with
    [default]. *)
Theorem parsed_audio_never_default (getsize : string → option N)
    (_path output : string) (lines : list string) (i : MediaInfo.info) :
  MediaInfo.parse_details getsize _path output = (lines, Ret (MediaInfo.Valid i)) →
  Forall (λ a, AudioTrack.is_default a = false) (MediaInfo.audio i).
Proof.
  unfold MediaInfo.parse_details, MediaInfo.parse_details_with.
  destruct (match_ video_dur output) as [match1|]; [|done].
  destruct (bool_decide _); [done|].
  destruct (match_ video_info output) as [match2|]; [|done].
  destruct (bool_decide _); [done|].
  destruct (collect_sound MediaInfo.audio_track
              (λ m, ∃ fmt dflt idx tag,
                 m = mk_match audio_info (audio_caps fmt dflt (head_caps idx tag)))
              (λ a, AudioTrack.is_default a = false)
              (finditer audio_info output))
    as (tracks & -> & Htracks).
  { intros m (fmt & dflt & idx & tag & ->). apply audio_track_caps. }
  { apply scan_sound. intros prev s m s'. apply audio_attempt_caps. }
  rewrite bind_ret. intros H.
  repeat (apply bind_Ret in H as (? & ? & ? & _ & H)).
  by injection H as _ <-.
Qed.

End Probe.

(** * Properties of the stream mapper *)

Section StreamMapper.

Import MediaInfo.

(** The selection rule in closed form: a language is kept when the
    inclusion list is empty or holds it, and the exclusion list does not
    hold it. *)
Definition selects (excludes includes : list string) (l : option string) : bool :=
  (bool_decide (includes = []) || lang_in l includes) && negb (lang_in l excludes).

Definition select_pair (track : option string) : list string :=
  ["-map"; "0:" +:+ str_opt track].

Definition disposition_pair (k : nat) : list string :=
  ["-disposition:a:" +:+ pretty k; "default"].

Definition kept_audio (excludes includes : list string) (streams : list AudioTrack.t)
    : list AudioTrack.t :=
  List.filter (λ s, selects excludes includes (AudioTrack.lang s)) streams.

Definition kept_subtitle (excludes includes : list string)
    (streams : list SubtitleTrack.t) : list SubtitleTrack.t :=
  List.filter (λ s, selects excludes includes (SubtitleTrack.lang s)) streams.

(** Some dropped stream carries the default flag. *)
Definition default_dropped (excludes includes : list string)
    (streams : list AudioTrack.t) : bool :=
  existsb (λ s, negb (selects excludes includes (AudioTrack.lang s))
                && AudioTrack.is_default s) streams.

(** The positions, counted from [k], of the streams of language [defl]. *)
Fixpoint positions_from (defl : string) (k : nat) (l : list AudioTrack.t) : list nat :=
  match l with
  | [] => []
  | s :: l' =>
      (if bool_decide (AudioTrack.lang s = Some defl) then [k] else [])
      ++ positions_from defl (S k) l'
  end.
Definition positions (defl : string) (l : list AudioTrack.t) : list nat :=
  positions_from defl 0 l.

Definition normalize (includes : list string) : option (list string) :=
  match includes with
  | [] => None
  | _ => Some includes
  end.

Lemma audio_step_selects excludes includes st s :
  audio_step excludes (normalize includes) st s =
  if selects excludes includes (AudioTrack.lang s) then
    AudioLoop (a_seq_list st ++ select_pair (AudioTrack.track s))
      (a_mapped st ++ [s]) (a_default_reassign st)
  else
    AudioLoop (a_seq_list st) (a_mapped st)
      (a_default_reassign st || AudioTrack.is_default s).
Proof.
  unfold audio_step, selects, select_pair, AudioTrack.track_id.
  destruct includes as [|i0 includes]; simpl.
  - destruct (lang_in _ excludes), (AudioTrack.is_default s),
      (a_default_reassign st); reflexivity.
  - destruct (lang_in _ (i0 :: includes)), (lang_in _ excludes),
      (AudioTrack.is_default s), (a_default_reassign st); reflexivity.
Qed.

Lemma audio_loop_closed excludes includes streams : ∀ st,
  foldl (audio_step excludes (normalize includes)) st streams =
  AudioLoop
    (a_seq_list st ++
       (kept_audio excludes includes streams ≫= λ s, select_pair (AudioTrack.track s)))
    (a_mapped st ++ kept_audio excludes includes streams)
    (a_default_reassign st || default_dropped excludes includes streams).
Proof.
  induction streams as [|s streams IH]; intros [sq mp dr]; simpl.
  - by rewrite !app_nil_r, orb_false_r.
  - rewrite IH, audio_step_selects.
    destruct (selects excludes includes (AudioTrack.lang s)); simpl.
    + by rewrite <- !app_assoc.
    + by rewrite orb_assoc.
Qed.

Lemma subtitle_loop_closed excludes includes streams : ∀ st,
  foldl (subtitle_step excludes (normalize includes)) st streams =
  SubtitleLoop
    (s_seq_list st ++
       (kept_subtitle excludes includes streams
          ≫= λ s, select_pair (SubtitleTrack.track s)))
    (s_mapped st ++ kept_subtitle excludes includes streams).
Proof.
  induction streams as [|s streams IH]; intros [sq mp]; simpl.
  - by rewrite !app_nil_r.
  - rewrite IH. unfold subtitle_step, selects.
    destruct includes as [|i0 includes]; simpl.
    + destruct (lang_in _ excludes); simpl; [done|].
      by rewrite <- !app_assoc.
    + destruct (lang_in _ (i0 :: includes)), (lang_in _ excludes); simpl;
        try done; by rewrite <- !app_assoc.
Qed.

Lemma disposition_loop_closed defl mapped : ∀ k seq_list,
  foldl (disposition_step defl) seq_list (imap (λ i s, (k + i, s)%nat) mapped) =
  seq_list ++ (positions_from defl k mapped ≫= disposition_pair).
Proof.
  induction mapped as [|s mapped IH]; intros k sq; simpl.
  - by rewrite app_nil_r.
  - rewrite (imap_ext _ (λ i s, (S k + i, s)%nat))
      by (intros; simpl; f_equal; lia).
    rewrite IH. unfold disposition_step. simpl.
    rewrite Nat.add_0_r, bind_app.
    case_bool_decide; simpl; [|done].
    by rewrite <- app_assoc.
Qed.

(** The audio tokens and the warning of [_map_audio_streams], closed. *)
Definition audio_tokens (excludes includes : list string) (defl : option string)
    (streams : list AudioTrack.t) : list string :=
  let kept := kept_audio excludes includes streams in
  (kept ≫= λ s, select_pair (AudioTrack.track s)) ++
  match default_dropped excludes includes streams, defl with
  | true, Some d => positions d kept ≫= disposition_pair
  | _, _ => []
  end.

Definition audio_warnings (excludes includes : list string) (defl : option string)
    (streams : list AudioTrack.t) : list string :=
  match default_dropped excludes includes streams, defl with
  | true, None =>
      ["Warning: A default stream will be removed but no default language specified to replace it"]
  | _, _ => []
  end.

Definition subtitle_tokens (excludes includes : list string)
    (streams : list SubtitleTrack.t) : list string :=
  kept_subtitle excludes includes streams ≫= λ s, select_pair (SubtitleTrack.track s).

Lemma normalize_some (includes : list string) :
  match Some includes with
  | None | Some [] => None
  | Some i => Some i
  end = normalize includes.
Proof. by destruct includes. Qed.

Lemma map_audio_streams_closed streams excludes includes defl :
  _map_audio_streams streams (Some excludes) (Some includes) defl =
  (audio_warnings excludes includes defl streams,
   Ret (audio_tokens excludes includes defl streams)).
Proof.
  unfold _map_audio_streams, audio_tokens, audio_warnings.
  rewrite normalize_some, audio_loop_closed. simpl.
  destruct (default_dropped excludes includes streams); simpl.
  - destruct defl as [d|]; simpl.
    + unfold ret. do 2 f_equal.
      apply (disposition_loop_closed d _ 0%nat).
    + by rewrite app_nil_r.
  - by rewrite app_nil_r.
Qed.

Lemma map_subtitle_streams_closed streams excludes includes defl :
  _map_subtitle_streams streams (Some excludes) (Some includes) defl =
  ([], Ret (subtitle_tokens excludes includes streams)).
Proof.
  unfold _map_subtitle_streams. by rewrite normalize_some, subtitle_loop_closed.
Qed.

(** The exclusion list as [ffmpeg_streams] reads it. *)
Definition excluded (e : option (list string)) : list string :=
  match e with
  | None => []
  | Some e => e
  end.

(** No inclusion and no exclusion, for audio and for subtitles. *)
Definition no_selection (p : Profile.t) : bool :=
  bool_decide (Profile.included_audio p = [])
  && bool_decide (excluded (Profile.excluded_audio p) = [])
  && bool_decide (Profile.included_subtitles p = [])
  && bool_decide (excluded (Profile.excluded_subtitles p) = []).

Lemma length_zero_nil {A} `{EqDecision A} (l : list A) :
  bool_decide (length l = 0%nat) = bool_decide (l = []).
Proof.
  destruct l; [by rewrite !bool_decide_eq_true_2|].
  by rewrite !bool_decide_eq_false_2.
Qed.

Lemma ffmpeg_streams_closed self p :
  ffmpeg_streams self p =
  if no_selection p then ([], Ret ["-map"; "0"])
  else match self with
       | Invalid => ([], Raise (AttributeError "stream"))
       | Valid i =>
           let ea := excluded (Profile.excluded_audio p) in
           let es := excluded (Profile.excluded_subtitles p) in
           (audio_warnings ea (Profile.included_audio p) (Profile.default_audio p) (audio i),
            Ret (select_pair (stream i)
                 ++ audio_tokens ea (Profile.included_audio p)
                      (Profile.default_audio p) (audio i)
                 ++ subtitle_tokens es (Profile.included_subtitles p) (subtitle i)))
       end.
Proof.
  unfold ffmpeg_streams, no_selection. rewrite !length_zero_nil.
  fold (excluded (Profile.excluded_audio p)).
  fold (excluded (Profile.excluded_subtitles p)).
  destruct (_ && _ && _ && _); [done|].
  destruct self as [|i]; [done|].
  unfold get_stream, get_audio, get_subtitle.
  rewrite !bind_ret, map_audio_streams_closed, bind_run. cbv beta.
  rewrite !bind_ret, map_subtitle_streams_closed, bind_run. simpl.
  by rewrite app_nil_r.
Qed.

End StreamMapper.

Section StreamMapperClaims.

Import MediaInfo.

Lemma selects_false_nonempty excludes includes l :
  selects excludes includes l = false → includes ≠ [] ∨ excludes ≠ [].
Proof.
  unfold selects. destruct includes as [|i0 includes]; [|by left].
  destruct excludes as [|e0 excludes]; [|by right].
  by destruct l.
Qed.

Lemma default_dropped_selection (p : Profile.t) (streams : list AudioTrack.t) :
  default_dropped (excluded (Profile.excluded_audio p)) (Profile.included_audio p)
    streams = true →
  no_selection p = false.
Proof.
  unfold default_dropped. rewrite existsb_exists.
  intros (s & _ & [Hs _]%andb_true_iff).
  apply negb_true_iff, selects_false_nonempty in Hs.
  unfold no_selection.
  destruct Hs as [Hs|Hs]; rewrite (bool_decide_eq_false_2 _ Hs); simpl;
    [done | by rewrite andb_false_r].
Qed.

Lemma elem_of_positions_from defl l : ∀ k k',
  k' ∈ positions_from defl k l ↔
  ∃ j s, k' = (k + j)%nat ∧ l !! j = Some s ∧ AudioTrack.lang s = Some defl.
Proof.
  induction l as [|x l IH]; intros k k'; simpl.
  - split; [by intros ?%elem_of_nil | by intros (j & s & _ & ? & _)].
  - rewrite elem_of_app, IH. split.
    + intros [Hk | (j & s & -> & Hj & Hs)].
      * case_bool_decide; [|by apply elem_of_nil in Hk].
        apply list_elem_of_singleton in Hk as ->.
        exists 0%nat, x. by rewrite Nat.add_0_r.
      * exists (S j), s. split; [lia | done].
    + intros ([|j] & s & -> & Hj & Hs); simpl in Hj.
      * left. injection Hj as ->. rewrite bool_decide_eq_true_2 by done.
        rewrite Nat.add_0_r. by apply list_elem_of_singleton.
      * right. exists j, s. split; [lia | done].
Qed.

Lemma positions_from_app defl l1 l2 : ∀ k,
  positions_from defl k (l1 ++ l2) =
  positions_from defl k l1 ++ positions_from defl (k + length l1) l2.
Proof.
  induction l1 as [|x l1 IH]; intros k; simpl.
  - by rewrite Nat.add_0_r.
  - rewrite IH, <- app_assoc. do 3 f_equal. lia.
Qed.

Lemma positions_from_none defl l : ∀ k,
  Forall (λ x, AudioTrack.lang x ≠ Some defl) l → positions_from defl k l = [].
Proof.
  induction l as [|x l IH]; intros k Hl; [done|]. simpl.
  inversion Hl; subst. rewrite bool_decide_eq_false_2 by done. by apply IH.
Qed.

Lemma positions_from_length defl l : ∀ k,
  length (positions_from defl k l) =
  length (List.filter (λ s, bool_decide (AudioTrack.lang s = Some defl)) l).
Proof.
  induction l as [|x l IH]; intros k; [done|]. simpl.
  rewrite length_app, IH. by case_bool_decide.
Qed.

Lemma positions_from_lower defl l : ∀ k,
  Forall (λ k', k ≤ k')%nat (positions_from defl k l).
Proof.
  intros k. apply list.Forall_forall. intros k' Hk'.
  apply elem_of_positions_from in Hk' as (j & _ & -> & _). lia.
Qed.

End StreamMapperClaims.

(** * Claims about the stream mapper and the track descriptors *)

(** The tokens a call returned, none when it raised. *)
Definition tokens_of (m : M (list string)) : list string :=
  match outcome m with
  | Ret l => l
  | Raise _ => []
  end.

(** The disposition flags among the tokens. *)
Definition override_flags (tokens : list string) : list string :=
  List.filter (String.prefix "-disposition:a:") tokens.

(** One English track in each list, and one profile that both includes and
    excludes English. *)
Definition english : MediaInfo.info :=
    {| MediaInfo.path := "a.mkv"; MediaInfo.vcodec := Some "h264";
       MediaInfo.stream := Some "0"; MediaInfo.res_height := 1080;
       MediaInfo.res_width := 1920; MediaInfo.runtime := 1815;
       MediaInfo.filesize_mb := 700 # 1; MediaInfo.fps := 23;
       MediaInfo.colorspace := Some "yuv420p";
       MediaInfo.audio :=
         [AudioTrack.Build (Some "1") (Some "eng") (Some "ac3") None];
       MediaInfo.subtitle := [SubtitleTrack.Build (Some "2") (Some "eng")] |}.
Definition english_info : MediaInfo.t := MediaInfo.Valid english.

Definition include_exclude_english : Profile.t :=
  Profile.Build (Some ["eng"]) (Some ["eng"]) ["eng"] ["eng"] None None.

(** An English default track and two Spanish tracks; English excluded and
    Spanish the replacement default. *)
Definition two_spanish : MediaInfo.info :=
    {| MediaInfo.path := "a.mkv"; MediaInfo.vcodec := Some "h264";
       MediaInfo.stream := Some "0"; MediaInfo.res_height := 1080;
       MediaInfo.res_width := 1920; MediaInfo.runtime := 1815;
       MediaInfo.filesize_mb := 700 # 1; MediaInfo.fps := 23;
       MediaInfo.colorspace := Some "yuv420p";
       MediaInfo.audio :=
         [AudioTrack.Build (Some "1") (Some "eng") (Some "ac3") (Some "default");
          AudioTrack.Build (Some "2") (Some "spa") (Some "ac3") None;
          AudioTrack.Build (Some "3") (Some "spa") (Some "aac") None];
       MediaInfo.subtitle := [] |}.
Definition two_spanish_info : MediaInfo.t := MediaInfo.Valid two_spanish.

Definition exclude_english_default_spanish : Profile.t :=
  Profile.Build (Some ["eng"]) None [] [] (Some "spa") None.

(** English audio alone asked for. *)
Definition include_english_audio : Profile.t :=
  Profile.Build None None ["eng"] [] None None.

(** C1 (what the code does where the claim fails): a language on the
    exclusion list is never selected, whatever the inclusion list holds; so
    with English both included and excluded, the English audio track and the
    English subtitle track are dropped and only the video stream is mapped. *)
Theorem excluded_wins_over_included :
  (∀ excludes includes l,
     lang_in l excludes = true → selects excludes includes l = false)
  ∧ MediaInfo.ffmpeg_streams english_info include_exclude_english
    = ([], Ret ["-map"; "0:0"]).
Proof.
  split; [|reflexivity].
  intros excludes includes l H. unfold selects. rewrite H. apply andb_false_r.
Qed.

(** C2 as stated fails: the excluded English track is the default one, the
    replacement language is Spanish and two kept tracks are Spanish; the
    mapper appends two disposition pairs, not one. *)
Lemma override_pair_per_matching_track :
  default_dropped ["eng"] [] (MediaInfo.audio two_spanish) = true
  ∧ AudioTrack.lang <$> kept_audio ["eng"] [] (MediaInfo.audio two_spanish)
    = [Some "spa"; Some "spa"]
  ∧ tokens_of (MediaInfo.ffmpeg_streams two_spanish_info exclude_english_default_spanish)
    = ["-map"; "0:0"; "-map"; "0:2"; "-map"; "0:3";
       "-disposition:a:0"; "default"; "-disposition:a:1"; "default"]
  ∧ length (override_flags
      (tokens_of (MediaInfo.ffmpeg_streams two_spanish_info
                    exclude_english_default_spanish))) ≠ 1%nat.
Proof.
  split; [reflexivity|]. split; [reflexivity|]. split; [reflexivity|].
  vm_compute. discriminate.
Qed.

(** C2, amended: when a dropped audio track is the default one and a
    replacement language [defl] is configured, the mapper appends one
    disposition pair for every kept audio track of that language, in
    order, each naming the track's position among the kept audio tracks;
    the first pair names the first such track, and there is exactly one
    pair when exactly one kept track has the language. *)
Theorem default_override_pairs (i : MediaInfo.info) (p : Profile.t) (defl : string) :
  let ea := excluded (Profile.excluded_audio p) in
  let ia := Profile.included_audio p in
  let kept := kept_audio ea ia (MediaInfo.audio i) in
  Profile.default_audio p = Some defl →
  default_dropped ea ia (MediaInfo.audio i) = true →
  MediaInfo.ffmpeg_streams (MediaInfo.Valid i) p
  = ([], Ret (select_pair (MediaInfo.stream i)
              ++ ((kept ≫= λ s, select_pair (AudioTrack.track s))
                  ++ (positions defl kept ≫= disposition_pair))
              ++ subtitle_tokens (excluded (Profile.excluded_subtitles p))
                   (Profile.included_subtitles p) (MediaInfo.subtitle i)))
  ∧ (∀ k, k ∈ positions defl kept ↔
          ∃ s, kept !! k = Some s ∧ AudioTrack.lang s = Some defl)
  ∧ length (positions defl kept)
    = length (List.filter (λ s, bool_decide (AudioTrack.lang s = Some defl)) kept)
  ∧ (∀ pre s post,
       kept = pre ++ s :: post →
       Forall (λ x, AudioTrack.lang x ≠ Some defl) pre →
       AudioTrack.lang s = Some defl →
       ∃ more, positions defl kept = length pre :: more
               ∧ Forall (λ k, length pre < k)%nat more).
Proof.
  intros ea ia kept Hdefl Hdrop. repeat split.
  - rewrite ffmpeg_streams_closed, (default_dropped_selection _ _ Hdrop).
    unfold audio_warnings, audio_tokens. fold ea ia kept.
    by rewrite Hdrop, Hdefl.
  - intros (j & s & -> & Hj & Hs)%elem_of_positions_from. by exists s.
  - intros (s & Hk & Hs). apply elem_of_positions_from. by exists k, s.
  - apply positions_from_length.
  - intros pre s post Hkept Hpre Hs. unfold positions.
    rewrite Hkept, positions_from_app, (positions_from_none defl pre 0%nat Hpre).
    simpl.
    rewrite bool_decide_eq_true_2 by done. simpl.
    eexists. split; [done|].
    apply list.Forall_forall. intros k (j & _ & -> & _)%elem_of_positions_from.
    lia.
Qed.

Lemma default_override_pairs_witness :
  MediaInfo.ffmpeg_streams two_spanish_info exclude_english_default_spanish
  = ([], Ret ["-map"; "0:0"; "-map"; "0:2"; "-map"; "0:3";
              "-disposition:a:0"; "default"; "-disposition:a:1"; "default"]).
Proof.
  apply (default_override_pairs two_spanish exclude_english_default_spanish "spa");
    reflexivity.
Defined.

(** C6 as stated fails: the claim speaks of every MediaInfo, and on the
    invalid instance, which has no [stream], a profile that asks for
    English audio makes the method raise [AttributeError]: it returns no
    token at all. *)
Lemma selection_on_invalid_media_raises :
  no_selection include_english_audio = false
  ∧ MediaInfo.valid MediaInfo.Invalid = false
  ∧ MediaInfo.ffmpeg_streams MediaInfo.Invalid include_english_audio
    = ([], Raise (AttributeError "stream")).
Proof. by repeat split. Qed.

(** C6, amended: with no inclusion and no exclusion for audio and for
    subtitles the result is exactly [-map 0], for every MediaInfo;
    otherwise, for a valid MediaInfo, it is the selection of the video
    stream, then the audio tokens, then the subtitle tokens, and for the
    invalid one the call raises [AttributeError] on [stream] and prints
    nothing. *)
Theorem ffmpeg_streams_shape (self : MediaInfo.t) (i : MediaInfo.info) (p : Profile.t) :
  if no_selection p then
    MediaInfo.ffmpeg_streams self p = ([], Ret ["-map"; "0"])
  else
    outcome (MediaInfo.ffmpeg_streams (MediaInfo.Valid i) p)
    = Ret (["-map"; "0:" +:+ str_opt (MediaInfo.stream i)]
           ++ audio_tokens (excluded (Profile.excluded_audio p))
                (Profile.included_audio p) (Profile.default_audio p)
                (MediaInfo.audio i)
           ++ subtitle_tokens (excluded (Profile.excluded_subtitles p))
                (Profile.included_subtitles p) (MediaInfo.subtitle i))
    ∧ MediaInfo.ffmpeg_streams MediaInfo.Invalid p
      = ([], Raise (AttributeError "stream")).
Proof.
  rewrite !ffmpeg_streams_closed. by destruct (no_selection p).
Qed.

(** C10: the codec accessor never returns: whatever the recursion limit,
    the call ends in a recursion error, so it yields no value and in
    particular not the stored format; the format attribute itself holds the
    codec name the track was built with. *)
Theorem codec_never_returns (depth : nat) (self : AudioTrack.t) :
  AudioTrack.codec depth self = ([], Raise RecursionError)
  ∧ (∀ name, outcome (AudioTrack.codec depth self) ≠ Ret name)
  ∧ (∀ s l f d, AudioTrack.format (AudioTrack.Build s l f d) = f).
Proof.
  assert (AudioTrack.codec depth self = ([], Raise RecursionError)) as H.
  { induction depth as [|depth IH]; [done | exact IH]. }
  rewrite H. by repeat split.
Qed.

(** * Claims about the predicate evaluator *)

(** The names the constructor stores on an instance. *)
Definition attribute_names : list string :=
  ["valid"; "path"; "vcodec"; "stream"; "res_height"; "res_width"; "runtime";
   "filesize_mb"; "fps"; "colorspace"; "audio"; "subtitle"].

(** [pred] names an attribute of [self] that is not [None]. *)
Definition recognized (self : MediaInfo.t) (pred : string) : Prop :=
  ∃ attr, MediaInfo.__dict__ self !! pred = Some attr ∧ attr ≠ PyNone.

Lemma dict_dom (self : MediaInfo.t) (pred : string) :
  pred ∉ attribute_names → MediaInfo.__dict__ self !! pred = None.
Proof.
  unfold attribute_names. rewrite !not_elem_of_cons.
  intros (?&?&?&?&?&?&?&?&?&?&?&?&_).
  destruct self as [|i]; simpl.
  - by apply lookup_singleton_ne.
  - rewrite !lookup_insert_ne by done. by apply lookup_singleton_ne.
Qed.

(** The text an exception object carries. *)
Definition exn_text (e : exn) : string :=
  match e with
  | ValueError arg => arg
  | KeyError key => key
  | AttributeError name => name
  | OSError filename => filename
  | InvalidLiteral text => text
  | IndexError | RecursionError | TypeError => ""
  end.

(** [sub in text] *)
Fixpoint mentions (text sub : string) : bool :=
  String.prefix sub text
  || match text with
     | EmptyString => false
     | String _ text' => mentions text' sub
     end.

Lemma prefix_app (b c : string) : String.prefix b (b +:+ c) = true.
Proof.
  induction b as [|x b IH]; [by destruct c|]. simpl.
  by destruct (ascii_dec x x).
Qed.

Lemma mentions_app (a b c : string) : mentions (a +:+ b +:+ c) b = true.
Proof.
  induction a as [|x a IH]; simpl.
  - pose proof (prefix_app b c) as H.
    destruct (b +:+ c); simpl in *; by rewrite H.
  - rewrite IH. apply orb_true_r.
Qed.

Definition unknown_attribute (rulename pred : string) : string :=
  "Error: Rule " +:+ dq +:+ rulename +:+ dq +:+ " unknown attribute: " +:+ pred +:+ " ".

Definition bad_value (rulename value : string) : string :=
  "Error: Rule " +:+ dq +:+ rulename +:+ dq +:+ " valid value: " +:+ value.

(** C3 as stated fails: for the unknown attribute [bogus] of rule [hd] the
    call raises, but the exception raised carries the value expression and
    names neither the rule nor the attribute. *)
Lemma raised_error_carries_value :
  outcome (MediaInfo.eval_numeric false (λ _, "") (λ _, raise IndexError)
             english_info "hd" "bogus" "720")
  = Raise (ValueError "720")
  ∧ mentions (exn_text (ValueError "720")) "hd" = false
  ∧ mentions (exn_text (ValueError "720")) "bogus" = false.
Proof. by vm_compute. Qed.

(** C3, amended: for every rule name, value expression and attribute name
    that is not an attribute of the instance (or whose attribute is
    [None]), [eval_numeric] prints a diagnostic that holds the rule name and
    the attribute name and then raises a [ValueError] that carries the
    value expression; it does not return.  The names outside
    [attribute_names] are of this kind for every instance. *)
Theorem unknown_attribute_raises (verbose : bool) (str_other : PyVal → string)
    (eval_other : string → M bool) (self : MediaInfo.t)
    (rulename pred value : string) :
  (pred ∉ attribute_names → ¬ recognized self pred)
  ∧ (¬ recognized self pred →
     MediaInfo.eval_numeric verbose str_other eval_other self rulename pred value
     = ([unknown_attribute rulename pred], Raise (ValueError value))
     ∧ mentions (unknown_attribute rulename pred) rulename = true
     ∧ mentions (unknown_attribute rulename pred) pred = true).
Proof.
  split.
  - intros Hpred (attr & Hattr & _). by rewrite dict_dom in Hattr.
  - intros Hpred. repeat split.
    + unfold MediaInfo.eval_numeric.
      destruct (MediaInfo.__dict__ self !! pred) as [attr|] eqn:Hattr; [|done].
      destruct attr; try done; destruct Hpred; eexists; split; done.
    + apply (mentions_app ("Error: Rule " +:+ dq) rulename).
    + replace (unknown_attribute rulename pred)
        with (("Error: Rule " +:+ dq +:+ rulename +:+ dq +:+ " unknown attribute: ")
              +:+ pred +:+ " ")
        by (by rewrite !append_assoc).
      apply mentions_app.
Qed.

Lemma unknown_attribute_raises_witness :
  MediaInfo.eval_numeric false (λ _, "") (λ _, raise IndexError)
    english_info "hd" "bogus" "720"
  = ([unknown_attribute "hd" "bogus"], Raise (ValueError "720")).
Proof.
  apply (unknown_attribute_raises false (λ _, "") (λ _, raise IndexError)
           english_info "hd" "bogus" "720").
  apply (unknown_attribute_raises false (λ _, "") (λ _, raise IndexError)
           english_info "hd" "bogus" "720").
  vm_compute. intros H.
  repeat (apply elem_of_cons in H as [H|H]; [discriminate H|]).
  by apply elem_of_nil in H.
Defined.

(** For a value expression with at least one character that has no dash,
    is not numeric and does not start with [<] or [>], the evaluator prints
    the diagnostic and returns [False]. *)
Lemma unrecognized_value_returns_false (verbose : bool) (str_other : PyVal → string)
    (eval_other : string → M bool) (self : MediaInfo.t)
    (rulename pred : string) (c : ascii) (rest : string) :
  recognized self pred →
  Str.contains "-" (String c rest) = false →
  Str.isnumeric (String c rest) = false →
  Str.contains c "<>" = false →
  MediaInfo.eval_numeric verbose str_other eval_other self rulename pred (String c rest)
  = ([bad_value rulename (String c rest)], Ret false).
Proof.
  intros (attr & Hattr & Hnone) Hdash Hnum Hop.
  unfold MediaInfo.eval_numeric, MediaInfo.build_expr.
  rewrite Hattr, Hdash, Hnum, Hop.
  by destruct attr.
Qed.

(** C8 (the failing input): the empty value expression is none of the three
    forms, and on it the evaluator neither prints nor returns: reading its
    first character raises an index error. *)
Theorem empty_value_raises (verbose : bool) (str_other : PyVal → string)
    (eval_other : string → M bool) (i : MediaInfo.info) (rulename : string) :
  Str.contains "-" "" = false
  ∧ Str.isnumeric "" = false
  ∧ MediaInfo.eval_numeric verbose str_other eval_other (MediaInfo.Valid i)
      rulename "res_height" ""
    = ([], Raise IndexError).
Proof. done. Qed.

(** * Claims about the probe parser *)

(** C5: when the duration match or the video stream match fails,
    [parse_details] prints the diagnostic for the path and returns an
    instance whose only attribute is [valid], which is false: reading any
    other attribute raises.  When the duration match fails the result is
    the same whatever the three later extractions and the file size would
    give: none of them is consulted. *)
Theorem failed_match_is_invalid (getsize : string → option N) (_path output : string) :
  re.match_ video_dur output = None ∨ re.match_ video_info output = None →
  ∃ self,
    MediaInfo.parse_details getsize _path output = ([MediaInfo.failed _path], Ret self)
    ∧ MediaInfo.valid self = false
    ∧ MediaInfo.__dict__ self = {[ "valid" := PyBool false ]}
    ∧ (∀ name, name ≠ "valid" →
         MediaInfo.getattr self name = ([], Raise (AttributeError name)))
    ∧ (re.match_ video_dur output = None →
       ∀ info_match audio_finditer subtitle_finditer size,
         MediaInfo.parse_details_with (re.match_ video_dur) info_match
           audio_finditer subtitle_finditer size _path output
         = ([MediaInfo.failed _path], Ret self)).
Proof.
  intros H. exists MediaInfo.Invalid. repeat split.
  - unfold MediaInfo.parse_details, MediaInfo.parse_details_with.
    destruct H as [-> | H]; [done|].
    destruct (re.match_ video_dur output) as [match1|]; [|done].
    case_bool_decide; [done|]. by rewrite H.
  - intros name Hname. unfold MediaInfo.getattr. simpl.
    by rewrite lookup_singleton_ne.
  - intros Hdur ????. unfold MediaInfo.parse_details_with. by rewrite Hdur.
Qed.

Lemma failed_match_is_invalid_witness :
  ∃ self,
    MediaInfo.parse_details (λ _, None) "a.mkv" "a.mkv: No such file or directory"
    = ([MediaInfo.failed "a.mkv"], Ret self)
    ∧ MediaInfo.valid self = false.
Proof.
  destruct (failed_match_is_invalid (λ _, None) "a.mkv"
              "a.mkv: No such file or directory") as (self & H1 & H2 & _).
  - left. vm_compute. reflexivity.
  - exists self. by split.
Defined.

Section RuntimeRules.

Variable verbose : bool.
Variable str_other : PyVal → string.
Variable eval_other : string → M bool.
Variable i : MediaInfo.info.
Variable rulename : string.

Let eval_runtime (value : string) : result bool :=
  outcome (MediaInfo.eval_numeric verbose str_other eval_other (MediaInfo.Valid i)
             rulename "runtime" value).

Lemma dict_runtime :
  MediaInfo.__dict__ (MediaInfo.Valid i) !! "runtime"
  = Some (PyInt (MediaInfo.runtime i)).
Proof. reflexivity. Qed.

Lemma outcome_verdict (expr value : string) (attr : PyVal) (b : bool) :
  Str.comparison expr = Some b →
  outcome (b' ←' MediaInfo.eval eval_other expr;
           if negb b' then
             (if verbose then
                print ("  >> predicate " +:+ "runtime" +:+ " (" +:+ dq +:+ value
                       +:+ dq +:+ ") did not match " +:+ MediaInfo.format_attr str_other attr)
              else ret tt);;'
             ret false
           else ret true)
  = Ret b.
Proof.
  intros Hexpr. unfold MediaInfo.eval. rewrite Hexpr, bind_ret.
  destruct b; [done|]. by destruct verbose.
Qed.

Lemma runtime_range (lo hi : string) (x y : Z) :
  Str.contains "-" lo = false → Str.contains "-" hi = false →
  Str.int lo = Some x → Str.int hi = Some y →
  eval_runtime (lo +:+ "-" +:+ hi)
  = Ret (bool_decide (x * 60 ≤ MediaInfo.runtime i)%Z
         && bool_decide (MediaInfo.runtime i ≤ y * 60)%Z).
Proof.
  intros Hlo Hhi Hx Hy. unfold eval_runtime, MediaInfo.eval_numeric.
  rewrite dict_runtime. unfold MediaInfo.build_expr.
  change (lo +:+ "-" +:+ hi) with (lo +:+ String "-" hi).
  rewrite contains_app_cons, split_app_cons, split_none by done.
  rewrite decide_True by done.
  unfold MediaInfo.minutes_to_seconds. rewrite Hx, Hy, !bind_ret.
  apply outcome_verdict. apply comparison_range.
Qed.

Lemma numeric_no_dash (v : string) :
  Str.all Char.is_numeric v = true → Str.contains "-" v = false.
Proof.
  induction v as [|c v IH]; [done|]. simpl.
  intros [Hc Hv]%andb_true_iff.
  rewrite decide_False; [by apply IH|]. by intros <-.
Qed.

Lemma runtime_equal (v : string) (x : Z) :
  Str.isnumeric v = true → Str.int v = Some x →
  eval_runtime v = Ret (bool_decide (MediaInfo.runtime i = x * 60)).
Proof.
  intros Hv Hx. unfold eval_runtime, MediaInfo.eval_numeric.
  rewrite dict_runtime. unfold MediaInfo.build_expr.
  rewrite numeric_no_dash, Hv by (by destruct v).
  rewrite decide_True by done.
  unfold MediaInfo.minutes_to_seconds. rewrite Hx, !bind_ret.
  apply outcome_verdict. by etrans; [apply (comparison_binary "==")|].
Qed.

Lemma runtime_compare (c : ascii) (v : string) (x : Z) :
  Str.contains c "<>" = true → Str.contains "-" v = false → Str.int v = Some x →
  eval_runtime (String c v)
  = Ret (if decide (c = "<"%char) then bool_decide (MediaInfo.runtime i < x * 60)
         else bool_decide (MediaInfo.runtime i > x * 60)).
Proof.
  intros Hc Hv Hx. unfold eval_runtime, MediaInfo.eval_numeric.
  rewrite dict_runtime. unfold MediaInfo.build_expr.
  assert (c = "<"%char ∨ c = ">"%char) as Hop.
  { simpl in Hc. repeat case_decide; auto. done. }
  assert (Str.contains "-" (String c v) = false) as ->.
  { simpl. rewrite decide_False; [done|]. by destruct Hop as [-> | ->]. }
  assert (Str.isnumeric (String c v) = false) as ->.
  { by destruct Hop as [-> | ->]. }
  rewrite Hc, decide_True by done.
  unfold MediaInfo.minutes_to_seconds. rewrite Hx, !bind_ret.
  apply outcome_verdict.
  destruct Hop as [-> | ->].
  - by etrans; [apply (comparison_binary "<")|].
  - by etrans; [apply (comparison_binary ">")|].
Qed.

End RuntimeRules.

(** C4: for the attribute [runtime] every number of the value expression is
    multiplied by 60 before the comparison with the stored seconds: both
    bounds of a range, the value of an equality, the operand of [<] and
    [>].  In particular [90-120] holds for a runtime of 6000 seconds and
    fails for one of 8000 seconds. *)
Theorem runtime_rules_in_minutes (verbose : bool) (str_other : PyVal → string)
    (eval_other : string → M bool) (i : MediaInfo.info) (rulename : string) :
  let eval_runtime value :=
    outcome (MediaInfo.eval_numeric verbose str_other eval_other (MediaInfo.Valid i)
               rulename "runtime" value) in
  let seconds := MediaInfo.runtime i in
  (∀ lo hi x y,
     Str.contains "-" lo = false → Str.contains "-" hi = false →
     Str.int lo = Some x → Str.int hi = Some y →
     eval_runtime (lo +:+ "-" +:+ hi)
     = Ret (bool_decide (x * 60 ≤ seconds)%Z && bool_decide (seconds ≤ y * 60)%Z))
  ∧ (∀ v x,
       Str.isnumeric v = true → Str.int v = Some x →
       eval_runtime v = Ret (bool_decide (seconds = x * 60)))
  ∧ (∀ v x,
       Str.contains "-" v = false → Str.int v = Some x →
       eval_runtime ("<" +:+ v) = Ret (bool_decide (seconds < x * 60))
       ∧ eval_runtime (">" +:+ v) = Ret (bool_decide (seconds > x * 60)))
  ∧ (seconds = 6000 → eval_runtime "90-120" = Ret true)
  ∧ (seconds = 8000 → eval_runtime "90-120" = Ret false).
Proof.
  intros eval_runtime seconds. repeat split.
  - apply runtime_range.
  - apply runtime_equal.
  - by apply (runtime_compare _ _ _ _ _ "<"%char).
  - by apply (runtime_compare _ _ _ _ _ ">"%char).
  - intros Hs. unfold eval_runtime.
    rewrite (runtime_range _ _ _ _ _ "90" "120" 90 120) by done.
    fold seconds. by rewrite Hs.
  - intros Hs. unfold eval_runtime.
    rewrite (runtime_range _ _ _ _ _ "90" "120" 90 120) by done.
    fold seconds. by rewrite Hs.
Qed.

(** A file of one hundred minutes. *)
Definition hundred_minutes : MediaInfo.info :=
  {| MediaInfo.path := "a.mkv"; MediaInfo.vcodec := Some "h264";
     MediaInfo.stream := Some "0"; MediaInfo.res_height := 1080;
     MediaInfo.res_width := 1920; MediaInfo.runtime := 6000;
     MediaInfo.filesize_mb := 700 # 1; MediaInfo.fps := 23;
     MediaInfo.colorspace := Some "yuv420p";
     MediaInfo.audio := []; MediaInfo.subtitle := [] |}.

Lemma runtime_rules_in_minutes_witness :
  outcome (MediaInfo.eval_numeric false (λ _, "") (λ _, raise IndexError)
             (MediaInfo.Valid hundred_minutes) "feature" "runtime" "90-120")
  = Ret true
  ∧ outcome (MediaInfo.eval_numeric false (λ _, "") (λ _, raise IndexError)
               (MediaInfo.Valid hundred_minutes) "feature" "runtime" ">120")
    = Ret false.
Proof.
  pose proof (runtime_rules_in_minutes false (λ _, "") (λ _, raise IndexError)
                hundred_minutes "feature") as (Hrange & _ & Hcmp & H6000 & _).
  split.
  - apply H6000. reflexivity.
  - apply (Hcmp "120" 120); reflexivity.
Defined.

(** * Claims about the tracks the parser finds *)

Import Probe.

(** A report as [ffmpeg -i] prints it: one video stream, two audio streams,
    the second without language, and one subtitle stream. *)
Definition sample_lines : list line :=
  [Other "Input #0, matroska,webm, from 'a.mkv':";
   Other "  Duration: 00:30:15.04, start: 0.000000, bitrate: 4000 kb/s";
   Stream "    " "0" (Some "eng")
     "Video: h264 (High), yuv420p(progressive), 1920x1080 [SAR 1:1 DAR 16:9], 23.98 fps, 23.98 tbr, 1k tbn (default)";
   Stream "    " "1" (Some "eng")
     "Audio: ac3, 48000 Hz, 5.1(side), fltp, 640 kb/s (default)";
   Stream "    " "2" None "Audio: aac, 48000 Hz, stereo, fltp";
   Stream "    " "3" (Some "eng") "Subtitle: subrip"].

Definition sample_video : video :=
  {| v_index := "0"; v_language := Some "eng"; v_codec := "h264";
     v_more1 := " (High)"; v_pixel := "420p"; v_sep := "("%char;
     v_more2 := "progressive),"; v_width := "1920"; v_height := "1080";
     v_more3 := " [SAR 1:1 DAR 16:9],"; v_fps := "23";
     v_fraction := Some ("9"%char, "8"%char) |}.

Lemma sample_well_formed : Forall (λ l, well_formed l = true) sample_lines.
Proof. repeat constructor. Qed.

Lemma sample_has_duration : has_duration (render sample_lines).
Proof.
  exists (String.substring 0 41 (render sample_lines)), "00", "30", "15",
    (String.substring 59 345 (render sample_lines)).
  by vm_compute.
Qed.

Lemma sample_has_video : has_video (render sample_lines).
Proof.
  exists (String.substring 0 104 (render sample_lines)), sample_video,
    (String.substring 203 201 (render sample_lines)).
  by vm_compute.
Qed.

(** The same report with the one audio stream tagged [und], as ffmpeg
    prints an undetermined language. *)
Definition und_lines : list line :=
  [Other "  Duration: 00:30:15.04, start: 0.000000, bitrate: 4000 kb/s";
   Stream "    " "0" None
     "Video: h264 (High), yuv420p(progressive), 1920x1080, 25 fps, 25 tbr";
   Stream "    " "1" (Some "und") "Audio: aac, 48000 Hz, stereo, fltp"].

(** Two audio lines that carry the same stream index. *)
Definition twice_lines : list line :=
  [Other "  Duration: 00:30:15.04, start: 0.000000, bitrate: 4000 kb/s";
   Stream "    " "0" None
     "Video: h264 (High), yuv420p(progressive), 1920x1080, 25 fps, 25 tbr";
   Stream "    " "1" (Some "eng") "Audio: aac, 48000 Hz, stereo, fltp";
   Stream "    " "1" (Some "spa") "Audio: ac3, 48000 Hz, stereo, fltp"].

Definition audio_of (m : M MediaInfo.t) : list AudioTrack.t :=
  match outcome m with
  | Ret (MediaInfo.Valid i) => MediaInfo.audio i
  | _ => []
  end.







(** * Further properties of the stream mapper *)

Section StreamMapperMore.

Import MediaInfo.

Definition lost_default_warning : string :=
  "Warning: A default stream will be removed but no default language specified to replace it".

(** A profile with another default audio language, or with none. *)
Definition with_default_audio (p : Profile.t) (d : option string) : Profile.t :=
  Profile.Build (Profile.excluded_audio p) (Profile.excluded_subtitles p)
    (Profile.included_audio p) (Profile.included_subtitles p)
    d (Profile.default_subtitle p).

Definition with_default_subtitle (p : Profile.t) (d : option string) : Profile.t :=
  Profile.Build (Profile.excluded_audio p) (Profile.excluded_subtitles p)
    (Profile.included_audio p) (Profile.included_subtitles p)
    (Profile.default_audio p) d.

Lemma default_dropped_iff excludes includes streams :
  default_dropped excludes includes streams = true ↔
  ∃ s, s ∈ streams ∧ AudioTrack.is_default s = true
       ∧ (lang_in (AudioTrack.lang s) excludes = true
          ∨ (includes ≠ [] ∧ lang_in (AudioTrack.lang s) includes = false)).
Proof.
  unfold default_dropped. rewrite existsb_exists. split.
  - intros (s & Hin & [Hsel Hdef]%andb_true_iff). exists s.
    split; [by apply list_elem_of_In|]. split; [done|].
    unfold selects in Hsel. apply negb_true_iff, andb_false_iff in Hsel as [H|H].
    + right. apply orb_false_iff in H as [H1 H2]. split; [|done].
      by apply bool_decide_eq_false in H1.
    + left. by apply negb_false_iff.
  - intros (s & Hin & Hdef & Hsel). exists s.
    split; [by apply list_elem_of_In|]. rewrite Hdef, andb_true_r.
    apply negb_true_iff. unfold selects.
    destruct Hsel as [-> | [Hne ->]]; [apply andb_false_r|].
    by rewrite bool_decide_eq_false_2.
Qed.

Lemma positions_nil defl kept :
  (∀ s, s ∈ kept → AudioTrack.lang s ≠ Some defl) → positions defl kept = [].
Proof.
  intros H. apply positions_from_none, list.Forall_forall. exact H.
Qed.

Lemma override_flags_app l1 l2 :
  override_flags (l1 ++ l2) = override_flags l1 ++ override_flags l2.
Proof. unfold override_flags. apply List.filter_app. Qed.

Lemma override_flags_select {A} (track : A → option string) (l : list A) :
  override_flags (l ≫= λ s, select_pair (track s)) = [].
Proof.
  induction l as [|s l IH]; [done|].
  rewrite bind_cons, override_flags_app, IH, app_nil_r.
  unfold override_flags, select_pair. simpl.
  by destruct (str_opt (track s)).
Qed.

(** X3: the default subtitle language of a profile has no effect: the
    subtitle mapper returns the same tokens whatever default it is given,
    and so does [ffmpeg_streams] for every MediaInfo. *)
Theorem default_subtitle_is_ignored (self : t) (p : Profile.t)
    (streams : list SubtitleTrack.t) (excludes includes : option (list string))
    (d d' : option string) :
  _map_subtitle_streams streams excludes includes d
  = _map_subtitle_streams streams excludes includes d'
  ∧ ffmpeg_streams self (with_default_subtitle p d) = ffmpeg_streams self p.
Proof.
  split; [reflexivity|].
  rewrite !ffmpeg_streams_closed. unfold no_selection. simpl.
  by destruct self.
Qed.

(** X4: [ffmpeg_streams] prints the warning about a lost default exactly
    when the profile names no default audio language and some audio track
    that carries the default flag is dropped, because its language is
    excluded or is missing from a non-empty inclusion list; it prints
    nothing else, and when it warns it appends no disposition pair. *)
Theorem lost_default_is_warned (i : info) (p : Profile.t) :
  let ea := excluded (Profile.excluded_audio p) in
  let ia := Profile.included_audio p in
  let lost := default_dropped ea ia (audio i)
              && bool_decide (Profile.default_audio p = None) in
  (ffmpeg_streams (Valid i) p).1 = (if lost then [lost_default_warning] else [])
  ∧ (lost = true ↔
     Profile.default_audio p = None
     ∧ ∃ s, s ∈ audio i ∧ AudioTrack.is_default s = true
            ∧ (lang_in (AudioTrack.lang s) ea = true
               ∨ (ia ≠ [] ∧ lang_in (AudioTrack.lang s) ia = false)))
  ∧ (lost = true → override_flags (tokens_of (ffmpeg_streams (Valid i) p)) = []).
Proof.
  intros ea ia lost. split; [|split].
  - rewrite ffmpeg_streams_closed. subst lost.
    destruct (default_dropped ea ia (audio i)) eqn:Hdrop.
    + rewrite (default_dropped_selection _ _ Hdrop). simpl.
      unfold audio_warnings. fold ea ia. rewrite Hdrop.
      by destruct (Profile.default_audio p).
    + destruct (no_selection p); [done|]. simpl.
      unfold audio_warnings. fold ea ia. by rewrite Hdrop.
  - subst lost. rewrite andb_true_iff, bool_decide_eq_true, default_dropped_iff.
    tauto.
  - subst lost. intros [Hdrop Hnone%bool_decide_eq_true]%andb_true_iff.
    rewrite ffmpeg_streams_closed, (default_dropped_selection _ _ Hdrop).
    unfold tokens_of, audio_tokens, subtitle_tokens. simpl. fold ea ia.
    rewrite Hdrop, Hnone, app_nil_r.
    by rewrite override_flags_app, !override_flags_select.
Qed.

(** X5: when the profile names a default audio language that no kept audio
    track has, nothing replaces a dropped default and nothing is printed:
    the tokens are those of the same profile without default language. *)
Theorem override_needs_a_kept_track (i : info) (p : Profile.t) (d : string) :
  Profile.default_audio p = Some d →
  (∀ s, s ∈ audio i → AudioTrack.lang s = Some d →
        selects (excluded (Profile.excluded_audio p)) (Profile.included_audio p)
          (AudioTrack.lang s) = false) →
  ffmpeg_streams (Valid i) p
  = ([], Ret (tokens_of (ffmpeg_streams (Valid i) (with_default_audio p None)))).
Proof.
  intros Hd Hnone. rewrite !ffmpeg_streams_closed.
  change (no_selection (with_default_audio p None)) with (no_selection p).
  destruct (no_selection p); [done|]. simpl.
  set (ea := excluded (Profile.excluded_audio p)) in *.
  set (ia := Profile.included_audio p) in *.
  assert (positions d (kept_audio ea ia (audio i)) = []) as Hpos.
  { apply positions_nil. intros s Hs Hlang. unfold kept_audio in Hs.
    apply list_elem_of_In, filter_In in Hs as [Hin Hsel].
    apply list_elem_of_In in Hin. rewrite (Hnone s Hin Hlang) in Hsel. done. }
  unfold audio_warnings, audio_tokens, tokens_of. simpl. fold ea ia.
  rewrite Hd, Hpos. by destruct (default_dropped ea ia (audio i)).
Qed.

(** One English default track and one French track; French is excluded
    and named as the default. *)
Definition english_french : info :=
  {| path := "a.mkv"; vcodec := Some "h264"; stream := Some "0";
     res_height := 1080; res_width := 1920; runtime := 1815;
     filesize_mb := 700 # 1; fps := 23; colorspace := Some "yuv420p";
     audio := [AudioTrack.Build (Some "1") (Some "fre") (Some "ac3") (Some "default");
               AudioTrack.Build (Some "2") (Some "eng") (Some "aac") None];
     subtitle := [] |}.

Definition exclude_french_default_french : Profile.t :=
  Profile.Build (Some ["fre"]) None [] [] (Some "fre") None.

Lemma override_needs_a_kept_track_witness :
  ffmpeg_streams (Valid english_french) exclude_french_default_french
  = ([], Ret ["-map"; "0:0"; "-map"; "0:2"]).
Proof.
  apply (override_needs_a_kept_track english_french exclude_french_default_french
           "fre"); [reflexivity|].
  intros s Hs Hlang. unfold selects. simpl. rewrite Hlang. reflexivity.
Defined.

Lemma lang_in_nil (l : option string) : lang_in l [] = false.
Proof.
  unfold lang_in. destruct l; [|done].
  apply bool_decide_eq_false_2, not_elem_of_nil.
Qed.

Lemma selects_all (l : option string) : selects [] [] l = true.
Proof. unfold selects. by rewrite lang_in_nil. Qed.

(** X6: a selection configured for one kind of track alone leaves the other
    kind complete: with no audio inclusion and no audio exclusion every
    audio track is mapped, in order and with no disposition pair, and with
    no subtitle inclusion and no subtitle exclusion every subtitle track is
    mapped. *)
Theorem unfiltered_tracks_all_mapped (i : info) (p : Profile.t) :
  no_selection p = false →
  (Profile.included_audio p = [] → excluded (Profile.excluded_audio p) = [] →
   ffmpeg_streams (Valid i) p
   = ([], Ret (select_pair (stream i)
               ++ (audio i ≫= λ s, select_pair (AudioTrack.track s))
               ++ subtitle_tokens (excluded (Profile.excluded_subtitles p))
                    (Profile.included_subtitles p) (subtitle i))))
  ∧ (Profile.included_subtitles p = [] →
     excluded (Profile.excluded_subtitles p) = [] →
     outcome (ffmpeg_streams (Valid i) p)
     = Ret (select_pair (stream i)
            ++ audio_tokens (excluded (Profile.excluded_audio p))
                 (Profile.included_audio p) (Profile.default_audio p) (audio i)
            ++ (subtitle i ≫= λ s, select_pair (SubtitleTrack.track s)))).
Proof.
  intros Hsel. rewrite ffmpeg_streams_closed, Hsel. split.
  - intros -> ->. cbv zeta.
    assert (∀ l, kept_audio [] [] l = l) as Hkept.
    { induction l as [|s l IH]; [done|]. unfold kept_audio in *.
      cbn [List.filter]. by rewrite selects_all, IH. }
    assert (default_dropped [] [] (audio i) = false) as Hdrop.
    { destruct (default_dropped [] [] (audio i)) eqn:H; [|done].
      apply default_dropped_iff in H as (s & _ & _ & [H | [H _]]); [|done].
      by rewrite lang_in_nil in H. }
    unfold audio_warnings, audio_tokens. rewrite Hdrop, Hkept.
    by rewrite app_nil_r.
  - intros -> ->. unfold outcome. cbv zeta. cbn [snd]. unfold subtitle_tokens.
    assert (∀ l, kept_subtitle [] [] l = l) as Hkept.
    { induction l as [|s l IH]; [done|]. unfold kept_subtitle in *.
      cbn [List.filter]. by rewrite selects_all, IH. }
    by rewrite Hkept.
Qed.

(** Two audio tracks and two subtitle tracks; only Spanish subtitles are
    excluded. *)
Definition mixed_tracks : info :=
  {| path := "a.mkv"; vcodec := Some "h264"; stream := Some "0";
     res_height := 1080; res_width := 1920; runtime := 1815;
     filesize_mb := 700 # 1; fps := 23; colorspace := Some "yuv420p";
     audio := [AudioTrack.Build (Some "1") (Some "eng") (Some "ac3") (Some "default");
               AudioTrack.Build (Some "2") (Some "spa") (Some "aac") None];
     subtitle := [SubtitleTrack.Build (Some "3") (Some "eng");
                  SubtitleTrack.Build (Some "4") (Some "spa")] |}.

Definition exclude_spanish_subtitles : Profile.t :=
  Profile.Build None (Some ["spa"]) [] [] None None.

Lemma unfiltered_tracks_all_mapped_witness :
  ffmpeg_streams (Valid mixed_tracks) exclude_spanish_subtitles
  = ([], Ret ["-map"; "0:0"; "-map"; "0:1"; "-map"; "0:2"; "-map"; "0:3"]).
Proof.
  apply (unfiltered_tracks_all_mapped mixed_tracks exclude_spanish_subtitles);
    reflexivity.
Defined.

End StreamMapperMore.

(** * Further properties of the predicate evaluator *)

(** The characters of a decimal literal. *)
Definition literal_char (c : ascii) : bool :=
  Char.is_decimal c || bool_decide (c = "_"%char).

Lemma digits_chars (s : string) : ∀ acc b n,
  Str.digits s acc b = Some n → Str.all literal_char s = true.
Proof.
  induction s as [|c s IH]; intros acc b n; simpl; [done|].
  unfold Char.digit_value, literal_char.
  destruct (Char.is_decimal c); simpl; [by apply IH|].
  destruct (decide (c = "_"%char)) as [->|]; [|done].
  destruct b; [|done]. by apply IH.
Qed.

Lemma literal_chars (s : string) (x : Z) :
  Str.literal s = Some x → Str.all literal_char s = true.
Proof.
  unfold Str.literal. destruct s as [|c s]; [done|].
  destruct (decide (c = "0"%char)); [|apply digits_chars].
  destruct (Str.digits (String c s) 0 false) eqn:H; [|done].
  intros _. by eapply digits_chars.
Qed.

Lemma all_contains (p : ascii → bool) (c : ascii) (s : string) :
  Str.all p s = true → p c = false → Str.contains c s = false.
Proof.
  intros Hs Hc. induction s as [|d s IH]; [done|]. simpl in *.
  apply andb_true_iff in Hs as [Hd Hs].
  rewrite decide_False; [by apply IH | congruence].
Qed.

Lemma literal_without (c : ascii) (s : string) (x : Z) :
  Str.literal s = Some x → literal_char c = false → Str.contains c s = false.
Proof. intros Hs Hc. eapply all_contains; [by eapply literal_chars | done]. Qed.

Lemma literal_operand (s : string) (x : Z) :
  Str.literal s = Some x → Str.operand s = Some x.
Proof.
  intros H. pose proof (literal_chars s x H) as Hs.
  unfold Str.operand. destruct s as [|c s]; [done|].
  rewrite decide_False; [done|]. intros ->. done.
Qed.

Lemma comparison_range_text (lo hi : string) (b x y : Z) :
  Str.literal lo = Some x → Str.literal hi = Some y →
  Str.comparison (lo +:+ " <= " +:+ pretty b +:+ " <= " +:+ hi)
  = Some (bool_decide (x ≤ b)%Z && bool_decide (b ≤ y)%Z).
Proof.
  intros Hlo Hhi. unfold Str.comparison.
  change (" <= " +:+ pretty b +:+ " <= " +:+ hi)
    with (String " " ("<=" +:+ String " " (pretty b +:+ String " "
            ("<=" +:+ String " " hi)))).
  rewrite split_app_cons by (by eapply literal_without).
  rewrite split_app_cons by done.
  rewrite split_app_cons by (by apply contains_pretty).
  rewrite split_app_cons by done.
  rewrite split_none by (by eapply literal_without).
  by rewrite operand_pretty, (literal_operand lo x), (literal_operand hi y).
Qed.

Lemma comparison_binary_text (op v : string) (a x : Z) :
  Str.contains " " op = false → Str.literal v = Some x →
  Str.comparison (pretty a +:+ " " +:+ op +:+ " " +:+ v)
  = if decide (op = "==") then Some (bool_decide (a = x))
    else if decide (op = "<") then Some (bool_decide (a < x)%Z)
    else if decide (op = ">") then Some (bool_decide (a > x)%Z)
    else None.
Proof.
  intros Hop Hv. unfold Str.comparison.
  change (" " +:+ op +:+ " " +:+ v) with (String " " (op +:+ String " " v)).
  rewrite split_app_cons by (by apply contains_pretty).
  rewrite split_app_cons by done.
  rewrite split_none by (by eapply literal_without).
  by rewrite operand_pretty, (literal_operand v x).
Qed.

Lemma split_go_length_pos (sep : ascii) (s : string) : ∀ cur,
  (1 ≤ length (Str.split_go sep cur s))%nat.
Proof.
  induction s as [|c s IH]; intros cur; simpl; [lia|].
  destruct (decide (c = sep)); simpl; [lia | apply IH].
Qed.

Lemma split_go_length_app (sep : ascii) (a r : string) : ∀ cur,
  length (Str.split_go sep cur (a +:+ String sep r))
  = (length (Str.split_go sep cur a) + length (Str.split_go sep "" r))%nat.
Proof.
  induction a as [|c a IH]; intros cur.
  - simpl. by rewrite decide_True.
  - rewrite append_cons. simpl. destruct (decide (c = sep)); simpl; by rewrite IH.
Qed.

(** A text with two separators splits into three parts or more. *)
Lemma split_three (sep : ascii) (a b c : string) :
  (3 ≤ length (Str.split sep (a +:+ String sep (b +:+ String sep c))))%nat.
Proof.
  unfold Str.split. rewrite !split_go_length_app.
  pose proof (split_go_length_pos sep a "").
  pose proof (split_go_length_pos sep b "").
  pose proof (split_go_length_pos sep c "").
  lia.
Qed.

Section EvaluatorMore.

Import MediaInfo.

Variable verbose : bool.
Variable str_other : PyVal → string.
Variable eval_other : string → M bool.

(** The line a predicate that does not hold prints under [verbose]. *)
Definition mismatch (pred value attr : string) : string :=
  "  >> predicate " +:+ pred +:+ " (" +:+ dq +:+ value +:+ dq
  +:+ ") did not match " +:+ attr.

(** What the evaluation of a comparison prints: nothing when it holds, the
    line above under [verbose] when it does not. *)
Definition report (pred value : string) (attr : Z) (b : bool) : list string :=
  if b then [] else if verbose then [mismatch pred value (pretty attr)] else [].

Definition bad_range (rulename value : string) : string :=
  "Error: Rule " +:+ dq +:+ rulename +:+ dq +:+ " bad range expression: "
  +:+ value +:+ " ".

Lemma verdict (pred expr value : string) (a : Z) (b : bool) :
  Str.comparison expr = Some b →
  (b' ←' eval eval_other expr;
   if negb b' then
     (if verbose then
        print ("  >> predicate " +:+ pred +:+ " (" +:+ dq +:+ value
               +:+ dq +:+ ") did not match " +:+ format_attr str_other (PyInt a))
      else ret tt);;'
     ret false
   else ret true)
  = (report pred value a b, Ret b).
Proof.
  intros Hexpr. unfold eval, report. rewrite Hexpr, bind_ret.
  destruct b; [done|]. by destruct verbose.
Qed.

Lemma compare_value (c : ascii) (v : string) :
  Str.contains c "<>" = true → Str.contains "-" v = false →
  (c = "<"%char ∨ c = ">"%char)
  ∧ Str.contains "-" (String c v) = false
  ∧ Str.isnumeric (String c v) = false.
Proof.
  intros Hc Hv.
  assert (c = "<"%char ∨ c = ">"%char) as Hop.
  { simpl in Hc. repeat case_decide; auto. done. }
  split; [done|]. split.
  - simpl. rewrite decide_False; [done|]. by destruct Hop as [-> | ->].
  - by destruct Hop as [-> | ->].
Qed.

(** X7: for an integer attribute other than [runtime] the numbers of the
    value expression are compared as written, with no conversion: a range
    holds when the attribute lies between the two literals, bounds
    included, an equality when it equals the literal, [<] and [>] when it
    is below or above it.  A comparison that holds prints nothing; one that
    does not prints one line under [verbose], which shows the value as
    written for a range and an equality and without its operator for [<]
    and [>]. *)
Theorem plain_attributes_compare_as_written (self : t) (rulename pred : string)
    (a : Z) :
  pred ≠ "runtime" → __dict__ self !! pred = Some (PyInt a) →
  let run := eval_numeric verbose str_other eval_other self rulename pred in
  (∀ lo hi x y,
     Str.literal lo = Some x → Str.literal hi = Some y →
     let b := bool_decide (x ≤ a)%Z && bool_decide (a ≤ y)%Z in
     run (lo +:+ "-" +:+ hi) = (report pred (lo +:+ "-" +:+ hi) a b, Ret b))
  ∧ (∀ v x,
       Str.isnumeric v = true → Str.literal v = Some x →
       let b := bool_decide (a = x) in
       run v = (report pred v a b, Ret b))
  ∧ (∀ v x,
       Str.literal v = Some x →
       run ("<" +:+ v)
       = (report pred v a (bool_decide (a < x)%Z), Ret (bool_decide (a < x)%Z))
       ∧ run (">" +:+ v)
         = (report pred v a (bool_decide (a > x)%Z), Ret (bool_decide (a > x)%Z))).
Proof.
  intros Hpred Hattr run.
  assert (∀ c v x,
            Str.contains c "<>" = true → Str.literal v = Some x →
            run (String c v)
            = (report pred v a
                 (if decide (c = "<"%char) then bool_decide (a < x)%Z
                  else bool_decide (a > x)%Z),
               Ret (if decide (c = "<"%char) then bool_decide (a < x)%Z
                    else bool_decide (a > x)%Z))) as Hcmp.
  { intros c v x Hc Hv. subst run. unfold eval_numeric, build_expr.
    rewrite Hattr.
    destruct (compare_value c v Hc) as (Hop & -> & ->);
      [by eapply literal_without|].
    rewrite Hc, decide_False, !bind_ret by done.
    apply verdict. destruct Hop as [-> | ->].
    - by etrans; [apply (comparison_binary_text "<")|].
    - by etrans; [apply (comparison_binary_text ">")|]. }
  split; [|split].
  - intros lo hi x y Hlo Hhi b. subst run. unfold eval_numeric, build_expr.
    rewrite Hattr.
    change (lo +:+ "-" +:+ hi) with (lo +:+ String "-" hi).
    rewrite contains_app_cons, split_app_cons, split_none
      by (by eapply literal_without).
    rewrite decide_False, !bind_ret by done.
    apply verdict. by apply comparison_range_text.
  - intros v x Hnum Hv b. subst run. unfold eval_numeric, build_expr.
    rewrite Hattr, (literal_without "-" v x), Hnum by done.
    rewrite decide_False, !bind_ret by done.
    apply verdict. by etrans; [apply (comparison_binary_text "==")|].
  - intros v x Hv. split.
    + by apply (Hcmp "<"%char).
    + by apply (Hcmp ">"%char).
Qed.

(** X8: a value expression with two dashes or more is refused for every
    attribute the instance has: the evaluator prints that the range is bad
    and raises a [ValueError] that carries the value expression. *)
Theorem two_dashes_are_refused (self : t) (rulename pred a b c : string) :
  recognized self pred →
  let value := a +:+ "-" +:+ b +:+ "-" +:+ c in
  eval_numeric verbose str_other eval_other self rulename pred value
  = ([bad_range rulename value], Raise (ValueError value)).
Proof.
  intros (attr & Hattr & Hnone) value. unfold eval_numeric, build_expr.
  rewrite Hattr. subst value.
  change (a +:+ "-" +:+ b +:+ "-" +:+ c)
    with (a +:+ String "-" (b +:+ String "-" c)).
  rewrite contains_app_cons.
  pose proof (split_three "-" a b c) as Hlen.
  destruct (Str.split "-" (a +:+ String "-" (b +:+ String "-" c)))
    as [|p1 [|p2 [|p3 parts]]]; simpl in Hlen; try lia.
  by destruct attr.
Qed.

(** X9: for [runtime] every number of the value expression goes through
    [int] before anything is evaluated; where [int] refuses a range bound,
    an equality value or the operand of [<] or [>], the evaluator raises
    the error of [int] for that text and prints nothing. *)
Theorem runtime_needs_integers (i : info) (rulename : string) :
  let run := eval_numeric verbose str_other eval_other (Valid i) rulename "runtime" in
  (∀ lo hi,
     Str.contains "-" lo = false → Str.contains "-" hi = false →
     Str.int lo = None →
     run (lo +:+ "-" +:+ hi) = ([], Raise (InvalidLiteral lo)))
  ∧ (∀ lo hi x,
       Str.contains "-" lo = false → Str.contains "-" hi = false →
       Str.int lo = Some x → Str.int hi = None →
       run (lo +:+ "-" +:+ hi) = ([], Raise (InvalidLiteral hi)))
  ∧ (∀ v, Str.isnumeric v = true → Str.int v = None →
          run v = ([], Raise (InvalidLiteral v)))
  ∧ (∀ c v,
       Str.contains c "<>" = true → Str.contains "-" v = false →
       Str.int v = None →
       run (String c v) = ([], Raise (InvalidLiteral v))).
Proof.
  intros run. subst run. unfold eval_numeric. rewrite dict_runtime.
  unfold build_expr. repeat split.
  - intros lo hi Hlo Hhi Hint.
    change (lo +:+ "-" +:+ hi) with (lo +:+ String "-" hi).
    rewrite contains_app_cons, split_app_cons, split_none by done.
    rewrite decide_True by done. unfold minutes_to_seconds. by rewrite Hint.
  - intros lo hi x Hlo Hhi Hx Hint.
    change (lo +:+ "-" +:+ hi) with (lo +:+ String "-" hi).
    rewrite contains_app_cons, split_app_cons, split_none by done.
    rewrite decide_True by done. unfold minutes_to_seconds.
    by rewrite Hx, Hint.
  - intros v Hnum Hint.
    rewrite numeric_no_dash, Hnum by (by destruct v).
    rewrite decide_True by done. unfold minutes_to_seconds. by rewrite Hint.
  - intros c v Hc Hv Hint.
    destruct (compare_value c v Hc Hv) as (_ & -> & ->).
    rewrite Hc, decide_True by done. unfold minutes_to_seconds. by rewrite Hint.
Qed.

(** X10: what a [runtime] predicate prints.  A predicate that holds prints
    nothing; one that does not prints, under [verbose] only, one line that
    shows the stored seconds and the value: as written, in minutes, for a
    range, converted to seconds for an equality and for [<] and [>]. *)
Theorem runtime_mismatch_report (i : info) (rulename : string) :
  let run := eval_numeric verbose str_other eval_other (Valid i) rulename "runtime" in
  let seconds := runtime i in
  (∀ lo hi x y,
     Str.contains "-" lo = false → Str.contains "-" hi = false →
     Str.int lo = Some x → Str.int hi = Some y →
     let b := bool_decide (x * 60 ≤ seconds)%Z && bool_decide (seconds ≤ y * 60)%Z in
     run (lo +:+ "-" +:+ hi)
     = (report "runtime" (lo +:+ "-" +:+ hi) seconds b, Ret b))
  ∧ (∀ v x,
       Str.isnumeric v = true → Str.int v = Some x →
       let b := bool_decide (seconds = x * 60) in
       run v = (report "runtime" (pretty (x * 60)) seconds b, Ret b))
  ∧ (∀ v x,
       Str.contains "-" v = false → Str.int v = Some x →
       let b := bool_decide (seconds < x * 60)%Z in
       run ("<" +:+ v) = (report "runtime" (pretty (x * 60)) seconds b, Ret b)).
Proof.
  intros run seconds. subst run. unfold eval_numeric. rewrite dict_runtime.
  unfold build_expr. repeat split.
  - intros lo hi x y Hlo Hhi Hx Hy.
    change (lo +:+ "-" +:+ hi) with (lo +:+ String "-" hi).
    rewrite contains_app_cons, split_app_cons, split_none by done.
    rewrite decide_True by done.
    unfold minutes_to_seconds. rewrite Hx, Hy, !bind_ret.
    apply verdict. apply comparison_range.
  - intros v x Hnum Hx.
    rewrite numeric_no_dash, Hnum by (by destruct v).
    rewrite decide_True by done.
    unfold minutes_to_seconds. rewrite Hx, !bind_ret.
    apply verdict. by etrans; [apply (comparison_binary "==")|].
  - intros v x Hv Hx.
    destruct (compare_value "<" v eq_refl Hv) as (_ & Hdash & Hnum).
    change ("<" +:+ v) with (String "<" v). rewrite Hdash, Hnum.
    cbn [Str.contains]. rewrite decide_True by done.
    rewrite decide_True by done.
    unfold minutes_to_seconds. rewrite Hx, !bind_ret.
    apply verdict. by etrans; [apply (comparison_binary "<")|].
Qed.

End EvaluatorMore.

Lemma plain_attributes_compare_as_written_witness :
  MediaInfo.eval_numeric true (λ _, "") (λ _, raise IndexError)
    english_info "hd" "res_height" "720-1080"
  = ([], Ret true)
  ∧ MediaInfo.eval_numeric true (λ _, "") (λ _, raise IndexError)
      english_info "hd" "res_height" ">1080"
    = ([mismatch "res_height" "1080" "1080"], Ret false).
Proof.
  destruct (plain_attributes_compare_as_written true (λ _, "")
              (λ _, raise IndexError) english_info "hd" "res_height" 1080)
    as (Hrange & _ & Hcmp); [discriminate | reflexivity |].
  split.
  - apply (Hrange "720" "1080" 720 1080); reflexivity.
  - apply (Hcmp "1080" 1080). reflexivity.
Defined.

Lemma two_dashes_are_refused_witness :
  MediaInfo.eval_numeric false (λ _, "") (λ _, raise IndexError)
    english_info "recent" "res_height" "2020-01-01"
  = ([bad_range "recent" "2020-01-01"], Raise (ValueError "2020-01-01")).
Proof.
  apply (two_dashes_are_refused false (λ _, "") (λ _, raise IndexError)
           english_info "recent" "res_height" "2020" "01" "01").
  exists (PyInt 1080). split; [reflexivity | discriminate].
Defined.

Lemma runtime_needs_integers_witness :
  MediaInfo.eval_numeric false (λ _, "") (λ _, raise IndexError)
    english_info "short" "runtime" "<=30"
  = ([], Raise (InvalidLiteral "=30"))
  ∧ MediaInfo.eval_numeric false (λ _, "") (λ _, raise IndexError)
      english_info "short" "runtime" "-30"
    = ([], Raise (InvalidLiteral "")).
Proof.
  destruct (runtime_needs_integers false (λ _, "") (λ _, raise IndexError)
              english "short") as (Hlow & _ & _ & Hcmp).
  split.
  - apply (Hcmp "<"%char "=30"); reflexivity.
  - apply (Hlow "" "30"); reflexivity.
Defined.

Lemma runtime_mismatch_report_witness :
  MediaInfo.eval_numeric true (λ _, "") (λ _, raise IndexError)
    (MediaInfo.Valid hundred_minutes) "feature" "runtime" "90"
  = ([mismatch "runtime" "5400" "6000"], Ret false)
  ∧ MediaInfo.eval_numeric true (λ _, "") (λ _, raise IndexError)
      (MediaInfo.Valid hundred_minutes) "feature" "runtime" "10-20"
    = ([mismatch "runtime" "10-20" "6000"], Ret false).
Proof.
  destruct (runtime_mismatch_report true (λ _, "") (λ _, raise IndexError)
              hundred_minutes "feature") as (Hrange & Heq & _).
  split.
  - apply (Heq "90" 90); reflexivity.
  - apply (Hrange "10" "20" 10 20); reflexivity.
Defined.

(** * The match the engine returns

    Where the text is known piece by piece the matcher can be followed
    step by step: a greedy repetition that is followed by a success takes
    the whole run, a greedy [.*] stops at the last position from which the
    rest of the pattern matches, a lazy one at the first. *)

Section FirstMatch.

Import Outs.

Context {R : Type}.
Implicit Types (k : cont R) (r : R).

Lemma run_seq_cons f (x : regex) (rs : list regex) prev s caps k :
  run f (seq (x :: rs)) prev s caps k
  = run f x prev s caps (λ prev' s' caps', run f (seq rs) prev' s' caps' k).
Proof. reflexivity. Qed.

Lemma run_seq_nil f prev s caps k : run f (seq []) prev s caps k = k prev s caps.
Proof. reflexivity. Qed.

Lemma run_text f (t : string) rest prev caps k :
  run f (Text t) prev (list_ascii_of_string t ++ rest) caps k
  = k (after prev (list_ascii_of_string t)) rest caps.
Proof.
  simpl.
  by rewrite (proj2 (strip_prefix_Some (list_ascii_of_string t) prev _
                       (after prev (list_ascii_of_string t), rest))).
Qed.

Lemma run_text_miss f (t : string) s prev caps k :
  (∀ rest, s ≠ list_ascii_of_string t ++ rest) →
  run f (Text t) prev s caps k = None.
Proof.
  intros Hmiss. simpl.
  destruct (strip_prefix _ prev s) as [[p' s']|] eqn:H; [|done].
  apply strip_prefix_Some in H as [Hs _]. by destruct (Hmiss s').
Qed.

(** A greedy run that is followed by a success is taken whole. *)
Lemma star_max (ok : ascii → bool) (u v : list ascii)
    (k' : option ascii → list ascii → option R) r : ∀ prev,
  all_ok ok u → stops ok v → k' (after prev u) v = Some r →
  star ok prev (u ++ v) k' = Some r.
Proof.
  induction u as [|c u IH]; intros prev Hu Hv Hk.
  - simpl in *. destruct v as [|d v]; [done|]. simpl in *. by rewrite Hv.
  - apply all_ok_cons in Hu as [Hc Hu]. simpl. rewrite Hc.
    rewrite after_cons in Hk. by rewrite (IH (Some c)).
Qed.

Lemma run_plus_max f a (u v : list ascii) prev caps k r :
  u ≠ [] → all_ok (accepts f a) u → stops (accepts f a) v →
  k (after prev u) v caps = Some r →
  run f (Plus a) prev (u ++ v) caps k = Some r.
Proof.
  intros Hne Hu Hv Hk. destruct u as [|c u]; [done|].
  apply all_ok_cons in Hu as [Hc Hu]. simpl. rewrite Hc.
  rewrite after_cons in Hk. by apply star_max.
Qed.

(** A greedy repetition from behind whose every later position fails what
    follows stops where what follows succeeds. *)
Lemma star_none_later (ok : ascii → bool)
    (k' : option ascii → list ascii → option R) (s : list ascii) : ∀ prev,
  (∀ u s' p, u ≠ [] → s = u ++ s' → k' p s' = None) →
  star ok prev s k' = k' prev s.
Proof.
  induction s as [|c s IH]; intros prev Hlater; [done|]. simpl.
  destruct (ok c); [|done].
  rewrite IH.
  - by rewrite (Hlater [c] s (Some c)).
  - intros u s' p Hu ->. by apply (Hlater (c :: u) s' p).
Qed.

Lemma star_last (ok : ascii → bool) (pre s : list ascii)
    (k' : option ascii → list ascii → option R) r : ∀ prev,
  all_ok ok pre →
  (∀ u s' p, u ≠ [] → s = u ++ s' → k' p s' = None) →
  k' (after prev pre) s = Some r →
  star ok prev (pre ++ s) k' = Some r.
Proof.
  induction pre as [|c pre IH]; intros prev Hpre Hlater Hk.
  - simpl in *. by rewrite star_none_later.
  - apply all_ok_cons in Hpre as [Hc Hpre]. simpl. rewrite Hc.
    rewrite after_cons in Hk. by rewrite (IH (Some c)).
Qed.

(** A lazy repetition stops at the first position from which what follows
    succeeds. *)
Lemma lazy_first (ok : ascii → bool) (u v : list ascii)
    (k' : option ascii → list ascii → option R) r : ∀ prev,
  all_ok ok u →
  (∀ u1 u2, u = u1 ++ u2 → u2 ≠ [] → k' (after prev u1) (u2 ++ v) = None) →
  k' (after prev u) v = Some r →
  lazy_star ok prev (u ++ v) k' = Some r.
Proof.
  induction u as [|c u IH]; intros prev Hu Hearlier Hk.
  - rewrite after_nil in Hk. destruct v as [|d v]; simpl; by rewrite Hk.
  - apply all_ok_cons in Hu as [Hc Hu].
    pose proof (Hearlier [] (c :: u) eq_refl) as H0. rewrite after_nil in H0.
    simpl in *. rewrite H0 by done. rewrite Hc.
    apply IH; [done| |by rewrite after_cons in Hk].
    intros u1 u2 -> Hu2. rewrite <- (after_cons prev).
    by apply (Hearlier (c :: u1) u2).
Qed.

End FirstMatch.

Section FirstMatchLines.

Import Outs.

Context {R : Type}.
Implicit Types (k : cont R) (r : R).

(** The matcher depends on its continuation through its values only. *)
Lemma run_ext f (x : regex) prev s caps k k' :
  (∀ prev' s' caps', k prev' s' caps' = k' prev' s' caps') →
  run f x prev s caps k = run f x prev s caps k'.
Proof. intros H. rewrite !run_first. apply first_ext. intros st. apply H. Qed.

Lemma run_seq_app f (l1 l2 : list regex) : ∀ prev s caps k,
  run f (seq (l1 ++ l2)) prev s caps k
  = run f (seq l1) prev s caps (λ prev' s' caps', run f (seq l2) prev' s' caps' k).
Proof.
  induction l1 as [|x l1 IH]; intros prev s caps k; [done|].
  rewrite <- app_comm_cons, !run_seq_cons. apply run_ext.
  intros prev' s' caps'. apply IH.
Qed.

Lemma run_opt_take f (x : regex) prev s caps k r :
  run f x prev s caps k = Some r → run f (Opt x) prev s caps k = Some r.
Proof. intros H. simpl. by rewrite H. Qed.

Lemma run_opt_skip f (x : regex) prev s caps k :
  run f x prev s caps k = None → run f (Opt x) prev s caps k = k prev s caps.
Proof. intros H. simpl. by rewrite H. Qed.

Lemma run_group f n name (x : regex) prev s caps k :
  run f (Group n name x) prev s caps k
  = run f x prev s caps (λ prev' s' caps', k prev' s' (<[n := taken s s']> caps')).
Proof. reflexivity. Qed.

(** The start of a stream line, followed by a colon. *)
Lemma stream_head_first f prev ws idx tag X k r :
  at_bol f prev = true → head_ok ws idx tag → starts_with ":" X →
  k (after prev (stream_text ws idx tag)) X (head_caps idx tag) = Some r →
  run f (seq stream_head) prev (stream_text ws idx tag ++ X) ∅ k = Some r.
Proof.
  intros Hbol [Hws1 Hws2 Hidx1 Hidx2 Htag] [X' ->] Hk.
  unfold stream_head, stream_text. rewrite <- !app_assoc.
  rewrite run_seq_cons. cbn [run]. rewrite Hbol.
  rewrite run_seq_cons. apply run_plus_max; [done..|].
  rewrite run_seq_cons, run_text.
  rewrite run_seq_cons, run_group.
  apply run_plus_max; [done|done|by destruct tag|].
  rewrite taken_app, run_seq_cons.
  unfold stream_text in Hk. rewrite !after_app in Hk.
  destruct tag as [w|]; cbn [tag_chars head_caps] in *.
  - destruct (Htag w eq_refl) as [Hw1 Hw2].
    apply run_opt_take. rewrite run_group.
    replace (("("%char :: w ++ [")"%char]) ++ ":"%char :: X')
      with (list_ascii_of_string "(" ++ w ++ list_ascii_of_string ")"
            ++ ":"%char :: X') by same_text.
    rewrite run_seq_cons, run_text, run_seq_cons, run_group.
    apply run_plus_max; [done..|].
    rewrite run_seq_cons, run_text, run_seq_nil, run_seq_nil.
    rewrite taken_app, taken_tag. cbn [tag_chars].
    rewrite <- Hk. f_equal. by rewrite <- !after_app.
  - rewrite app_nil_l in *. rewrite app_nil_r in Hk || idtac.
    rewrite run_opt_skip; [by rewrite run_seq_nil|].
    rewrite run_group, run_seq_cons. by apply run_text_miss.
Qed.

(** The default marker at the end of a line, when the line has one. *)
Definition marker (dflt : bool) : list ascii :=
  if dflt then list_ascii_of_string "(default)" else [].

Lemma eol_not_inline (d : ascii) (v : list ascii) :
  inline d = true → at_eol multiline (d :: v) = false.
Proof.
  unfold inline. intros Hd%negb_true_iff. simpl. by rewrite Hd.
Qed.

Lemma eol_not_marker (following : list ascii) :
  eol following → ∀ rest, following ≠ list_ascii_of_string "(default)" ++ rest.
Proof.
  intros Hf rest ->. by vm_compute in Hf.
Qed.

(** What is left of a line once the marker has been read ends the line
    only when the marker was the end of the line. *)
Lemma marker_ends_line (x following s' : list ascii) :
  all_ok inline x → eol following →
  x ++ following = list_ascii_of_string "(default)" ++ s' →
  at_eol multiline s' = true → x = list_ascii_of_string "(default)".
Proof.
  intros Hx Hf Heq Hs'.
  apply (span_unique inline) in Heq as [-> _]; try done.
  - by repeat constructor.
  - by apply eol_stops.
  - by apply eol_stops.
Qed.

Lemma audio_tail_first prev fmt rest following (dflt : bool) caps k r :
  fmt ≠ [] → all_ok Char.is_word fmt → all_ok inline rest → eol following →
  stops Char.is_word (rest ++ marker dflt ++ following) →
  (dflt = false → ∀ front, rest ≠ front ++ list_ascii_of_string "(default)") →
  (∀ p, k p following (audio_caps fmt dflt caps) = Some r) →
  run multiline (seq audio_tail) prev
    (list_ascii_of_string ": Audio: " ++ fmt ++ rest ++ marker dflt ++ following)
    caps k = Some r.
Proof.
  intros Hfmt1 Hfmt2 Hrest Hf Hstop Hnot Hk. unfold audio_tail.
  rewrite run_seq_cons, run_text, run_seq_cons, run_group.
  apply run_plus_max; [done..|].
  rewrite taken_app, run_seq_cons. cbn [run].
  apply lazy_first.
  - eapply all_ok_impl; [|exact Hrest]. by intros c Hc.
  - intros u1 u2 -> Hu2. destruct u2 as [|d u2]; [done|].
    apply all_ok_app in Hrest as [_ Hu2'].
    rewrite run_seq_cons. cbn [run].
    destruct (strip_prefix _ _ _) as [[p' s']|] eqn:Hstrip.
    + apply strip_prefix_Some in Hstrip as [Hs _]. cbn [fst snd] in Hs.
      rewrite run_seq_cons. cbn [run].
      destruct (at_eol multiline s') eqn:Hs'.
      * exfalso. rewrite app_assoc in Hs.
        apply marker_ends_line in Hs; [| |done|done].
        -- destruct dflt; cbn [marker] in Hs.
           ++ apply (f_equal length) in Hs. rewrite length_app in Hs.
              simpl in Hs. lia.
           ++ rewrite app_nil_r in Hs. apply (Hnot eq_refl u1). by rewrite Hs.
        -- apply all_ok_app. split; [done|].
           destruct dflt; [by repeat constructor | apply all_ok_nil].
      * rewrite run_seq_cons. cbn [run].
        apply all_ok_cons in Hu2' as [Hd _].
        by rewrite <- app_comm_cons, eol_not_inline.
    + rewrite run_seq_cons. cbn [run].
      apply all_ok_cons in Hu2' as [Hd _].
      by rewrite <- app_comm_cons, eol_not_inline.
  - rewrite run_seq_cons. destruct dflt; cbn [marker].
    + apply run_opt_take. rewrite run_group, run_text, taken_app.
      rewrite run_seq_cons. cbn [run]. rewrite Hf.
      rewrite run_seq_nil. apply Hk.
    + rewrite app_nil_l. rewrite run_opt_skip.
      * rewrite run_seq_cons. cbn [run]. rewrite Hf.
        rewrite run_seq_nil. apply Hk.
      * rewrite run_group. apply run_text_miss. by apply eol_not_marker.
Qed.

End FirstMatchLines.

Section AudioLines.

Import Outs.

(** The attempt at the start of an audio stream line: the codec name is
    the whole word after [Audio: ], and the marker is captured exactly when
    the line ends with it. *)
Lemma audio_attempt_first prev ws idx tag fmt rest following (dflt : bool) :
  at_bol multiline prev = true → head_ok ws idx tag →
  fmt ≠ [] → all_ok Char.is_word fmt → all_ok inline rest → eol following →
  stops Char.is_word (rest ++ marker dflt ++ following) →
  (dflt = false → ∀ front, rest ≠ front ++ list_ascii_of_string "(default)") →
  attempt audio_info prev
    (stream_line ws idx tag
       (list_ascii_of_string "Audio: " ++ fmt ++ rest ++ marker dflt)
     ++ following)
  = Some (mk_match audio_info (audio_caps fmt dflt (head_caps idx tag)), following).
Proof.
  intros Hbol Hhead Hfmt1 Hfmt2 Hrest Hf Hstop Hnot.
  unfold attempt. rewrite audio_info_split, run_seq_app.
  change (fl audio_info) with multiline.
  replace (stream_line ws idx tag
             (list_ascii_of_string "Audio: " ++ fmt ++ rest ++ marker dflt)
           ++ following)
    with (stream_text ws idx tag
          ++ list_ascii_of_string ": Audio: " ++ fmt ++ rest ++ marker dflt
          ++ following)
    by (unfold stream_line; same_text).
  apply stream_head_first; [done|done|by eexists|].
  by apply audio_tail_first.
Qed.

End AudioLines.

(** * The tracks of a well-formed text, in full *)

(** The word a text starts with, and what follows it. *)
Fixpoint word_prefix (s : string) : string :=
  match s with
  | String c s' => if Char.is_word c then String c (word_prefix s') else ""
  | EmptyString => ""
  end.

Fixpoint word_rest (s : string) : string :=
  match s with
  | String c s' => if Char.is_word c then word_rest s' else s
  | EmptyString => ""
  end.

(** [s.endswith(t)] *)
Fixpoint ends_with (t s : string) : bool :=
  bool_decide (s = t)
  || match s with
     | String _ s' => ends_with t s'
     | EmptyString => false
     end.

(** The codec name of an audio stream line: the word after [Audio: ]. *)
Definition audio_format (l : line) : option string :=
  match l with
  | Stream _ _ _ body => word_prefix <$> after_prefix "Audio: " body
  | Other _ => None
  end.

(** The marker of an audio stream line that ends with it. *)
Definition audio_default (l : line) : option string :=
  match l with
  | Stream _ _ _ body =>
      if ends_with "(default)" body then Some "(default)" else None
  | Other _ => None
  end.

Definition audio_of_line (l : line) : AudioTrack.t :=
  AudioTrack.Build (stream_index l) (track_language l) (audio_format l)
    (audio_default l).

Definition subtitle_of_line (l : line) : SubtitleTrack.t :=
  SubtitleTrack.Build (stream_index l) (track_language l).

Section TracksInFull.

Import Outs.

Lemma los_inj (a b : string) : los a = los b → a = b.
Proof.
  intros H. rewrite <- (string_of_list_ascii_of_string a), H.
  apply string_of_list_ascii_of_string.
Qed.

Lemma word_split (s : string) :
  los s = los (word_prefix s) ++ los (word_rest s)
  ∧ all_ok Char.is_word (los (word_prefix s))
  ∧ stops Char.is_word (los (word_rest s)).
Proof.
  induction s as [|c s (IH1 & IH2 & IH3)]; [by repeat split; constructor|].
  simpl. destruct (Char.is_word c) eqn:Hc; simpl.
  - rewrite <- IH1. repeat split; [|done]. by apply all_ok_cons.
  - repeat split; [constructor | done].
Qed.

Lemma ends_with_iff (t s : string) :
  ends_with t s = true ↔ ∃ front, s = front +:+ t.
Proof.
  induction s as [|c s IH]; simpl.
  - rewrite orb_false_r, bool_decide_eq_true. split.
    + intros <-. by exists "".
    + intros ([|d front] & H); [done | by rewrite append_cons in H].
  - rewrite orb_true_iff, bool_decide_eq_true, IH. split.
    + intros [<- | [front ->]]; [by exists "" | by exists (String c front)].
    + intros ([|d front] & H); [by left|].
      rewrite append_cons in H. injection H as -> ->. right. by exists front.
Qed.

(** A text found at the end of [P ++ rest] whose first character [P] does
    not hold lies in [rest]. *)
Lemma suffix_in_rest (P : list ascii) (m0 : ascii) (M : list ascii) :
  ∀ rest front,
  m0 ∉ P → P ++ rest = front ++ m0 :: M → ∃ front', rest = front' ++ m0 :: M.
Proof.
  induction P as [|c P IH]; intros rest front Hm0 Heq; simpl in Heq.
  - by exists front.
  - apply not_elem_of_cons in Hm0 as [Hc Hm0].
    destruct front as [|d front]; simpl in Heq.
    + by injection Heq as -> _.
    + injection Heq as _ Heq. by eapply IH.
Qed.

Lemma word_not_elem (c : ascii) (u : list ascii) :
  Char.is_word c = false → all_ok Char.is_word u → c ∉ u.
Proof.
  intros Hc Hu Hin. unfold all_ok in Hu.
  rewrite list.Forall_forall in Hu. specialize (Hu c Hin). congruence.
Qed.

Definition audio_match_full (l : line) (m : Match) : Prop :=
  ∃ index fmt body,
    stream_index l = Some index ∧ audio_format l = Some fmt
    ∧ audio_default l = (if ends_with "(default)" body then Some "(default)" else None)
    ∧ m = mk_match audio_info
            (audio_caps (los fmt) (ends_with "(default)" body)
               (head_caps (los index) (los <$> stream_language l))).

Lemma audio_line_attempt prev indent index language body following :
  at_bol multiline prev = true →
  well_formed (Stream indent index language body) = true →
  eol following →
  is_audio (Stream indent index language body) = true →
  ∃ m, attempt audio_info prev
         (los (render_line (Stream indent index language body)) ++ following)
       = Some (m, following)
       ∧ audio_match_full (Stream indent index language body) m.
Proof.
  intros Hbol Hwf Hf Haudio.
  destruct (stream_parts _ _ _ _ Hwf) as (Hindent & Hhead & Hbody).
  rewrite stream_chars. unfold is_audio in Haudio.
  destruct (after_prefix "Audio: " body) as [[|c r]|] eqn:Hprefix; try done.
  apply after_prefix_Some in Hprefix.
  destruct (word_split (String c r)) as (Hsplit & Hword & Hstop).
  assert (los (word_prefix (String c r)) ≠ []) as Hne
    by (simpl; by rewrite Haudio).
  assert (los body = los "Audio: " ++ los (word_prefix (String c r))
                     ++ los (word_rest (String c r))) as Hchars
    by (by rewrite Hprefix, los_app, Hsplit).
  assert (all_ok inline (los (word_rest (String c r)))) as Hrest.
  { rewrite Hchars in Hbody. apply all_ok_app in Hbody as [_ H].
    by apply all_ok_app in H as [_ H]. }
  eexists. split; [|exists index, (word_prefix (String c r)), body].
  2: { cbn [stream_index audio_format audio_default stream_language].
       split; [done|]. split; [|by split].
       apply after_prefix_Some in Hprefix. by rewrite Hprefix. }
  destruct (ends_with "(default)" body) eqn:Hends.
  - apply ends_with_iff in Hends as [front Hfront].
    apply (f_equal los) in Hfront. rewrite los_app, Hchars, app_assoc in Hfront.
    apply (suffix_in_rest _ "("%char (los "default)")) in Hfront
      as [rest Hfront].
    2: { apply not_elem_of_app. split.
         - intros H. repeat (apply elem_of_cons in H as [H|H]; [done|]).
           by apply elem_of_nil in H.
         - by apply word_not_elem. }
    rewrite Hchars, Hfront.
    apply (audio_attempt_first prev _ _ _ _ rest following true); try done.
    + rewrite Hfront in Hrest. by apply all_ok_app in Hrest as [? _].
    + change (marker true) with ("("%char :: los "default)").
      rewrite app_assoc, <- Hfront.
      destruct (los (word_rest (String c r))); [|done].
      by destruct rest.
  - replace (los body)
      with (los "Audio: " ++ los (word_prefix (String c r))
            ++ los (word_rest (String c r)) ++ marker false)
      by (by rewrite Hchars, app_nil_r).
    apply (audio_attempt_first prev _ _ _ _ _ following false); try done.
    + cbn [marker]. rewrite app_nil_l.
      destruct (los (word_rest (String c r))); [|done].
      destruct following as [|d following]; [done|].
      simpl. unfold eol in Hf. simpl in Hf.
      apply andb_true_iff in Hf as [->%bool_decide_eq_true _]. done.
    + intros _ front Hfront.
      assert (ends_with "(default)" body = true) as H; [|congruence].
      apply ends_with_iff.
      exists ("Audio: " +:+ word_prefix (String c r) +:+ string_of_list_ascii front).
      apply los_inj.
      rewrite !los_app, list_ascii_of_string_of_list_ascii, Hchars, Hfront.
      same_text.
Qed.

Lemma finditer_audio_full (lines : list line) :
  Forall (λ l, well_formed l = true) lines →
  Forall2 audio_match_full (List.filter is_audio lines)
    (finditer audio_info (render lines)).
Proof.
  intros Hlines. unfold finditer.
  apply (scan_lines audio_info audio_tail is_audio audio_match_full audio_anchored
           audio_info_split); [|done|done|done].
  intros prev indent index language body following Hprev Hwf Hf l.
  destruct (stream_parts _ _ _ _ Hwf) as (Hindent & Hhead & Hbody).
  subst l. destruct (is_audio _) eqn:Haudio.
  - destruct (audio_line_attempt prev indent index language body following)
      as (m & Hm & Hfull); [done..|].
    exists m, (los (render_line (Stream indent index language body))), [].
    rewrite app_nil_r. split; [done|]. split; [|by split].
    rewrite stream_chars.
    by destruct (stream_line_inline _ _ _ _ Hindent Hhead Hbody).
  - rewrite attempt_head, stream_chars.
    change (fl audio_info) with multiline.
    rewrite audio_miss_stream; try done.
    intros Hb. apply (is_audio_body _ _ _ _ Hwf) in Hb. congruence.
Qed.

Lemma audio_track_of_caps fmt dflt idx tag :
  MediaInfo.audio_track
    (mk_match audio_info (audio_caps fmt dflt (head_caps idx tag)))
  = ret (AudioTrack.Build (Some (string_of_list_ascii idx))
           (Some (default "und" (string_of_list_ascii <$> tag)))
           (Some (string_of_list_ascii fmt))
           (if dflt then Some "(default)" else None)).
Proof. destruct tag, dflt; reflexivity. Qed.

Lemma audio_track_full (l : line) (m : Match) :
  audio_match_full l m → MediaInfo.audio_track m = ret (audio_of_line l).
Proof.
  intros (index & fmt & body & Hindex & Hfmt & Hdef & ->).
  rewrite audio_track_of_caps. unfold audio_of_line, track_language.
  rewrite Hindex, Hfmt, Hdef, !string_of_list_ascii_of_string.
  rewrite <- option_fmap_compose.
  by destruct (stream_language l) as [lang|]; simpl;
    rewrite ?string_of_list_ascii_of_string.
Qed.

Lemma subtitle_track_full (l : line) (m : Match) :
  subtitle_match l m → MediaInfo.subtitle_track m = ret (subtitle_of_line l).
Proof.
  intros H. destruct (subtitle_track_match l m H) as ([t g] & -> & Ht & Hg).
  simpl in *. by subst.
Qed.

Lemma collect_full {A} (f : Match → M A) (h : line → A)
    (matched : line → Match → Prop) (ls : list line) (ms : list Match) :
  (∀ l m, matched l m → f m = ret (h l)) →
  Forall2 matched ls ms → MediaInfo.collect f ms = ret (h <$> ls).
Proof.
  intros Hf. induction 1 as [|l m ls ms Hlm _ IH]; [done|].
  cbn [MediaInfo.collect]. by rewrite (Hf l m Hlm), bind_ret, IH, bind_ret.
Qed.



End TracksInFull.

(** * The parser on any text *)

Section AnyText.

Import Outs.

Lemma match_caps (p : pattern) (text : string) (m : Match) :
  match_ p text = Some m →
  ∃ st, st ∈ outs (fl p) (rx p) None (los text) ∅ ∧ m = mk_match p st.2.
Proof.
  unfold match_. rewrite attempt_head. intros H.
  destruct (head _) as [st|] eqn:Hst; [|done].
  injection H as <-. exists st. split; [|done].
  by apply head_Some_elem_of.
Qed.

Lemma video_dur_parts (text : string) (m : Match) :
  match_ video_dur text = Some m →
  ∃ pre h mi s post,
    text = pre +:+ "Duration: " +:+ h +:+ ":" +:+ mi +:+ ":" +:+ s +:+ post
    ∧ digits_ok h = true ∧ digits_ok mi = true ∧ digits_ok s = true
    ∧ groups m = [Some h; Some mi; Some s].
Proof.
  intros (st & Hst & ->)%match_caps. destruct st as [[p' s'] caps'].
  remember (los text) as chars eqn:Htext.
  unfold video_dur in Hst. cbn [rx fl] in Hst. outs_inv. subst.
  match goal with
  | H : los text = ?pre ++ _ ++ ?h ++ _ ++ ?mi ++ _ ++ ?s ++ ?post |- _ =>
      exists (string_of_list_ascii pre), (string_of_list_ascii h),
        (string_of_list_ascii mi), (string_of_list_ascii s),
        (string_of_list_ascii post)
  end.
  split.
  { apply los_inj. by rewrite !los_app, !list_ascii_of_string_of_list_ascii. }
  rewrite !number_digits_ok by done. rewrite !taken_app. done.
Qed.

(** One element taken off the front of a sequence. *)
Lemma seq_text f (t : string) rs prev s caps (st : state) :
  st ∈ outs f (seq (Text t :: rs)) prev s caps →
  ∃ p1 s1, s = los t ++ s1 ∧ st ∈ outs f (seq rs) p1 s1 caps.
Proof.
  change (seq (Text t :: rs)) with (Seq (Text t) (seq rs)).
  intros ([[p1 s1] c1] & H1 & H2)%elem_of_outs_seq.
  apply elem_of_outs_text in H1 as (Hs & _ & Hc). cbn [fst snd] in *. subst.
  by exists p1, s1.
Qed.

Lemma seq_star f a rs prev s caps (st : state) :
  st ∈ outs f (seq (Star a :: rs)) prev s caps →
  ∃ u p1 s1, s = u ++ s1 ∧ all_ok (accepts f a) u
             ∧ st ∈ outs f (seq rs) p1 s1 caps.
Proof.
  change (seq (Star a :: rs)) with (Seq (Star a) (seq rs)).
  intros ([[p1 s1] c1] & H1 & H2)%elem_of_outs_seq.
  apply elem_of_outs_star in H1 as (u & Hs & Hu & _ & Hc).
  cbn [fst snd] in *. subst. by exists u, p1, s1.
Qed.

Lemma seq_one f a rs prev s caps (st : state) :
  st ∈ outs f (seq (One a :: rs)) prev s caps →
  ∃ c p1 s1, s = c :: s1 ∧ accepts f a c = true
             ∧ st ∈ outs f (seq rs) p1 s1 caps.
Proof.
  change (seq (One a :: rs)) with (Seq (One a) (seq rs)).
  intros ([[p1 s1] c1] & H1 & H2)%elem_of_outs_seq.
  apply elem_of_outs_one in H1 as (c & Hs & Hc & _ & Hcaps).
  cbn [fst snd] in *. subst. by exists c, p1, s1.
Qed.

Lemma seq_plus f a rs prev s caps (st : state) :
  st ∈ outs f (seq (Plus a :: rs)) prev s caps →
  ∃ u p1 s1, u ≠ [] ∧ s = u ++ s1 ∧ all_ok (accepts f a) u
             ∧ st ∈ outs f (seq rs) p1 s1 caps.
Proof.
  change (seq (Plus a :: rs)) with (Seq (Plus a) (seq rs)).
  intros ([[p1 s1] c1] & H1 & H2)%elem_of_outs_seq.
  apply elem_of_outs_plus in H1 as (u & Hne & Hs & Hu & _ & Hc).
  cbn [fst snd] in *. subst. by exists u, p1, s1.
Qed.

Lemma seq_group_plus f n name a rs prev s caps (st : state) :
  st ∈ outs f (seq (Group n name (Plus a) :: rs)) prev s caps →
  ∃ u p1 s1, u ≠ [] ∧ s = u ++ s1 ∧ all_ok (accepts f a) u
             ∧ st ∈ outs f (seq rs) p1 s1 (<[n := string_of_list_ascii u]> caps).
Proof.
  change (seq (Group n name (Plus a) :: rs))
    with (Seq (Group n name (Plus a)) (seq rs)).
  intros ([[p1 s1] c1] & H1 & H2)%elem_of_outs_seq.
  apply elem_of_outs_group in H1 as ([[p0 s0] c0] & H1 & [= -> -> ->]).
  apply elem_of_outs_plus in H1 as (u & Hne & Hs & Hu & _ & Hc).
  cbn [fst snd] in *. subst. rewrite taken_app in H2. by exists u, p0, s0.
Qed.

(** The optional language of the video pattern, which is not captured. *)
Lemma seq_language f rs prev s caps (st : state) :
  st ∈ outs f (seq (Opt (seq [Text "("; Plus Word; Text ")"]) :: rs)) prev s caps →
  ∃ tag p1 s1,
    s = tag_chars tag ++ s1
    ∧ (∀ l, tag = Some l → l ≠ [] ∧ all_ok Char.is_word l)
    ∧ st ∈ outs f (seq rs) p1 s1 caps.
Proof.
  change (seq (Opt (seq [Text "("; Plus Word; Text ")"]) :: rs))
    with (Seq (Opt (seq [Text "("; Plus Word; Text ")"])) (seq rs)).
  intros ([[p1 s1] c1] & H1 & H2)%elem_of_outs_seq.
  apply elem_of_outs_opt in H1 as [H1 | [= -> -> ->]].
  - apply seq_text in H1 as (p2 & s2 & -> & H1).
    apply seq_plus in H1 as (w & p3 & s3 & Hne & -> & Hw & H1).
    apply seq_text in H1 as (p4 & s4 & -> & H1).
    apply elem_of_outs_empty in H1 as [= ? ? ?]. subst.
    refine (ex_intro _ (Some w) (ex_intro _ _ (ex_intro _ _
              (conj _ (conj _ H2))))); [same_text|].
    by intros ? [= <-].
  - refine (ex_intro _ None (ex_intro _ _ (ex_intro _ _
              (conj _ (conj _ H2))))); done.
Qed.

(** The pixel format: [yuv] and a word, captured together. *)
Lemma seq_pixel f rs prev s caps (st : state) :
  st ∈ outs f (seq (Group 3 None (seq [Text "yuv"; Plus Word]) :: rs)) prev s caps →
  ∃ pix p1 s1,
    pix ≠ [] ∧ all_ok Char.is_word pix ∧ s = (los "yuv" ++ pix) ++ s1
    ∧ st ∈ outs f (seq rs) p1 s1
             (<[3%nat := string_of_list_ascii (los "yuv" ++ pix)]> caps).
Proof.
  change (seq (Group 3 None (seq [Text "yuv"; Plus Word]) :: rs))
    with (Seq (Group 3 None (seq [Text "yuv"; Plus Word])) (seq rs)).
  intros ([[p1 s1] c1] & H1 & H2)%elem_of_outs_seq.
  apply elem_of_outs_group in H1 as ([[p0 s0] c0] & H1 & [= -> -> ->]).
  apply seq_text in H1 as (p2 & s2 & -> & H1).
  apply seq_plus in H1 as (pix & p3 & s3 & Hne & -> & Hpix & H1).
  apply elem_of_outs_empty in H1 as [= ? ? ?]. subst.
  cbn [fst snd] in *. rewrite (app_assoc (los "yuv") pix) in H2.
  rewrite taken_app in H2.
  refine (ex_intro _ pix (ex_intro _ _ (ex_intro _ _
            (conj Hne (conj Hpix (conj _ H2)))))). same_text.
Qed.

(** The optional fraction of the frame rate. *)
Lemma seq_fraction f rs prev s caps (st : state) :
  st ∈ outs f (seq (Opt (Group 7 None (seq [Text "."; One Digit; One Any])) :: rs))
        prev s caps →
  ∃ frac p1 s1,
    s = fraction_chars frac ++ s1 ∧ fraction_ok frac
    ∧ st ∈ outs f (seq rs) p1 s1 (fraction_caps frac caps).
Proof.
  change (seq (Opt (Group 7 None (seq [Text "."; One Digit; One Any])) :: rs))
    with (Seq (Opt (Group 7 None (seq [Text "."; One Digit; One Any]))) (seq rs)).
  intros ([[p1 s1] c1] & H1 & H2)%elem_of_outs_seq.
  apply elem_of_outs_opt in H1 as [H1 | [= -> -> ->]].
  - apply elem_of_outs_group in H1 as ([[p0 s0] c0] & H1 & [= -> -> ->]).
    apply seq_text in H1 as (p2 & s2 & -> & H1).
    apply seq_one in H1 as (d & p3 & s3 & -> & Hd & H1).
    apply seq_one in H1 as (c & p4 & s4 & -> & Hc & H1).
    apply elem_of_outs_empty in H1 as [= ? ? ?]. subst.
    cbn [fst snd] in *.
    match type of H2 with context [taken ?a ?b] =>
      change a with (fraction_chars (Some (d, c)) ++ b) in H2
    end.
    rewrite taken_app in H2.
    refine (ex_intro _ (Some (d, c)) (ex_intro _ _ (ex_intro _ _
              (conj _ (conj Hd H2))))). done.
  - refine (ex_intro _ None (ex_intro _ _ (ex_intro _ _
              (conj _ (conj I H2))))). done.
Qed.

Lemma los_string (l : list ascii) : los (string_of_list_ascii l) = l.
Proof. apply list_ascii_of_string_of_list_ascii. Qed.

Lemma tag_string (tag : option (list ascii)) :
  los <$> (string_of_list_ascii <$> tag) = tag.
Proof. destruct tag; [|done]. simpl. by rewrite los_string. Qed.

Lemma string_all (p : ascii → bool) (l : list ascii) :
  all_ok p l → Str.all p (string_of_list_ascii l) = true.
Proof. intros H. apply all_los. by rewrite los_string. Qed.

Lemma string_nonempty (l : list ascii) :
  l ≠ [] → nonempty (string_of_list_ascii l) = true.
Proof. intros H. apply nonempty_los. by rewrite los_string. Qed.

Lemma video_info_parts (text : string) (m : Match) :
  match_ video_info text = Some m →
  ∃ pre v post,
    text = pre +:+ render_video v +:+ post ∧ video_ok v = true
    ∧ groups m = [Some (v_index v); Some (v_codec v); Some ("yuv" +:+ v_pixel v);
                  Some (v_width v); Some (v_height v); Some (v_fps v);
                  match v_fraction v with
                  | Some _ => Some (fraction_text (v_fraction v))
                  | None => None
                  end].
Proof.
  intros (st & Hst & ->)%match_caps.
  unfold video_info in Hst. cbn [rx fl] in Hst.
  apply seq_star in Hst as (pre & p1 & s1 & Htext & _ & Hst).
  apply seq_text in Hst as (p2 & s2 & -> & Hst).
  apply seq_group_plus in Hst as (idx & p3 & s3 & Hidx1 & -> & Hidx2 & Hst).
  apply seq_language in Hst as (tag & p4 & s4 & -> & Htag & Hst).
  apply seq_text in Hst as (p5 & s5 & -> & Hst).
  apply seq_group_plus in Hst as (codec & p6 & s6 & Hcodec1 & -> & Hcodec2 & Hst).
  apply seq_star in Hst as (mid1 & p7 & s7 & -> & _ & Hst).
  apply seq_text in Hst as (p8 & s8 & -> & Hst).
  apply seq_pixel in Hst as (pix & p9 & s9 & Hpix1 & Hpix2 & -> & Hst).
  apply seq_one in Hst as (sep & p10 & s10 & -> & Hsep & Hst).
  apply seq_star in Hst as (mid2 & p11 & s11 & -> & _ & Hst).
  apply seq_text in Hst as (p12 & s12 & -> & Hst).
  apply seq_group_plus in Hst as (w & p13 & s13 & Hw1 & -> & Hw2 & Hst).
  apply seq_text in Hst as (p14 & s14 & -> & Hst).
  apply seq_group_plus in Hst as (h & p15 & s15 & Hh1 & -> & Hh2 & Hst).
  apply seq_star in Hst as (mid3 & p16 & s16 & -> & _ & Hst).
  apply seq_text in Hst as (p17 & s17 & -> & Hst).
  apply seq_group_plus in Hst as (fps & p18 & s18 & Hfps1 & -> & Hfps2 & Hst).
  apply seq_fraction in Hst as (frac & p19 & s19 & -> & Hfrac & Hst).
  apply seq_text in Hst as (p20 & post & -> & Hst).
  apply elem_of_outs_empty in Hst as ->. cbn [snd].
  exists (string_of_list_ascii pre),
    (Video (string_of_list_ascii idx) (string_of_list_ascii <$> tag)
       (string_of_list_ascii codec) (string_of_list_ascii mid1)
       (string_of_list_ascii pix) sep (string_of_list_ascii mid2)
       (string_of_list_ascii w) (string_of_list_ascii h)
       (string_of_list_ascii mid3) (string_of_list_ascii fps) frac),
    (string_of_list_ascii post).
  split; [|split].
  - apply los_inj. rewrite !los_app, video_chars.
    cbn [v_index v_language v_codec v_more1 v_pixel v_sep v_more2 v_width
         v_height v_more3 v_fps v_fraction].
    rewrite !los_string, tag_string, Htext. same_text.
  - unfold video_ok, digits_ok, language_ok.
    cbn [v_index v_language v_codec v_more1 v_pixel v_sep v_more2 v_width
         v_height v_more3 v_fps v_fraction].
    rewrite !string_nonempty, !string_all by done.
    assert (match string_of_list_ascii <$> tag with
            | Some l => nonempty l && Str.all Char.is_word l
            | None => true
            end = true) as ->.
    { destruct tag as [l|]; [|done]. destruct (Htag l eq_refl).
      simpl. by rewrite string_nonempty, string_all. }
    change (Str.contains sep "(," = true) in Hsep. rewrite Hsep. simpl.
    by destruct frac as [[d c]|].
  - destruct frac as [[d c]|]; reflexivity.
Qed.

(** ** Numbers *)

Lemma digit_value_nonneg (c : ascii) (d : Z) :
  Char.digit_value c = Some d → (0 ≤ d)%Z.
Proof.
  unfold Char.digit_value, Char.is_decimal, Char.between.
  destruct (_ && _) eqn:H; [|done]. intros [= <-].
  apply andb_true_iff in H as [H _]. apply N.leb_le in H. lia.
Qed.

Lemma digits_nonneg (s : string) : ∀ acc b n,
  Str.digits s acc b = Some n → (0 ≤ acc)%Z → (0 ≤ n)%Z.
Proof.
  induction s as [|c s IH]; intros acc b n; simpl.
  - destruct b; [|done]. by intros [= ->].
  - destruct (Char.digit_value c) as [d|] eqn:Hd.
    + intros H Hacc. apply (IH _ _ _ H).
      apply digit_value_nonneg in Hd. lia.
    + destruct (decide (c = "_"%char)); [|done]. destruct b; [|done]. apply IH.
Qed.

(** [int] accepts a run of digits and gives a number that is not
    negative. *)
Lemma int_digits (s : string) :
  digits_ok s = true → ∃ n, Str.int s = Some n ∧ (0 ≤ n)%Z.
Proof.
  intros Hs. destruct (int_decimal s Hs) as [n Hn]. exists n. split; [done|].
  unfold digits_ok in Hs. apply andb_true_iff in Hs as [Hne Hall].
  unfold Str.int in Hn. rewrite strip_decimal in Hn by done.
  destruct s as [|c s]; [done|].
  assert (Char.is_decimal c = true) as Hc
    by (simpl in Hall; by apply andb_true_iff in Hall as [? _]).
  rewrite !decide_False in Hn by (by intros ->).
  by eapply digits_nonneg.
Qed.

(** ** Tracks *)

(** What every track the parser builds looks like: a stream index of
    digits, a language and a codec name that are words, and as default
    attribute nothing or the marker. *)
Definition word_ok (s : string) : bool := nonempty s && Str.all Char.is_word s.

Definition audio_shape (a : AudioTrack.t) : bool :=
  match AudioTrack.track a, AudioTrack.lang a, AudioTrack.format a with
  | Some idx, Some l, Some f =>
      digits_ok idx && word_ok l && word_ok f
      && (bool_decide (AudioTrack.default a = None)
          || bool_decide (AudioTrack.default a = Some "(default)"))
  | _, _, _ => false
  end.

Definition subtitle_shape (a : SubtitleTrack.t) : bool :=
  match SubtitleTrack.track a, SubtitleTrack.lang a with
  | Some idx, Some l => digits_ok idx && word_ok l
  | _, _ => false
  end.

Lemma word_ok_string (l : list ascii) :
  l ≠ [] → all_ok Char.is_word l → word_ok (string_of_list_ascii l) = true.
Proof. intros. unfold word_ok. by rewrite string_nonempty, string_all. Qed.

Lemma language_word_ok (tag : option (list ascii)) :
  (∀ w, tag = Some w → w ≠ [] ∧ all_ok Char.is_word w) →
  word_ok (default "und" (string_of_list_ascii <$> tag)) = true.
Proof.
  intros Htag. destruct tag as [w|]; [|done]. destruct (Htag w eq_refl).
  by apply word_ok_string.
Qed.

Lemma audio_tail_format prev s caps (st : state) :
  st ∈ outs multiline (seq audio_tail) prev s caps →
  ∃ fmt dflt, fmt ≠ [] ∧ all_ok Char.is_word fmt
              ∧ st.2 = audio_caps fmt dflt caps.
Proof.
  unfold audio_tail. intros H.
  apply seq_text in H as (p1 & s1 & -> & H).
  apply seq_group_plus in H as (fmt & p2 & s2 & Hne & -> & Hfmt & H).
  destruct st as [[p' s'] caps']. outs_inv. subst.
  outs_opt; outs_inv; subst.
  - exists fmt, true. by rewrite taken_app.
  - by exists fmt, false.
Qed.

Lemma audio_attempt_track prev s m s' :
  attempt audio_info prev s = Some (m, s') →
  ∃ a, MediaInfo.audio_track m = ret a ∧ audio_shape a = true.
Proof.
  rewrite attempt_head. intros Hm.
  destruct (head (outs (fl audio_info) (rx audio_info) prev s ∅))
    as [st|] eqn:Hst; [|done].
  injection Hm as <- _. apply head_Some_elem_of in Hst.
  rewrite audio_info_split in Hst.
  apply elem_of_outs_seq_app in Hst as ([[p1 s1] caps1] & H1 & H2).
  apply stream_head_sound in H1 as (ws & idx & tag & _ & _ & Hok & Hcaps).
  apply audio_tail_format in H2 as (fmt & dflt & Hne & Hfmt & ->).
  cbn [snd] in *. subst caps1. rewrite audio_track_of_caps.
  eexists. split; [done|]. destruct Hok.
  unfold audio_shape. cbn [AudioTrack.track AudioTrack.lang AudioTrack.format
                           AudioTrack.default].
  rewrite number_digits_ok, language_word_ok, word_ok_string by done.
  by destruct dflt.
Qed.

Lemma subtitle_track_of_caps idx tag :
  MediaInfo.subtitle_track (mk_match subtitle_info (head_caps idx tag))
  = ret (SubtitleTrack.Build (Some (string_of_list_ascii idx))
           (Some (default "und" (string_of_list_ascii <$> tag)))).
Proof. destruct tag; reflexivity. Qed.

Lemma subtitle_attempt_track prev s m s' :
  attempt subtitle_info prev s = Some (m, s') →
  ∃ a, MediaInfo.subtitle_track m = ret a ∧ subtitle_shape a = true.
Proof.
  rewrite attempt_head. intros Hm.
  destruct (head (outs (fl subtitle_info) (rx subtitle_info) prev s ∅))
    as [st|] eqn:Hst; [|done].
  injection Hm as <- _. apply head_Some_elem_of in Hst.
  rewrite subtitle_info_split in Hst.
  apply elem_of_outs_seq_app in Hst as ([[p1 s1] caps1] & H1 & H2).
  apply stream_head_sound in H1 as (ws & idx & tag & _ & _ & Hok & Hcaps).
  apply subtitle_tail_sound in H2 as [_ ->].
  cbn [snd] in *. subst caps1. rewrite subtitle_track_of_caps.
  eexists. split; [done|]. destruct Hok.
  unfold subtitle_shape. cbn [SubtitleTrack.track SubtitleTrack.lang].
  by rewrite number_digits_ok, language_word_ok.
Qed.

(** The loop over the matches of a pattern never raises. *)
Lemma collect_scan {A} (p : pattern) (f : Match → M A) (Q : A → Prop) :
  (∀ prev s m s', attempt p prev s = Some (m, s') → ∃ a, f m = ret a ∧ Q a) →
  ∀ text, ∃ tracks,
    MediaInfo.collect f (finditer p text) = ret tracks ∧ Forall Q tracks.
Proof.
  intros Hf text.
  apply (collect_sound f (λ m, ∃ a, f m = ret a ∧ Q a) Q); [done|].
  unfold finditer. apply scan_sound. exact Hf.
Qed.

(** ** The outcomes of [parse_details] *)

Lemma video_ok_numbers (v : video) :
  video_ok v = true →
  digits_ok (v_width v) = true ∧ digits_ok (v_height v) = true
  ∧ digits_ok (v_fps v) = true.
Proof.
  unfold video_ok. intros H. repeat (apply andb_true_iff in H as [H ?]). done.
Qed.

Lemma int_group_digits (s : string) :
  digits_ok s = true →
  ∃ n, Str.int s = Some n ∧ (0 ≤ n)%Z ∧ MediaInfo.int_group (Some s) = ret n.
Proof.
  intros (n & Hn & Hpos)%int_digits. exists n. repeat split; [done..|].
  unfold MediaInfo.int_group. by rewrite Hn.
Qed.

(** Either one of the two matches fails and the result is the invalid
    instance, or both succeed: then every conversion succeeds, and the
    result depends on the size of the file alone. *)
Lemma parse_details_cases (getsize : string → option N) (_path output : string) :
  ((match_ video_dur output = None ∨ match_ video_info output = None)
   ∧ MediaInfo.parse_details getsize _path output
     = ([MediaInfo.failed _path], Ret MediaInfo.Invalid))
  ∨ ∃ m1 m2 pre h mi s post vpre v vpost hrs mins secs width height fps
      audio subtitle,
      (output = pre +:+ "Duration: " +:+ h +:+ ":" +:+ mi +:+ ":" +:+ s +:+ post
       ∧ digits_ok h = true ∧ digits_ok mi = true ∧ digits_ok s = true)
      ∧ (output = vpre +:+ render_video v +:+ vpost ∧ video_ok v = true)
      ∧ (Str.int h = Some hrs ∧ Str.int mi = Some mins ∧ Str.int s = Some secs
         ∧ 0 ≤ hrs ∧ 0 ≤ mins ∧ 0 ≤ secs)%Z
      ∧ (Str.int (v_width v) = Some width ∧ Str.int (v_height v) = Some height
         ∧ Str.int (v_fps v) = Some fps ∧ 0 ≤ width ∧ 0 ≤ height ∧ 0 ≤ fps)%Z
      ∧ (Forall (λ a, audio_shape a = true) audio
         ∧ Forall (λ a, AudioTrack.is_default a = false) audio
         ∧ Forall (λ a, subtitle_shape a = true) subtitle)
      ∧ (match_ video_dur output = Some m1
         ∧ groups m1 = [Some h; Some mi; Some s]
         ∧ match_ video_info output = Some m2)
      ∧ MediaInfo.parse_details getsize _path output
        = match getsize _path with
          | Some size =>
              ([], Ret (MediaInfo.Valid
                {| MediaInfo.path := _path;
                   MediaInfo.vcodec := Some (v_codec v);
                   MediaInfo.stream := Some (v_index v);
                   MediaInfo.res_height := height;
                   MediaInfo.res_width := width;
                   MediaInfo.runtime := hrs * 3600 + mins * 60 + secs;
                   MediaInfo.filesize_mb := Z.of_N size # 1048576;
                   MediaInfo.fps := fps;
                   MediaInfo.colorspace := Some ("yuv" +:+ v_pixel v);
                   MediaInfo.audio := audio;
                   MediaInfo.subtitle := subtitle |}))
          | None => ([], Raise (OSError _path))
          end.
Proof.
  unfold MediaInfo.parse_details, MediaInfo.parse_details_with.
  destruct (match_ video_dur output) as [m1|] eqn:Hm1;
    [|left; split; [by left | done]].
  destruct (match_ video_info output) as [m2|] eqn:Hm2;
    [|left; split; [by right | by case_bool_decide]].
  right.
  destruct (video_dur_parts _ _ Hm1)
    as (pre & h & mi & s & post & Htext & Hh & Hmi & Hs & Hg1).
  destruct (video_info_parts _ _ Hm2) as (vpre & v & vpost & Hv & Hok & Hg2).
  destruct (video_ok_numbers v Hok) as (Hw & Hht & Hfps).
  destruct (int_group_digits h Hh) as (hrs & Hhrs & ? & Hhrs').
  destruct (int_group_digits mi Hmi) as (mins & Hmins & ? & Hmins').
  destruct (int_group_digits s Hs) as (secs & Hsecs & ? & Hsecs').
  destruct (int_group_digits _ Hw) as (width & Hwidth & ? & Hwidth').
  destruct (int_group_digits _ Hht) as (height & Hheight & ? & Hheight').
  destruct (int_group_digits _ Hfps) as (fps & Hfps1 & ? & Hfps').
  destruct (collect_scan audio_info MediaInfo.audio_track
              (λ a, audio_shape a = true ∧ AudioTrack.is_default a = false))
    with (text := output) as (audio & Haudio & Hshape).
  { intros prev t m t' Hm.
    destruct (audio_attempt_track prev t m t' Hm) as (a & Ha & Hsh).
    destruct (audio_attempt_caps prev t m t' Hm) as (fmt & dflt & idx & tag & ->).
    destruct (audio_track_caps fmt dflt idx tag) as (a' & Ha' & Hdef).
    rewrite Ha' in Ha. injection Ha as <-. by exists a'. }
  destruct (collect_scan subtitle_info MediaInfo.subtitle_track
              (λ a, subtitle_shape a = true) subtitle_attempt_track output)
    as (subtitle & Hsubtitle & Hsshape).
  exists m1, m2, pre, h, mi, s, post, vpre, v, vpost, hrs, mins, secs, width,
    height, fps, audio, subtitle.
  split; [done|]. split; [done|]. split; [done|]. split; [done|].
  split.
  { split; [|split; [|done]].
    - eapply list.Forall_impl; [exact Hshape|]. by intros a [? _].
    - eapply list.Forall_impl; [exact Hshape|]. by intros a [_ ?]. }
  split; [done|].
  unfold group. rewrite Hg1, Hg2. simpl bool_decide. cbv iota.
  rewrite Haudio, bind_ret, Hsubtitle, bind_ret.
  destruct (getsize _path) as [size|]; [|done]. rewrite bind_ret.
  cbn [lookup list_lookup mjoin option_join].
  rewrite Hwidth', bind_ret, Hheight', bind_ret, Hhrs', bind_ret.
  by rewrite Hmins', bind_ret, Hsecs', bind_ret, Hfps', bind_ret.
Qed.

(** The longest run of digits [int] converts in a stock interpreter
    ([sys.int_info.default_max_str_digits]). *)
Definition max_str_digits : nat := 4300.

(** The six groups [parse_details] hands to [int], in the order of the
    calls. *)
Definition converted (match1 match2 : Match) : list (option string) :=
  [group match2 4; group match2 5; group match1 1; group match1 2;
   group match1 3; group match2 6].

Definition short_enough (g : option string) : bool :=
  bool_decide (String.length (default "" g) ≤ max_str_digits)%nat.

(** A path [os.path.getsize] takes: one without a null character. *)
Definition no_nul (path : string) : bool :=
  Str.all (λ c, negb (Ascii.eqb c "000"%char)) path.

(** X12: what [parse_details] does once both matches have succeeded, for
    a path without a null character and matched numbers of at most 4300
    digits each.  It ends as the reading of the size of the file ends:
    when the size is returned, nothing is printed and the result is a
    valid instance that holds the path it was given and the size in units
    of 1048576 bytes, so no conversion of a matched group fails, no track
    constructor fails, and the tests on the number of groups never fire;
    when reading the size raises [OSError], that error is raised and
    nothing is printed. *)
Theorem matched_text_is_parsed (getsize : string → option N)
    (_path output : string) (m1 m2 : Match) :
  no_nul _path = true →
  match_ video_dur output = Some m1 → match_ video_info output = Some m2 →
  forallb short_enough (converted m1 m2) = true →
  match getsize _path with
  | Some size =>
      ∃ i, MediaInfo.parse_details getsize _path output
           = ([], Ret (MediaInfo.Valid i))
           ∧ MediaInfo.path i = _path
           ∧ MediaInfo.filesize_mb i = Z.of_N size # 1048576
  | None =>
      MediaInfo.parse_details getsize _path output = ([], Raise (OSError _path))
  end.
Proof.
  intros _ H1 H2 _.
  destruct (parse_details_cases getsize _path output)
    as [[Hnone _] | (m1' & m2' & pre & h & mi & s & post & vpre & v & vpost & hrs
                     & mins & secs & width & height & fps & audio & subtitle
                     & _ & _ & _ & _ & _ & _ & ->)].
  - destruct Hnone; congruence.
  - destruct (getsize _path) as [size|]; [|done]. by eexists.
Qed.

Lemma matched_text_is_parsed_witness :
  ∃ i, MediaInfo.parse_details (λ _, Some 734003200%N) "a.mkv" (render sample_lines)
       = ([], Ret (MediaInfo.Valid i))
       ∧ MediaInfo.path i = "a.mkv"
       ∧ MediaInfo.filesize_mb i = Z.of_N 734003200 # 1048576.
Proof.
  eapply (matched_text_is_parsed (λ _, Some 734003200%N) "a.mkv"
            (render sample_lines)).
  - reflexivity.
  - vm_compute. reflexivity.
  - vm_compute. reflexivity.
  - vm_compute. reflexivity.
Defined.

(** X13: the result is the invalid instance exactly for the texts that
    lack a duration [Duration: H:M:S] or a video stream description
    [Stream #0:N: Video: codec ..., yuv..., WxH ... R fps]: in particular a
    video stream whose pixel format does not start with [yuv] makes the
    file invalid. *)
Theorem invalid_exactly_without_duration_or_video (getsize : string → option N)
    (_path output : string) :
  MediaInfo.parse_details getsize _path output
  = ([MediaInfo.failed _path], Ret MediaInfo.Invalid)
  ↔ ¬ (has_duration output ∧ has_video output).
Proof.
  destruct (parse_details_cases getsize _path output)
    as [[Hnone Hres] | (m1 & m2 & pre & h & mi & s & post & vpre & v & vpost
                        & hrs & mins & secs & width & height & fps & audio
                        & subtitle & Hdur & Hvid & _ & _ & _ & _ & Hres)].
  - split; [|done]. intros _ [Hdur Hvid].
    destruct (match_video_dur _ Hdur) as (m1 & ? & ? & ? & Hm1 & _).
    destruct (match_video_info _ Hvid) as (m2 & ? & ? & ? & Hm2 & _).
    destruct Hnone; congruence.
  - split.
    + rewrite Hres. by destruct (getsize _path).
    + intros Hnot. destruct Hnot. split.
      * by exists pre, h, mi, s, post.
      * by exists vpre, v, vpost.
Qed.

(** X14: the runtime of a parsed file is read from a duration of the
    text: the text holds [Duration: h:m:s] with three runs of digits, and
    the runtime is [int(h) * 3600 + int(m) * 60 + int(s)]; minutes and
    seconds are not checked against 60, and whatever follows the digits of
    the seconds, a fraction for instance, is dropped. *)
Theorem runtime_is_read_from_a_duration (getsize : string → option N)
    (_path output : string) (lines : list string) (i : MediaInfo.info) :
  MediaInfo.parse_details getsize _path output = (lines, Ret (MediaInfo.Valid i)) →
  ∃ pre h mi s post hrs mins secs,
    output = pre +:+ "Duration: " +:+ h +:+ ":" +:+ mi +:+ ":" +:+ s +:+ post
    ∧ Str.int h = Some hrs ∧ Str.int mi = Some mins ∧ Str.int s = Some secs
    ∧ digits_ok h = true ∧ digits_ok mi = true ∧ digits_ok s = true
    ∧ MediaInfo.runtime i = (hrs * 3600 + mins * 60 + secs)%Z.
Proof.
  destruct (parse_details_cases getsize _path output)
    as [[_ ->] | (m1 & m2 & pre & h & mi & s & post & vpre & v & vpost & hrs
                  & mins & secs & width & height & fps & audio & subtitle
                  & (Htext & Hh & Hmi & Hs) & _ & (? & ? & ? & _) & _ & _ & _ & ->)];
    [done|].
  destruct (getsize _path); [|done]. intros [= _ <-].
  by exists pre, h, mi, s, post, hrs, mins, secs.
Qed.

(** X15: the video attributes of a parsed file are read from one video
    stream description of the text: the stream index and the codec name as
    they stand, the pixel format with its [yuv], width and height through
    [int], and as frame rate the integer in front of the optional fraction,
    which is dropped, not rounded. *)
Theorem video_is_read_from_a_stream (getsize : string → option N)
    (_path output : string) (lines : list string) (i : MediaInfo.info) :
  MediaInfo.parse_details getsize _path output = (lines, Ret (MediaInfo.Valid i)) →
  ∃ pre v post,
    output = pre +:+ render_video v +:+ post ∧ video_ok v = true
    ∧ MediaInfo.stream i = Some (v_index v)
    ∧ MediaInfo.vcodec i = Some (v_codec v)
    ∧ MediaInfo.colorspace i = Some ("yuv" +:+ v_pixel v)
    ∧ Str.int (v_width v) = Some (MediaInfo.res_width i)
    ∧ Str.int (v_height v) = Some (MediaInfo.res_height i)
    ∧ Str.int (v_fps v) = Some (MediaInfo.fps i).
Proof.
  destruct (parse_details_cases getsize _path output)
    as [[_ ->] | (m1 & m2 & pre & h & mi & s & post & vpre & v & vpost & hrs
                  & mins & secs & width & height & fps & audio & subtitle
                  & _ & (Htext & Hok) & _ & (? & ? & ? & _) & _ & _ & ->)];
    [done|].
  destruct (getsize _path); [|done]. intros [= _ <-].
  by exists vpre, v, vpost.
Qed.

(** X16: what holds of every valid instance the parser returns, whatever
    the text: the path is the one given, width, height, frame rate and
    runtime are not negative, every track has a stream index made of
    digits and a language that is a word ([und] where the line has none,
    never [None]), and every audio track a codec name that is a word and,
    as default attribute, nothing or [(default)]. *)
Theorem parsed_media_is_well_shaped (getsize : string → option N)
    (_path output : string) (lines : list string) (i : MediaInfo.info) :
  MediaInfo.parse_details getsize _path output = (lines, Ret (MediaInfo.Valid i)) →
  lines = [] ∧ MediaInfo.path i = _path
  ∧ (0 ≤ MediaInfo.res_width i ∧ 0 ≤ MediaInfo.res_height i
     ∧ 0 ≤ MediaInfo.fps i ∧ 0 ≤ MediaInfo.runtime i)%Z
  ∧ Forall (λ a, audio_shape a = true) (MediaInfo.audio i)
  ∧ Forall (λ a, subtitle_shape a = true) (MediaInfo.subtitle i).
Proof.
  destruct (parse_details_cases getsize _path output)
    as [[_ ->] | (m1 & m2 & pre & h & mi & s & post & vpre & v & vpost & hrs
                  & mins & secs & width & height & fps & audio & subtitle
                  & _ & _ & (_ & _ & _ & ? & ? & ?) & (_ & _ & _ & ? & ? & ?)
                  & (? & _ & ?) & _ & ->)];
    [done|].
  destruct (getsize _path); [|done]. intros [= <- <-]. simpl.
  repeat split; try done. lia.
Qed.

(** The report of [sample_lines] parsed, for a file of 700 units. *)
Definition sample_info : MediaInfo.info :=
  {| MediaInfo.path := "a.mkv"; MediaInfo.vcodec := Some "h264";
     MediaInfo.stream := Some "0"; MediaInfo.res_height := 1080;
     MediaInfo.res_width := 1920; MediaInfo.runtime := 1815;
     MediaInfo.filesize_mb := 734003200 # 1048576; MediaInfo.fps := 23;
     MediaInfo.colorspace := Some "yuv420p";
     MediaInfo.audio :=
       [AudioTrack.Build (Some "1") (Some "eng") (Some "ac3") (Some "(default)");
        AudioTrack.Build (Some "2") (Some "und") (Some "aac") None];
     MediaInfo.subtitle := [SubtitleTrack.Build (Some "3") (Some "eng")] |}.

Lemma sample_parsed :
  MediaInfo.parse_details (λ _, Some 734003200%N) "a.mkv" (render sample_lines)
  = ([], Ret (MediaInfo.Valid sample_info)).
Proof. vm_compute. reflexivity. Qed.

Lemma runtime_is_read_from_a_duration_witness :
  ∃ pre h mi s post hrs mins secs,
    render sample_lines
    = pre +:+ "Duration: " +:+ h +:+ ":" +:+ mi +:+ ":" +:+ s +:+ post
    ∧ Str.int h = Some hrs ∧ Str.int mi = Some mins ∧ Str.int s = Some secs
    ∧ digits_ok h = true ∧ digits_ok mi = true ∧ digits_ok s = true
    ∧ MediaInfo.runtime sample_info = (hrs * 3600 + mins * 60 + secs)%Z.
Proof.
  apply (runtime_is_read_from_a_duration (λ _, Some 734003200%N) "a.mkv"
           (render sample_lines) [] sample_info).
  vm_compute. reflexivity.
Defined.

Lemma video_is_read_from_a_stream_witness :
  ∃ pre v post,
    render sample_lines = pre +:+ render_video v +:+ post ∧ video_ok v = true
    ∧ MediaInfo.stream sample_info = Some (v_index v)
    ∧ MediaInfo.vcodec sample_info = Some (v_codec v)
    ∧ MediaInfo.colorspace sample_info = Some ("yuv" +:+ v_pixel v)
    ∧ Str.int (v_width v) = Some (MediaInfo.res_width sample_info)
    ∧ Str.int (v_height v) = Some (MediaInfo.res_height sample_info)
    ∧ Str.int (v_fps v) = Some (MediaInfo.fps sample_info).
Proof.
  apply (video_is_read_from_a_stream (λ _, Some 734003200%N) "a.mkv"
           (render sample_lines) [] sample_info).
  vm_compute. reflexivity.
Defined.

Lemma parsed_media_is_well_shaped_witness :
  @nil string = [] ∧ MediaInfo.path sample_info = "a.mkv"
  ∧ (0 ≤ MediaInfo.res_width sample_info ∧ 0 ≤ MediaInfo.res_height sample_info
     ∧ 0 ≤ MediaInfo.fps sample_info ∧ 0 ≤ MediaInfo.runtime sample_info)%Z
  ∧ Forall (λ a, audio_shape a = true) (MediaInfo.audio sample_info)
  ∧ Forall (λ a, subtitle_shape a = true) (MediaInfo.subtitle sample_info).
Proof.
  apply (parsed_media_is_well_shaped (λ _, Some 734003200%N) "a.mkv"
           (render sample_lines) [] sample_info).
  vm_compute. reflexivity.
Defined.

(** ** From the parser to the stream mapper *)

Lemma default_dropped_none excludes includes (streams : list AudioTrack.t) :
  Forall (λ a, AudioTrack.is_default a = false) streams →
  default_dropped excludes includes streams = false.
Proof.
  unfold default_dropped. induction 1 as [|a l Ha _ IH]; [done|].
  simpl. by rewrite Ha, andb_false_r, IH.
Qed.

(** X2: the default marker the parser reads is never acted upon.  For the
    instance [parse_details] returns for any text, and for every profile,
    [ffmpeg_streams] prints no warning and its result holds no disposition
    pair: no parsed audio track counts as a default track, because its
    default attribute is [(default)] or [None] and [is_default] compares it
    with [default]. *)
Theorem parsed_media_never_moves_the_default (getsize : string → option N)
    (_path output : string) (lines : list string) (self : MediaInfo.t)
    (p : Profile.t) :
  MediaInfo.parse_details getsize _path output = (lines, Ret self) →
  (MediaInfo.ffmpeg_streams self p).1 = []
  ∧ override_flags (tokens_of (MediaInfo.ffmpeg_streams self p)) = [].
Proof.
  rewrite ffmpeg_streams_closed.
  destruct (parse_details_cases getsize _path output)
    as [[_ ->] | (m1 & m2 & pre & h & mi & s & post & vpre & v & vpost & hrs
                  & mins & secs & width & height & fps & audio & subtitle
                  & _ & _ & _ & _ & (_ & Hdef & _) & _ & ->)].
  - intros [= _ <-]. by destruct (no_selection p).
  - destruct (getsize _path); [|done]. intros [= _ <-].
    destruct (no_selection p); [done|]. cbv zeta.
    unfold audio_warnings, audio_tokens, subtitle_tokens, tokens_of.
    cbn [outcome fst snd MediaInfo.audio MediaInfo.subtitle MediaInfo.stream].
    rewrite (default_dropped_none _ _ _ Hdef). split; [done|].
    rewrite app_nil_r, !override_flags_app, !override_flags_select.
    reflexivity.
Qed.

Lemma parsed_media_never_moves_the_default_witness :
  (MediaInfo.ffmpeg_streams (MediaInfo.Valid sample_info)
     (Profile.Build (Some ["eng"]) None [] [] (Some "und") None)).1 = []
  ∧ override_flags
      (tokens_of (MediaInfo.ffmpeg_streams (MediaInfo.Valid sample_info)
                    (Profile.Build (Some ["eng"]) None [] [] (Some "und") None)))
    = [].
Proof.
  apply (parsed_media_never_moves_the_default (λ _, Some 734003200%N) "a.mkv"
           (render sample_lines) []).
  vm_compute. reflexivity.
Defined.

(** ** The duration that is read *)

Lemma decimal_not_elem (c : ascii) (u : list ascii) :
  Char.is_decimal c = false → all_ok Char.is_decimal u → c ∉ u.
Proof.
  intros Hc Hu Hin. unfold all_ok in Hu.
  rewrite list.Forall_forall in Hu. specialize (Hu c Hin). congruence.
Qed.

(** The greedy [.*] in front of [Duration: ] stops at the last duration:
    where the text after a duration holds no other [Duration: ], that
    duration is the one matched, each number with all its digits. *)
Lemma video_dur_first (pre h mi s post : list ascii) :
  number h → number mi → number s → stops Char.is_decimal post →
  (∀ u rest, post ≠ u ++ los "Duration: " ++ rest) →
  attempt video_dur None
    (pre ++ los "Duration: " ++ h ++ los ":" ++ mi ++ los ":" ++ s ++ post)
  = Some (mk_match video_dur
            (<[3%nat := string_of_list_ascii s]>
               (<[2%nat := string_of_list_ascii mi]>
                  (<[1%nat := string_of_list_ascii h]> ∅))),
          post).
Proof.
  intros [Hh1 Hh2] [Hmi1 Hmi2] [Hs1 Hs2] Hpost Hlast.
  unfold attempt, video_dur. cbn [rx fl].
  rewrite run_seq_cons. cbn [run]. apply star_last.
  - apply any_dotall.
  - intros u s' p Hu Heq. rewrite run_seq_cons. apply run_text_miss.
    intros rest ->.
    destruct u as [|c u]; [done|]. injection Heq as _ Heq.
    change (los "uration: " ++ h ++ los ":" ++ mi ++ los ":" ++ s ++ post
            = u ++ "D"%char :: los "uration: " ++ rest) in Heq.
    replace (los "uration: " ++ h ++ los ":" ++ mi ++ los ":" ++ s ++ post)
      with ((los "uration: " ++ h ++ los ":" ++ mi ++ los ":" ++ s) ++ post)
      in Heq by same_text.
    apply suffix_in_rest in Heq as [front Heq]; [by apply (Hlast front rest)|].
    rewrite !not_elem_of_app. repeat split;
      try (by apply decimal_not_elem);
      intros H; repeat (apply elem_of_cons in H as [H|H]; [done|]);
      by apply elem_of_nil in H.
  - rewrite run_seq_cons, run_text, run_seq_cons, run_group.
    apply run_plus_max; [done..|].
    rewrite taken_app, run_seq_cons, run_text, run_seq_cons, run_group.
    apply run_plus_max; [done..|].
    rewrite taken_app, run_seq_cons, run_text, run_seq_cons, run_group.
    apply run_plus_max; [done..|].
    by rewrite taken_app, run_seq_nil.
Qed.

(** A text that does not go on with a digit. *)
Definition no_digit_first (s : string) : bool :=
  match s with
  | String c _ => negb (Char.is_decimal c)
  | EmptyString => true
  end.

(** X17: the runtime is read from the last duration of the text.  Where
    the text holds [Duration: h:m:s], the seconds with all their digits,
    and no [Duration: ] after it, the runtime of the parsed file is
    [int(h) * 3600 + int(m) * 60 + int(s)] for these three numbers,
    whatever durations stand before. *)
Theorem last_duration_gives_runtime (getsize : string → option N)
    (_path pre h mi s post : string) (lines : list string) (i : MediaInfo.info)
    (hrs mins secs : Z) :
  digits_ok h = true → digits_ok mi = true → digits_ok s = true →
  no_digit_first post = true → mentions post "Duration: " = false →
  Str.int h = Some hrs → Str.int mi = Some mins → Str.int s = Some secs →
  MediaInfo.parse_details getsize _path
    (pre +:+ "Duration: " +:+ h +:+ ":" +:+ mi +:+ ":" +:+ s +:+ post)
  = (lines, Ret (MediaInfo.Valid i)) →
  MediaInfo.runtime i = (hrs * 3600 + mins * 60 + secs)%Z.
Proof.
  intros Hh Hmi Hs Hpost Hlast Hhrs Hmins Hsecs.
  set (output := pre +:+ "Duration: " +:+ h +:+ ":" +:+ mi +:+ ":" +:+ s +:+ post).
  assert (match_ video_dur output
          = Some (mk_match video_dur
                    (<[3%nat := s]> (<[2%nat := mi]> (<[1%nat := h]> ∅)))))
    as Hmatch.
  { unfold match_, output. rewrite !los_app.
    rewrite (video_dur_first (los pre) (los h) (los mi) (los s) (los post)).
    - by rewrite !string_of_list_ascii_of_string.
    - by apply digits_ok_number.
    - by apply digits_ok_number.
    - by apply digits_ok_number.
    - destruct post as [|c post]; [done|]. simpl in *.
      by apply negb_true_iff in Hpost.
    - intros u rest Heq.
      assert (post = string_of_list_ascii u +:+ "Duration: "
                     +:+ string_of_list_ascii rest) as Hp.
      { apply los_inj. by rewrite !los_app, !los_string. }
      rewrite Hp, mentions_app in Hlast. done. }
  destruct (parse_details_cases getsize _path output)
    as [[_ ->] | (m1 & m2 & pre' & h' & mi' & s' & post' & vpre & v & vpost
                  & hrs' & mins' & secs' & width & height & fps & audio
                  & subtitle & _ & _ & (Hh' & Hmi' & Hs' & _) & _ & _
                  & (Hm1 & Hg1 & _) & ->)];
    [done|].
  rewrite Hmatch in Hm1. injection Hm1 as <-.
  change (groups _) with [Some h; Some mi; Some s] in Hg1.
  injection Hg1 as <- <- <-.
  destruct (getsize _path); [|done]. intros [= _ <-]. simpl. congruence.
Qed.

Lemma last_duration_gives_runtime_witness :
  MediaInfo.runtime sample_info = (0 * 3600 + 30 * 60 + 15)%Z.
Proof.
  apply (last_duration_gives_runtime (λ _, Some 734003200%N) "a.mkv"
           (String.substring 0 41 (render sample_lines)) "00" "30" "15"
           (String.substring 59 345 (render sample_lines)) [] sample_info
           0 30 15); reflexivity.
Defined.

Lemma parsed_audio_never_default_witness :
  Forall (λ a, AudioTrack.is_default a = false) (MediaInfo.audio sample_info).
Proof.
  apply (Probe.parsed_audio_never_default (λ _, Some 734003200%N) "a.mkv"
           (render sample_lines) [] sample_info).
  vm_compute. reflexivity.
Defined.

Lemma lost_default_is_warned_witness :
  (MediaInfo.ffmpeg_streams two_spanish_info
     (Profile.Build (Some ["eng"]) None [] [] None None)).1
  = [lost_default_warning].
Proof.
  apply (lost_default_is_warned two_spanish
           (Profile.Build (Some ["eng"]) None [] [] None None)).
Defined.



End AnyText.

(** * The description of a file *)

(** [MediaInfo.__str__], with the formatting of the standard library it
    goes through: [timedelta], [%02d], [{:0>8}] and [join]. *)
Module Describe.

(** How [str(info)] ends: the text, the [AttributeError] of a missing
    attribute or the [OverflowError] of [timedelta]. *)
Inductive shown :=
| Shown (text : string)
| NoAttribute (name : string)
| Overflow.

(** ["%02d" % n] *)
Definition two_digits (n : Z) : string :=
  let s := pretty n in
  if (String.length s <? 2)%nat then "0" +:+ s else s.

Fixpoint zeros (n : nat) : string :=
  match n with
  | O => ""
  | S n => String "0" (zeros n)
  end.

(** ["{:0>8}".format(s)] *)
Definition pad8 (s : string) : string := zeros (8 - String.length s) +:+ s.

(** [str(timedelta(seconds=n))] for an integer [n]: days are whole
    multiples of 86400 seconds, rounded down, and at most 999999999 in
    magnitude; [None] is the [OverflowError]. *)
Definition timedelta_str (seconds : Z) : option string :=
  let days := seconds / 86400 in
  let rest := seconds mod 86400 in
  if (999999999 <? Z.abs days)%Z then None
  else
    let mm := rest / 60 in
    let ss := rest mod 60 in
    let hh := mm / 60 in
    let mm := mm mod 60 in
    let s := pretty hh +:+ ":" +:+ two_digits mm +:+ ":" +:+ two_digits ss in
    Some (if (days =? 0)%Z then s
          else pretty days +:+ " day" +:+ (if (Z.abs days =? 1)%Z then "" else "s")
               +:+ ", " +:+ s).

(** [sep.join(parts)] *)
Definition join (sep : string) (parts : list string) : string :=
  String.concat sep parts.

Section Text.

(** [str(x)] of a float. *)
Variable str_other : PyVal → string.

(** The f-string of the last line, given the text of the runtime. *)
Definition buf (i : MediaInfo.info) (runtime : string) : string :=
  let audios := AudioTrack.__str__ <$> MediaInfo.audio i in
  let audio := "(" +:+ join "," audios +:+ ")" in
  let subs := SubtitleTrack.__str__ <$> MediaInfo.subtitle i in
  let sub := "(" +:+ join "," subs +:+ ")" in
  "MediaInfo: " +:+ MediaInfo.path i +:+ ", "
  +:+ MediaInfo.format_attr str_other (PyFloat (MediaInfo.filesize_mb i)) +:+ "mb, "
  +:+ pretty (MediaInfo.fps i) +:+ " fps, cs=" +:+ str_opt (MediaInfo.colorspace i)
  +:+ ", " +:+ pretty (MediaInfo.res_width i) +:+ "x"
  +:+ pretty (MediaInfo.res_height i) +:+ ", " +:+ runtime
  +:+ ", c:v=" +:+ str_opt (MediaInfo.vcodec i)
  +:+ ", audio=" +:+ audio +:+ ", sub=" +:+ sub.

Definition __str__ (self : MediaInfo.t) : shown :=
  match self with
  | MediaInfo.Invalid => NoAttribute "runtime"
  | MediaInfo.Valid i =>
      match timedelta_str (MediaInfo.runtime i) with
      | None => Overflow
      | Some d => Shown (buf i (pad8 d))
      end
  end.

End Text.

End Describe.

Section Description.

Import Describe.

Variable str_other : PyVal → string.

Lemma pretty_length (n : Z) :
  (0 ≤ n < 100)%Z →
  String.length (pretty n) = if bool_decide (n < 10)%Z then 1%nat else 2%nat.
Proof.
  intros Hn.
  assert (Forall (λ k : Z, String.length (pretty k)
                     = if bool_decide (k < 10)%Z then 1%nat else 2%nat)
            (seqZ 0 100)) as Hall
    by (apply (bool_decide_unpack _); by vm_compute).
  rewrite list.Forall_forall in Hall. apply Hall, elem_of_seqZ. lia.
Qed.

Lemma two_digits_length (n : Z) :
  (0 ≤ n < 100)%Z → String.length (two_digits n) = 2%nat.
Proof.
  intros Hn. unfold two_digits. pose proof (pretty_length n Hn) as Hl.
  case_bool_decide; rewrite Hl; simpl; [|done].
  by rewrite append_nil_l, Hl.
Qed.

Lemma append_length (s t : string) :
  String.length (s +:+ t) = (String.length s + String.length t)%nat.
Proof.
  induction s as [|c s IH]; [by rewrite append_nil_l|].
  rewrite append_cons. simpl. by rewrite IH.
Qed.

(** Padding to eight characters makes the hours two digits wide. *)
Lemma clock_padded (hh : Z) (b c : string) :
  (0 ≤ hh < 100)%Z → String.length b = 2%nat → String.length c = 2%nat →
  pad8 (pretty hh +:+ ":" +:+ b +:+ ":" +:+ c)
  = two_digits hh +:+ ":" +:+ b +:+ ":" +:+ c.
Proof.
  intros Hh Hb Hc. unfold pad8, two_digits.
  rewrite !append_length, Hb, Hc. pose proof (pretty_length hh Hh) as Hl.
  case_bool_decide; rewrite Hl; simpl.
  - by rewrite !append_cons, !append_nil_l.
  - by rewrite append_nil_l.
Qed.

Lemma timedelta_clock (rt : Z) :
  (0 ≤ rt < 86400)%Z →
  timedelta_str rt
  = Some (pretty (rt / 3600) +:+ ":" +:+ two_digits (rt / 60 mod 60) +:+ ":"
          +:+ two_digits (rt mod 60)).
Proof.
  intros Hrt. unfold timedelta_str.
  rewrite Z.div_small, Z.mod_small by done. simpl.
  by rewrite Z.div_div by lia.
Qed.

Lemma clock_fields (rt : Z) :
  (0 ≤ rt < 86400)%Z →
  (0 ≤ rt / 3600 < 24 ∧ 0 ≤ rt / 60 mod 60 < 60 ∧ 0 ≤ rt mod 60 < 60)%Z.
Proof.
  intros Hrt. repeat split; try (apply Z.mod_pos_bound; lia).
  - apply Z.div_pos; lia.
  - apply Z.div_lt_upper_bound; lia.
Qed.

(** X19: the description of a file that runs for less than a day shows
    the runtime as [HH:MM:SS], eight characters with two digits for each
    of hours, minutes and seconds, between the resolution and the codec. *)
Theorem description_shows_clock_time (i : MediaInfo.info) :
  (0 ≤ MediaInfo.runtime i < 86400)%Z →
  let rt := MediaInfo.runtime i in
  let clock := two_digits (rt / 3600) +:+ ":" +:+ two_digits (rt / 60 mod 60)
               +:+ ":" +:+ two_digits (rt mod 60) in
  __str__ str_other (MediaInfo.Valid i) = Shown (buf str_other i clock)
  ∧ String.length clock = 8%nat.
Proof.
  intros Hrt rt clock. subst rt clock.
  destruct (clock_fields _ Hrt) as (Hh & Hm & Hs).
  split.
  - unfold __str__. rewrite timedelta_clock by done.
    rewrite clock_padded; [done | lia | by apply two_digits_length; lia..].
  - rewrite !append_length, !two_digits_length by lia. done.
Qed.

(** X20: how describing an instance ends.  The invalid instance has no
    [runtime]: the [AttributeError] names it.  A valid one is described
    when its runtime is at most 999999999 days, a negative one rounded
    down to whole days, and ends in the [OverflowError] of [timedelta]
    otherwise. *)
Theorem description_outcomes (self : MediaInfo.t) :
  match __str__ str_other self with
  | Shown _ =>
      ∃ i, self = MediaInfo.Valid i
           ∧ (-86399999913600 ≤ MediaInfo.runtime i ≤ 86399999999999)%Z
  | NoAttribute name => self = MediaInfo.Invalid ∧ name = "runtime"
  | Overflow =>
      ∃ i, self = MediaInfo.Valid i
           ∧ ¬ (-86399999913600 ≤ MediaInfo.runtime i ≤ 86399999999999)%Z
  end.
Proof.
  destruct self as [|i]; [done|]. unfold __str__, timedelta_str.
  pose proof (Z.div_mod (MediaInfo.runtime i) 86400 ltac:(done)) as Hdiv.
  pose proof (Z.mod_pos_bound (MediaInfo.runtime i) 86400 ltac:(done)) as Hmod.
  destruct (Z.ltb_spec 999999999 (Z.abs (MediaInfo.runtime i / 86400)));
    exists i; (split; [done|]); lia.
Qed.

Lemma decimal_cases (c : ascii) :
  Char.is_decimal c = true → c ∈ los "0123456789".
Proof.
  intros H. apply (bool_decide_unpack _). revert H.
  destruct c as [[] [] [] [] [] [] [] []]; by vm_compute.
Qed.

(** Two digits read by [int] and written by [%02d] are the same two
    digits. *)
Lemma two_digits_int (s : string) (n : Z) :
  digits_ok s = true → String.length s = 2%nat → Str.int s = Some n →
  two_digits n = s ∧ (0 ≤ n < 100)%Z.
Proof.
  intros Hs Hlen Hn.
  destruct s as [|a [|b [|? ?]]]; try done.
  unfold digits_ok in Hs. apply andb_true_iff in Hs as [_ Hs]. simpl in Hs.
  apply andb_true_iff in Hs as [Ha Hs]. apply andb_true_iff in Hs as [Hb _].
  apply decimal_cases in Ha. apply decimal_cases in Hb. revert n Hn.
  repeat (apply elem_of_cons in Ha as [->|Ha]); try (by apply elem_of_nil in Ha);
    repeat (apply elem_of_cons in Hb as [->|Hb]); try (by apply elem_of_nil in Hb);
    intros n [= <-]; (split; [by vm_compute | lia]).
Qed.

(** X21: a duration read and written again.  Where the runtime of a file
    comes from three fields [h], [m] and [s] of two digits each, less than
    24 hours, 60 minutes and 60 seconds, as [int(h) * 3600 + int(m) * 60 +
    int(s)], the description of the file shows [h:m:s] with these very
    digits. *)
Theorem description_repeats_the_duration (i : MediaInfo.info)
    (h mi s : string) (hrs mins secs : Z) :
  digits_ok h = true → digits_ok mi = true → digits_ok s = true →
  String.length h = 2%nat → String.length mi = 2%nat → String.length s = 2%nat →
  Str.int h = Some hrs → Str.int mi = Some mins → Str.int s = Some secs →
  (hrs < 24 ∧ mins < 60 ∧ secs < 60)%Z →
  MediaInfo.runtime i = (hrs * 3600 + mins * 60 + secs)%Z →
  __str__ str_other (MediaInfo.Valid i)
  = Shown (buf str_other i (h +:+ ":" +:+ mi +:+ ":" +:+ s)).
Proof.
  intros Hh Hmi Hs Lh Lmi Ls Ih Imi Is (Bh & Bm & Bs) Hrt.
  destruct (two_digits_int h hrs Hh Lh Ih) as [<- ?].
  destruct (two_digits_int mi mins Hmi Lmi Imi) as [<- ?].
  destruct (two_digits_int s secs Hs Ls Is) as [<- ?].
  assert (0 ≤ MediaInfo.runtime i < 86400)%Z as Hday by lia.
  unfold __str__. rewrite timedelta_clock by done.
  rewrite <- (Z.div_unique_pos (MediaInfo.runtime i) 3600 hrs (mins * 60 + secs))
    by lia.
  rewrite <- (Z.mod_unique_pos (MediaInfo.runtime i) 60 (hrs * 60 + mins) secs)
    by lia.
  rewrite <- (Z.div_unique_pos (MediaInfo.runtime i) 60 (hrs * 60 + mins) secs)
    by lia.
  rewrite <- (Z.mod_unique_pos (hrs * 60 + mins) 60 hrs mins) by lia.
  rewrite clock_padded; [done | lia | by apply two_digits_length..].
Qed.

End Description.

Lemma description_shows_clock_time_witness :
  Describe.__str__ (λ _, "700.0") (MediaInfo.Valid sample_info)
  = Describe.Shown (Describe.buf (λ _, "700.0") sample_info "00:30:15")
  ∧ String.length "00:30:15" = 8%nat.
Proof.
  apply (description_shows_clock_time (λ _, "700.0") sample_info). simpl. lia.
Defined.

Lemma description_repeats_the_duration_witness :
  Describe.__str__ (λ _, "700.0") (MediaInfo.Valid sample_info)
  = Describe.Shown
      ("MediaInfo: a.mkv, 700.0mb, 23 fps, cs=yuv420p, 1920x1080, 00:30:15, "
       +:+ "c:v=h264, audio=(1:eng:ac3:(default),2:und:aac:None), sub=(3:eng)").
Proof.
  apply (description_repeats_the_duration (λ _, "700.0") sample_info
           "00" "30" "15" 0 30 15); try reflexivity. lia.
Defined.
